(** * Collection: a shallow embedding of [collection.js]

    The development follows the source of the Collection component
    ([set], [add], [remove], [reset], [sort], [get], [_removeModels],
    [_addReference], [_removeReference], [_prepareModel],
    [_onModelEvent], [splice] and [CollectionIterator.prototype.next])
    and proves the testable properties stated for it.

    Models are shared mutable objects: they live in a store indexed by
    their client id, and the collection holds client ids as references. *)

From stdpp Require Import gmap strings list fin_maps sorting.

Open Scope Z_scope.

(** ** Data model *)

(** A client id [cid]: the number [n] stands for the string [c<n>] drawn
    from the process-wide counter. *)
Definition cid := nat.

(** Property names of the [_byId] object.  A model is registered under its
    client id and under its server id.  Server ids are taken to be numbers:
    the property name of a number is never that of a client id nor one that
    [Object.prototype] defines, so the two families below are disjoint and
    nothing inherited is found under them.  Lookups under an inherited name
    are treated apart, with [remove_name]. *)
Inductive key :=
  | KCid (c : cid)
  | KId (i : Z).

Global Instance key_eq_dec : EqDecision key.
Proof. solve_decision. Defined.

Global Instance key_countable : Countable key.
Proof.
  refine (inj_countable'
            (λ k, match k with KCid c => inl c | KId i => inr i end)
            (λ s, match s with inl c => KCid c | inr i => KId i end) _).
  by intros [].
Defined.

(** An attribute hash: the value stored under the id attribute, and the
    remaining named attributes.  All values are numbers.  The hashes
    covered carry no [cid] property of their own. *)
Record attrs := Attrs {
  a_id : option Z;
  a_data : gmap string Z
}.

Global Instance attrs_eq_dec : EqDecision attrs.
Proof. solve_decision. Defined.

(** [model.get(name)] on an attribute hash, with [idAttribute] being [id]. *)
Definition attr_get (name : string) (a : attrs) : option Z :=
  if decide (name = "id"%string) then a_id a else a_data a !! name.

Definition empty_attrs : attrs := Attrs None ∅.

(** The three forms of [comparator]. *)
Inductive comparator :=
  | CmpAttr (name : string)
  | CmpKey (f : attrs → Z)
  | CmpFun (f : attrs → attrs → Z).

(** An input item of [set], [add] and [reset]: a Model instance, or a raw
    attribute hash. *)
Inductive item :=
  | IModel (m : cid)
  | IRaw (a : attrs).

(** What [get] and [remove] accept besides: a primitive id or cid. *)
Inductive target :=
  | TItem (it : item)
  | TKey (k : key).

(** The [models] argument: absent, a single item, or an array. *)
Inductive input :=
  | Nothing
  | One (it : item)
  | Many (l : list item).

(** A slot of a returned array: a model, an input hash left as it was,
    [false], or [undefined]. *)
Inductive slot :=
  | SModel (m : cid)
  | SRaw (a : attrs)
  | SFalse
  | SUndefined.

(** What a call returns: [undefined], one slot, or an array of slots. *)
Inductive output :=
  | RUndefined
  | ROne (r : slot)
  | RMany (l : list slot).

(** The options object.  [None] is an absent property.  [o_index] is the
    property the collection writes before it triggers [add] and [remove]. *)
Record options := Options {
  o_add : option bool;
  o_remove : option bool;
  o_merge : option bool;
  o_silent : option bool;
  o_sort : option bool;
  o_at : option Z;
  o_index : option Z
}.

Definition no_options : options :=
  Options None None None None None None None.

(** JavaScript truthiness of an optional boolean property. *)
Definition truthy (b : option bool) : bool := default false b.

(** The collection object. *)
Record collection := Collection {
  c_length : Z;
  c_models : list cid;
  c_byId : gmap key cid;
  c_comparator : option comparator;
  c_validate : attrs → option Z;
  c_listening : gset cid
}.

(** The events a collection or one of its models triggers. *)
Inductive event :=
  | EvAdd (m : cid) (index : option Z)
  | EvRemove (m : cid) (index : option Z)
  | EvSort
  | EvUpdate (added removed merged : list cid)
  | EvReset
  | EvInvalid (error : Z)
  | EvChange (m : cid).

(** A dispatched event, with the collection as a listener finds it. *)
Record dispatch := Dispatch {
  d_event : event;
  d_seen : collection
}.

(** The program state: the store of models, the client-id counter, the
    collection, and the trace of dispatched events. *)
Record world := World {
  heap : gmap cid attrs;
  next_cid : nat;
  coll : collection;
  log : list dispatch
}.

(** The outcome of a call: it returns, or it throws. *)
Inductive outcome (A : Type) :=
  | Ok (r : A) (w : world)
  | Throw (msg : string) (w : world).
Arguments Ok {A} r w.
Arguments Throw {A} msg w.

(** ** Small state updates *)

Definition with_coll (w : world) (c : collection) : world :=
  World (heap w) (next_cid w) c (log w).

Definition with_heap (w : world) (h : gmap cid attrs) : world :=
  World h (next_cid w) (coll w) (log w).

Definition set_byId (c : collection) (b : gmap key cid) : collection :=
  Collection (c_length c) (c_models c) b (c_comparator c) (c_validate c)
             (c_listening c).

Definition set_models (c : collection) (l : list cid) (n : Z) : collection :=
  Collection n l (c_byId c) (c_comparator c) (c_validate c) (c_listening c).

Definition set_listening (c : collection) (s : gset cid) : collection :=
  Collection (c_length c) (c_models c) (c_byId c) (c_comparator c)
             (c_validate c) s.

Definition set_index (o : options) (i : option Z) : options :=
  Options (o_add o) (o_remove o) (o_merge o) (o_silent o) (o_sort o)
          (o_at o) i.

(** [trigger] in a collection whose handlers only observe: the dispatch is
    recorded together with the collection as it is at that moment, which is
    what a listener sees.  Handlers that act on the collection while they
    run are the subject of the section on handlers further down. *)
Definition trigger (e : event) (w : world) : world :=
  World (heap w) (next_cid w) (coll w) (log w ++ [Dispatch e (coll w)]).

(** The attributes of a model object. *)
Definition attributes (w : world) (m : cid) : attrs :=
  default empty_attrs (heap w !! m).

(** [modelId]: the value under the id attribute. *)
Definition modelId (a : attrs) : option Z := a_id a.

(** [_byId[id]] for an id that may be [undefined]. *)
Definition byId_id (c : collection) (i : option Z) : option cid :=
  i ≫= λ z, c_byId c !! KId z.

(** JavaScript [x || y] on possibly-undefined objects. *)
Definition orelse {A} (x y : option A) : option A :=
  match x with Some _ => x | None => y end.

(** [get]: [this._byId[obj]], else [this._byId[this.modelId(...)]], else
    [obj.cid && this._byId[obj.cid]].  A primitive id or cid is a property
    name itself; it has no id attribute and no [cid].  An object used as a
    property name names no entry; a Model instance is then looked up by the
    id of its attributes and by its [cid], a raw hash by its id only. *)
Definition get (w : world) (obj : target) : option cid :=
  match obj with
  | TKey k => c_byId (coll w) !! k
  | TItem (IRaw a) => byId_id (coll w) (modelId a)
  | TItem (IModel m) =>
      orelse (byId_id (coll w) (modelId (attributes w m)))
             (c_byId (coll w) !! KCid m)
  end.

Arguments get : simpl never.

(** [_reset]. *)
Definition _reset (c : collection) : collection :=
  Collection 0 [] ∅ (c_comparator c) (c_validate c) (c_listening c).

(** [delete this._byId[model.cid]] and, when the id resolves,
    [delete this._byId[id]]. *)
Definition delete_keys (w : world) (m : cid) (b : gmap key cid) : gmap key cid :=
  let b1 := delete (KCid m) b in
  match modelId (attributes w m) with
  | Some i => delete (KId i) b1
  | None => b1
  end.

(** [_addReference]. *)
Definition _addReference (m : cid) (w : world) : world :=
  let c := coll w in
  let b1 := <[KCid m := m]> (c_byId c) in
  let b2 := match modelId (attributes w m) with
            | Some i => <[KId i := m]> b1
            | None => b1
            end in
  with_coll w (set_listening (set_byId c b2) ({[m]} ∪ c_listening c)).

(** [_removeReference]. *)
Definition _removeReference (m : cid) (w : world) : world :=
  let c := coll w in
  with_coll w (set_listening (set_byId c (delete_keys w m (c_byId c)))
                             (c_listening c ∖ {[m]})).

(** [splice(array, insert, at)]. *)
Definition splice (array insert : list cid) (at_ : Z) : list cid :=
  let at' := Z.to_nat (Z.min (Z.max at_ 0) (Z.of_nat (length array))) in
  take at' array ++ insert ++ drop at' array.

(** ** The Model contract the collection consumes *)

(** Modelled from the spec: [Model.prototype.set] is not part of the
    sources at hand.  It merges the new attributes into the entity, the
    new values winning. *)
Definition model_set (old new : attrs) : attrs :=
  Attrs (orelse (a_id new) (a_id old)) (a_data new ∪ a_data old).

(** Modelled from the spec: [Model.prototype.hasChanged] is not part of the
    sources at hand.  With an attribute name it tells whether the last
    [set] changed that attribute, with [null] whether it changed any. *)
Definition hasChanged (sortAttr : option string) (old new : attrs) : bool :=
  match sortAttr with
  | Some name => negb (bool_decide (attr_get name old = attr_get name new))
  | None => negb (bool_decide (old = new))
  end.

(** [_onModelEvent] for a [change] event of [model]: the index follows an
    id that changed, then the event is proxied. *)
Definition _onModelEvent_change (m : cid) (previous : attrs) (w : world) : world :=
  let prevId := modelId previous in
  let id := modelId (attributes w m) in
  let c := coll w in
  let b :=
    if decide (prevId = id) then c_byId c
    else
      let b1 := match prevId with
                | Some p => delete (KId p) (c_byId c)
                | None => c_byId c
                end in
      match id with
      | Some i => <[KId i := m]> b1
      | None => b1
      end in
  trigger (EvChange m) (with_coll w (set_byId c b)).

(** [existing.set(attrs, options)] as the collection experiences it: the
    store is updated and, when something changed and the call is not
    silent, the [change] event reaches [_onModelEvent] of a listening
    collection. *)
Definition existing_set (m : cid) (new : attrs) (o : options) (w : world) : world :=
  let old := attributes w m in
  let merged := model_set old new in
  let w1 := with_heap w (<[m := merged]> (heap w)) in
  if bool_decide (merged = old) || truthy (o_silent o) then w1
  else if decide (m ∈ c_listening (coll w)) then _onModelEvent_change m old w1
  else w1.

(** [!model.validationError]: the error [_prepareModel] acts on.  An error
    that is absent or falsy (the number 0) lets the model through. *)
Definition failure (e : option Z) : option Z :=
  match e with
  | Some err => if decide (err = 0) then None else Some err
  | None => None
  end.

(** [_prepareModel]: a Model instance is taken as it is; a raw hash is
    given to the model constructor, which draws a fresh client id.  A
    validation error that is truthy is reported by an [invalid] event and
    [false].  [c_validate] stands for the [validationError] the constructor
    of [this.model] leaves.  The back reference [model.collection] is not
    represented. *)
Definition _prepareModel (it : item) (w : world) : world * option cid :=
  match it with
  | IModel m => (w, Some m)
  | IRaw a =>
      let m := next_cid w in
      match failure (c_validate (coll w) a) with
      | None => (World (<[m := a]> (heap w)) (S m) (coll w) (log w), Some m)
      | Some err =>
          (trigger (EvInvalid err) (World (heap w) (S m) (coll w) (log w)), None)
      end
  end.

(** ** Sorting *)

(** Sort keys: [undefined] sorts last. *)
Definition key_leb (x y : option Z) : bool :=
  match x, y with
  | _, None => true
  | None, Some _ => false
  | Some a, Some b => a <=? b
  end.

Definition sort_leb (w : world) (cmp : comparator) (x y : cid) : bool :=
  match cmp with
  | CmpAttr name => key_leb (attr_get name (attributes w x)) (attr_get name (attributes w y))
  | CmpKey f => f (attributes w x) <=? f (attributes w y)
  | CmpFun f => f (attributes w x) (attributes w y) <=? 0
  end.

Definition sort_models (w : world) (cmp : comparator) (l : list cid) : list cid :=
  merge_sort (λ x y, Is_true (sort_leb w cmp x y)) l.

(** [this.comparator] where the code tests it for truthiness:
    [undefined], [null] and the empty attribute name are falsy; a function
    and a non-empty name are truthy. *)
Definition truthy_comparator (c : option comparator) : option comparator :=
  match c with
  | Some (CmpAttr name) => if decide (name = EmptyString) then None else c
  | _ => c
  end.

(** [sort]. *)
Definition sort (silent : bool) (w : world) : outcome unit :=
  match truthy_comparator (c_comparator (coll w)) with
  | None => Throw "Cannot sort a set without a comparator" w
  | Some cmp =>
      let c := coll w in
      let w1 := with_coll w (set_models c (sort_models w cmp (c_models c)) (c_length c)) in
      Ok tt (if silent then w1 else trigger EvSort w1)
  end.

(** ** Removal *)

(** [indexOf]: [-1] when absent. *)
Definition indexOf (l : list cid) (m : cid) : Z :=
  match list_find (λ x, x = m) l with
  | Some (i, _) => Z.of_nat i
  | None => -1
  end.

(** [array.splice(index, 1)]: a negative index counts from the end. *)
Definition splice_out (l : list cid) (index : Z) : list cid :=
  let len := Z.of_nat (length l) in
  let start := if index <? 0 then Z.max (len + index) 0 else Z.min index len in
  delete (Z.to_nat start) l.

(** One turn of the loop of [_removeModels]. *)
Definition remove_one (st : world * options * list cid) (t : target)
  : world * options * list cid :=
  let '(w, o, removed) := st in
  match get w t with
  | None => st
  | Some m =>
      let c := coll w in
      let index := indexOf (c_models c) m in
      let c1 := set_models c (splice_out (c_models c) index) (c_length c - 1) in
      let c2 := set_byId c1 (delete_keys w m (c_byId c1)) in
      let w2 := with_coll w c2 in
      let '(w3, o3) :=
        if truthy (o_silent o) then (w2, o)
        else
          let o' := set_index o (Some index) in
          (trigger (EvRemove m (o_index o')) w2, o') in
      (_removeReference m w3, o3, removed ++ [m])
  end.

(** [_removeModels]. *)
Definition _removeModels (ts : list target) (o : options) (w : world)
  : world * options * list cid :=
  foldl remove_one (w, o, []) ts.

(** ** Reconciliation: [set] *)

(** The working lists of [set]: [set], [toAdd], [toMerge], [modelMap], the
    [sort] flag, and the [models] array being rewritten in place. *)
Record acc := Acc {
  s_set : list cid;
  s_toAdd : list cid;
  s_toMerge : list cid;
  s_modelMap : gset cid;
  s_sort : bool;
  s_out : list slot
}.

Definition empty_acc : acc := Acc [] [] [] ∅ false [].

(** [model !== existing]. *)
Definition differs (it : item) (existing : cid) : bool :=
  match it with
  | IModel m => negb (bool_decide (m = existing))
  | IRaw _ => true
  end.

(** [this._isModel(model) ? model.attributes : model]. *)
Definition item_attrs (w : world) (it : item) : attrs :=
  match it with
  | IModel m => attributes w m
  | IRaw a => a
  end.

Definition item_slot (it : item) : slot :=
  match it with
  | IModel m => SModel m
  | IRaw a => SRaw a
  end.

(** One turn of the first loop of [set]. *)
Definition set_step (o : options) (sortable : bool) (sortAttr : option string)
    (st : world * acc) (it : item) : world * acc :=
  let '(w, a) := st in
  match get w (TItem it) with
  | Some existing =>
      let '(w1, toMerge1, sort1) :=
        if truthy (o_merge o) && differs it existing then
          let old := attributes w existing in
          let w1 := existing_set existing (item_attrs w it) o w in
          (w1, s_toMerge a ++ [existing],
           if sortable && negb (s_sort a)
           then hasChanged sortAttr old (attributes w1 existing)
           else s_sort a)
        else (w, s_toMerge a, s_sort a) in
      let '(set1, map1) :=
        if decide (existing ∈ s_modelMap a) then (s_set a, s_modelMap a)
        else (s_set a ++ [existing], {[existing]} ∪ s_modelMap a) in
      (w1, Acc set1 (s_toAdd a) toMerge1 map1 sort1 (s_out a ++ [SModel existing]))
  | None =>
      if truthy (o_add o) then
        match _prepareModel it w with
        | (w1, Some m) =>
            (_addReference m w1,
             Acc (s_set a ++ [m]) (s_toAdd a ++ [m]) (s_toMerge a)
                 ({[m]} ∪ s_modelMap a) (s_sort a) (s_out a ++ [SModel m]))
        | (w1, None) =>
            (w1, Acc (s_set a) (s_toAdd a) (s_toMerge a) (s_modelMap a)
                     (s_sort a) (s_out a ++ [SFalse]))
        end
      else
        (w, Acc (s_set a) (s_toAdd a) (s_toMerge a) (s_modelMap a)
                (s_sort a) (s_out a ++ [item_slot it]))
  end.

(** [_.extend({}, setOptions, options)]. *)
Definition extend_setOptions (o : options) : options :=
  Options (orelse (o_add o) (Some true)) (orelse (o_remove o) (Some true))
          (orelse (o_merge o) (Some true)) (o_silent o) (o_sort o) (o_at o)
          (o_index o).

(** The resolution of [at] in [set]. *)
Definition resolve_at (at_ : option Z) (len : Z) : option Z :=
  match at_ with
  | None => None
  | Some a =>
      let a1 := if a >? len then len else a in
      Some (if a1 <? 0 then a1 + (len + 1) else a1)
  end.

(** The second loop of [set]: the members whose [cid] is not in
    [modelMap].  Reading past the end of [models] is a [TypeError]. *)
Definition stale_models (c : collection) (modelMap : gset cid) : option (list cid) :=
  if decide (c_length c ≤ Z.of_nat (length (c_models c))) then
    Some (filter (λ m, m ∉ modelMap) (take (Z.to_nat (c_length c)) (c_models c)))
  else None.

(** [_.some(this.models, (m, index) => m !== set[index])]. *)
Definition some_differs (models set_ : list cid) : bool :=
  existsb (λ p : nat * cid, negb (bool_decide (set_ !! p.1 = Some p.2)))
          (imap pair models).

(** The [add] events of the last part of [set]. *)
Fixpoint trigger_adds (at_ : option Z) (i : Z) (toAdd : list cid)
    (o : options) (w : world) : world * options :=
  match toAdd with
  | [] => (w, o)
  | m :: rest =>
      let o1 := match at_ with
                | Some a => set_index o (Some (a + i))
                | None => o
                end in
      trigger_adds at_ (i + 1) rest o1 (trigger (EvAdd m (o_index o1)) w)
  end.

(** The events of a call of [set] that is not silent. *)
Definition set_events (at_ : option Z) (a : acc) (toRemove : list cid)
    (sort_ orderChanged : bool) (o : options) (w : world) : world :=
  let '(w1, o1) := trigger_adds at_ 0 (s_toAdd a) o w in
  let w2 := if sort_ || orderChanged then trigger EvSort w1 else w1 in
  match s_toAdd a, toRemove, s_toMerge a with
  | [], [], [] => w2
  | _, _, _ => trigger (EvUpdate (s_toAdd a) toRemove (s_toMerge a)) w2
  end.

Definition items_of (i : input) : list item :=
  match i with
  | Nothing => []
  | One it => [it]
  | Many l => l
  end.

Definition shape (i : input) (out : list slot) : output :=
  match i with
  | Nothing => RUndefined
  | One _ => ROne (default SUndefined (head out))
  | Many _ => RMany out
  end.

(** [sortable]: [this.comparator && at == null && options.sort !== false];
    and [sortAttr]: the comparator when it is a string. *)
Definition sortable_of (o : options) (w : world) : bool :=
  bool_decide (is_Some (truthy_comparator (c_comparator (coll w))))
  && bool_decide (resolve_at (o_at o) (c_length (coll w)) = None)
  && negb (bool_decide (o_sort o = Some false)).

Definition sortAttr_of (w : world) : option string :=
  match c_comparator (coll w) with
  | Some (CmpAttr name) => Some name
  | _ => None
  end.

(** The first loop of [set]. *)
Definition set_loop (models : input) (o : options) (w : world) : world * acc :=
  foldl (set_step o (sortable_of o w) (sortAttr_of w)) (w, empty_acc)
        (items_of models).

(** The removal of the stale members. *)
Definition set_remove (o : options) (a : acc) (w1 : world)
  : option (world * options * list cid) :=
  if truthy (o_remove o) then
    match stale_models (coll w1) (s_modelMap a) with
    | None => None
    | Some [] => Some (w1, o, [])
    | Some toRemove =>
        let '(w2, o2, _) := _removeModels (TItem ∘ IModel <$> toRemove) o w1 in
        Some (w2, o2, toRemove)
    end
  else Some (w1, o, []).

(** The structural update: the new state, the [sort] flag and
    [orderChanged]. *)
Definition set_update (at_ : option Z) (sortable : bool) (o : options) (a : acc)
    (w2 : world) : world * bool * bool :=
  let c2 := coll w2 in
  let replace := negb sortable && truthy (o_add o) && truthy (o_remove o) in
  if negb (bool_decide (s_set a = [])) && replace then
    let oc := negb (bool_decide (c_length c2 = Z.of_nat (length (s_set a))))
              || some_differs (c_models c2) (s_set a) in
    let ms := splice [] (s_set a) 0 in
    (with_coll w2 (set_models c2 ms (Z.of_nat (length ms))), s_sort a, oc)
  else if negb (bool_decide (s_toAdd a = [])) then
    let ms := splice (c_models c2) (s_toAdd a) (default (c_length c2) at_) in
    (with_coll w2 (set_models c2 ms (Z.of_nat (length ms))),
     sortable || s_sort a, false)
  else (w2, s_sort a, false).

(** The body of [set] once [models] is known not to be [null]; the options
    have been merged with their defaults.  The [parse] hooks are the
    identity and are left out. *)
Definition set_body (models : input) (o : options) (w : world) : outcome output :=
  let at_ := resolve_at (o_at o) (c_length (coll w)) in
  let sortable := sortable_of o w in
  let '(w1, a) := set_loop models o w in
  match set_remove o a w1 with
  | None => Throw "TypeError" w1
  | Some (w2, o2, toRemove) =>
  let '(w3, sort3, orderChanged) := set_update at_ sortable o a w2 in
  match (if sort3 then sort true w3 else Ok tt w3) with
  | Throw msg w4 => Throw msg w4
  | Ok _ w4 =>
      let w5 := if truthy (o_silent o2) then w4
                else set_events at_ a toRemove sort3 orderChanged o2 w4 in
      Ok (shape models (s_out a)) w5
  end
  end.

Definition set_with (models : input) (o : options) (w : world) : outcome output :=
  match models with
  | Nothing => Ok RUndefined w
  | _ => set_body models o w
  end.

(** [set]. *)
Definition set (models : input) (o : options) (w : world) : outcome output :=
  set_with models (extend_setOptions o) w.

(** [_.extend({merge: false}, options, addOptions)]. *)
Definition extend_addOptions (o : options) : options :=
  Options (Some true) (Some false) (orelse (o_merge o) (Some false))
          (o_silent o) (o_sort o) (o_at o) (o_index o).

(** [add]. *)
Definition add (models : input) (o : options) (w : world) : outcome output :=
  set models (extend_addOptions o) w.

(** ** [remove] and [reset] *)

(** The argument of [remove]: a single target or an array of them. *)
Inductive targets :=
  | OneT (t : target)
  | ManyT (l : list target).

Definition targets_of (ts : targets) : list target :=
  match ts with
  | OneT t => [t]
  | ManyT l => l
  end.

(** [remove]. *)
Definition remove (models : targets) (o : options) (w : world) : outcome output :=
  let '(w1, o1, removed) := _removeModels (targets_of models) o w in
  let w2 := if negb (truthy (o_silent o1)) && negb (bool_decide (removed = []))
            then trigger (EvUpdate [] removed []) w1
            else w1 in
  Ok (match models with
      | OneT _ => ROne (default SUndefined (SModel <$> head removed))
      | ManyT _ => RMany (SModel <$> removed)
      end) w2.

(** [_.extend({silent: true}, options)]. *)
Definition extend_silent (o : options) : options :=
  Options (o_add o) (o_remove o) (o_merge o) (orelse (o_silent o) (Some true))
          (o_sort o) (o_at o) (o_index o).

(** [reset]. *)
Definition reset (models : input) (o : options) (w : world) : outcome output :=
  let w1 := foldl (λ w' m, _removeReference m w') w (c_models (coll w)) in
  let w2 := with_coll w1 (_reset (coll w1)) in
  match add models (extend_silent o) w2 with
  | Throw msg w3 => Throw msg w3
  | Ok r w3 => Ok r (if truthy (o_silent o) then w3 else trigger EvReset w3)
  end.

(** ** The public calls *)

Inductive call :=
  | CallAdd (models : input) (o : options)
  | CallRemove (models : targets) (o : options)
  | CallSet (models : input) (o : options)
  | CallReset (models : input) (o : options).

Definition run_call (c : call) (w : world) : outcome output :=
  match c with
  | CallAdd i o => add i o w
  | CallRemove t o => remove t o w
  | CallSet i o => set i o w
  | CallReset i o => reset i o w
  end.

(** A new collection, as its constructor leaves it when given no models. *)
Definition new_collection (cmp : option comparator) (validate : attrs → option Z)
  : collection :=
  Collection 0 [] ∅ cmp validate ∅.

(** [toJSON]: the attributes of each member. *)
Definition toJSON (w : world) : list item :=
  (λ m, IRaw (attributes w m)) <$> c_models (coll w).

(** ** CollectionIterator *)

Inductive kind := ITERATOR_VALUES | ITERATOR_KEYS | ITERATOR_KEYSVALUES.

(** The iterator: whether it still holds its collection, its kind and its
    position. *)
Record CollectionIterator := Iterator {
  _collection : bool;
  _kind : kind;
  _index : Z
}.

Definition values : CollectionIterator := Iterator true ITERATOR_VALUES 0.
Definition keys : CollectionIterator := Iterator true ITERATOR_KEYS 0.
Definition entries : CollectionIterator := Iterator true ITERATOR_KEYSVALUES 0.

(** What [next] hands out. *)
Inductive iter_value :=
  | VModel (m : option cid)
  | VKey (i : option Z)
  | VEntry (i : option Z) (m : cid).

Inductive iter_result :=
  | IterNext (v : iter_value)
  | IterDone
  | IterTypeError.

(** [at]. *)
Definition at_ (c : collection) (index : Z) : option cid :=
  let i := if index <? 0 then index + c_length c else index in
  if i <? 0 then None else c_models c !! Z.to_nat i.

(** [next], reading the collection as it is at the time of the call. *)
Definition next (it : CollectionIterator) (w : world) : iter_result * CollectionIterator :=
  if _collection it then
    if _index it <? c_length (coll w) then
      let model := at_ (coll w) (_index it) in
      let it' := Iterator true (_kind it) (_index it + 1) in
      match _kind it, model with
      | ITERATOR_VALUES, _ => (IterNext (VModel model), it')
      | _, None => (IterTypeError, it')
      | ITERATOR_KEYS, Some m => (IterNext (VKey (modelId (attributes w m))), it')
      | ITERATOR_KEYSVALUES, Some m =>
          (IterNext (VEntry (modelId (attributes w m)) m), it')
      end
    else (IterDone, Iterator false (_kind it) (_index it))
  else (IterDone, it).

(** Successive calls of [next], each against the world of its time. *)
Fixpoint nexts (it : CollectionIterator) (ws : list world) : list iter_result :=
  match ws with
  | [] => []
  | w :: rest => let '(r, it') := next it w in r :: nexts it' rest
  end.

(** ** Notions used by the statements *)

(** The state an outcome leaves. *)
Definition world_of {A} (o : outcome A) : world :=
  match o with
  | Ok _ w => w
  | Throw _ w => w
  end.

Definition returns {A} (o : outcome A) : Prop :=
  match o with
  | Ok _ _ => True
  | Throw _ _ => False
  end.

(** The events dispatched after the first [n] entries of the trace. *)
Definition events_since (n : nat) (w : world) : list event :=
  d_event <$> drop n (log w).

(** The loop rewrites the index and the store, never the member list. *)
Definition frame (c c' : collection) : Prop :=
  c_models c' = c_models c ∧ c_length c' = c_length c
  ∧ c_comparator c' = c_comparator c ∧ c_validate c' = c_validate c.

(** What [_removeModels] can do to the state: members and length only
    decrease, the store and the configuration stay. *)
Definition shrinks (w w' : world) : Prop :=
  heap w' = heap w ∧ next_cid w' = next_cid w
  ∧ c_models (coll w') ⊆ c_models (coll w)
  ∧ c_length (coll w') ≤ c_length (coll w)
  ∧ c_comparator (coll w') = c_comparator (coll w)
  ∧ c_validate (coll w') = c_validate (coll w).

(** The trace of [w'] is the trace of [w] followed by events that
    satisfy [P]. *)
Definition grows_by (P : event → Prop) (w w' : world) : Prop :=
  ∃ new, log w' = log w ++ new ∧ Forall (λ d, P (d_event d)) new.

(** The events of the first loop of [set]. *)
Definition loop_event (e : event) : Prop :=
  match e with
  | EvInvalid _ | EvChange _ => True
  | _ => False
  end.

(** The closing events of [set], and the [update] event of [remove]. *)
Definition closing_event (e : event) : Prop :=
  match e with
  | EvAdd _ _ | EvSort | EvUpdate _ _ _ => True
  | _ => False
  end.

(** The events [set] dispatches before its closing events. *)
Definition early_event (e : event) : Prop :=
  match e with
  | EvInvalid _ | EvChange _ | EvRemove _ _ => True
  | _ => False
  end.

(** The [add] and [remove] events. *)
Definition membership_event (e : event) : Prop :=
  match e with
  | EvAdd _ _ | EvRemove _ _ => True
  | _ => False
  end.

(** The model a [remove] event is about. *)
Definition removed_model (d : dispatch) : option cid :=
  match d_event d with
  | EvRemove m _ => Some m
  | _ => None
  end.

(** What a listener finds when it looks the model of a [remove] event up
    during the event: nothing under its [cid], nothing under its id, and
    [get] answers [undefined] for the id and for the model. *)
Definition sees_purged (w : world) (d : dispatch) : Prop :=
  ∀ m idx, d_event d = EvRemove m idx →
    c_byId (d_seen d) !! KCid m = None
    ∧ get (with_coll w (d_seen d)) (TItem (IModel m)) = None
    ∧ ∀ i, modelId (attributes w m) = Some i →
        c_byId (d_seen d) !! KId i = None
        ∧ get (with_coll w (d_seen d)) (TKey (KId i)) = None.

(** The trace of [w'] is the trace of [w] followed by dispatches whose
    [remove] events all find the index purged; [w0] is the state whose store
    resolves the ids. *)
Definition purged_trace (w0 w w' : world) : Prop :=
  ∃ new, log w' = log w ++ new ∧ Forall (sees_purged w0) new.

(** The loop state once an item has been dropped for failing validation
    with [err]: a client id is spent and [invalid] is dispatched; the
    collection, the store and the working lists are as before, and the slot
    of the item holds [false]. *)
Definition dropped (st : world * acc) (err : Z) : world * acc :=
  (trigger (EvInvalid err)
     (World (heap st.1) (S (next_cid st.1)) (coll st.1) (log st.1)),
   Acc (s_set st.2) (s_toAdd st.2) (s_toMerge st.2) (s_modelMap st.2)
       (s_sort st.2) (s_out st.2 ++ [SFalse])).

(** The place an explicit [at] designates in an array of length [len]:
    a negative value counts from the end plus one, and the result is
    clamped to [0, len]. *)
Definition insertion_index (a len : Z) : Z :=
  Z.min (Z.max (if a <? 0 then a + len + 1 else a) 0) len.

(** The models a call of [set] creates or adopts, in input order. *)
Definition added_by_set (models : input) (o : options) (w : world) : list cid :=
  s_toAdd (set_loop models (extend_setOptions o) w).2.

(** The models a call of [set] merges into, in input order. *)
Definition merged_by_set (models : input) (o : options) (w : world) : list cid :=
  s_toMerge (set_loop models (extend_setOptions o) w).2.

(** The [add] events of a call of [set]: the [i]-th new model carries
    [at + i] when an [at] was given, and otherwise whatever [index] the
    options object holds at that point. *)
Fixpoint add_events (at_ : option Z) (i : Z) (toAdd : list cid) (held : option Z)
  : list event :=
  match toAdd with
  | [] => []
  | m :: rest =>
      EvAdd m (match at_ with Some a => Some (a + i) | None => held end)
      :: add_events at_ (i + 1) rest held
  end.

(** The [update] event, when one of the three lists is not empty. *)
Definition update_event (added removed merged : list cid) : list event :=
  match added, removed, merged with
  | [], [], [] => []
  | _, _, _ => [EvUpdate added removed merged]
  end.

(** A merge changed, in a member, what [hasChanged(sortAttr)] watches: its
    sort attribute, or any attribute when the comparator is a function. *)
Definition sort_key_touched (w w' : world) : Prop :=
  ∃ m, m ∈ c_models (coll w)
       ∧ hasChanged (sortAttr_of w) (attributes w m) (attributes w' m) = true.

(** The collection is resorted by a call of [set]: it is sortable, and new
    models were added or a merge changed the sort key. *)
Definition resorted (models : input) (o : options) (w : world) : Prop :=
  sortable_of (extend_setOptions o) w = true
  ∧ (added_by_set models o w ≠ []
     ∨ s_sort (set_loop models (extend_setOptions o) w).2 = true).

(** The order of the retained models changed: the models that are members
    before and after the call are not in the same order in [models]. *)
Definition retained_order_changed (w w' : world) : Prop :=
  filter (λ m, m ∈ c_models (coll w')) (c_models (coll w))
  ≠ filter (λ m, m ∈ c_models (coll w)) (c_models (coll w')).

(** The call designates where the new models go: an explicit [at], not
    below [-(length + 1)], and [remove] disabled. *)
Definition index_designated (o : options) (w : world) : Prop :=
  ∃ a, o_at o = Some a ∧ - (c_length (coll w) + 1) ≤ a ∧ o_remove o = Some false.

(** Every member has an id, and the index finds the member under it. *)
Definition members_have_ids (w : world) : Prop :=
  ∀ m, m ∈ c_models (coll w) →
    ∃ i, modelId (attributes w m) = Some i ∧ c_byId (coll w) !! KId i = Some m.

(** ** The index invariant *)

(** [_byId] registers exactly [members]: each under its [cid] and, when
    its id resolves, under that id; and every entry is one of these. *)
Definition registered (w : world) (members : list cid) : Prop :=
  (∀ m, m ∈ members → c_byId (coll w) !! KCid m = Some m)
  ∧ (∀ m i, m ∈ members → modelId (attributes w m) = Some i →
       c_byId (coll w) !! KId i = Some m)
  ∧ (∀ k m, c_byId (coll w) !! k = Some m →
       m ∈ members
       ∧ (k = KCid m ∨ ∃ i, k = KId i ∧ modelId (attributes w m) = Some i)).

(** The invariant, with [pending] the models [set] has registered but not
    yet spliced into [models]. *)
Definition wf_pending (w : world) (pending : list cid) : Prop :=
  c_length (coll w) = Z.of_nat (length (c_models (coll w)))
  ∧ NoDup (c_models (coll w) ++ pending)
  ∧ (∀ m, m ∈ c_models (coll w) ++ pending → (m < next_cid w)%nat)
  ∧ registered w (c_models (coll w) ++ pending).

(** The invariant between calls. *)
Definition wf (w : world) : Prop := wf_pending w [].

(** What holds of the state of the first loop of [set] between two turns;
    [n0] is the value of the client-id counter when the call began. *)
Definition loop_inv (n0 : nat) (st : world * acc) : Prop :=
  wf_pending st.1 (s_toAdd st.2)
  ∧ NoDup (s_set st.2)
  ∧ (∀ x, x ∈ s_modelMap st.2 ↔ x ∈ s_set st.2)
  ∧ (∀ x, x ∈ s_set st.2 → x ∈ c_models (coll st.1) ++ s_toAdd st.2)
  ∧ (∀ x, x ∈ s_toAdd st.2 → x ∈ s_set st.2)
  ∧ (n0 ≤ next_cid st.1)%nat.

(** The property claimed of the collection after every call. *)
Definition index_consistent (w : world) : Prop :=
  c_length (coll w) = Z.of_nat (length (c_models (coll w)))
  ∧ (∀ m, m ∈ c_models (coll w) →
       c_byId (coll w) !! KCid m = Some m
       ∧ ∀ i, modelId (attributes w m) = Some i →
           c_byId (coll w) !! KId i = Some m)
  ∧ (∀ k m, c_byId (coll w) !! k = Some m → m ∈ c_models (coll w)).

(** A Model instance handed to a call exists: its client id has been
    drawn from the counter. *)
Definition item_ok (n : nat) (it : item) : Prop :=
  match it with
  | IModel m => (m < n)%nat
  | IRaw _ => True
  end.

Definition call_ok (c : call) (w : world) : Prop :=
  match c with
  | CallAdd i _ | CallSet i _ | CallReset i _ =>
      Forall (item_ok (next_cid w)) (items_of i)
  | CallRemove _ _ => True
  end.

(** The states a sequence of calls runs through, one per call. *)
Fixpoint states_after (cs : list call) (w : world) : list world :=
  match cs with
  | [] => []
  | c :: rest =>
      let w' := world_of (run_call c w) in
      w' :: states_after rest w'
  end.

(** The outcomes of a sequence of calls. *)
Fixpoint outcomes (cs : list call) (w : world) : list (outcome output) :=
  match cs with
  | [] => []
  | c :: rest => run_call c w :: outcomes rest (world_of (run_call c w))
  end.

(** Every call of the sequence is handed existing models only. *)
Fixpoint well_scoped (cs : list call) (w : world) : Prop :=
  match cs with
  | [] => True
  | c :: rest => call_ok c w ∧ well_scoped rest (world_of (run_call c w))
  end.

(** ** Properties as the specification words them *)

(** The reading of "the new models are spliced in at the resolved index":
    after the call the [i]-th new model sits at that index plus [i]. *)
Definition spliced_at_resolved_index (models : input) (o : options) (w : world)
    (a : Z) : Prop :=
  ∀ i m,
    added_by_set models o w !! i = Some m →
    c_models (coll (world_of (set models o w)))
      !! (Z.to_nat (insertion_index a (c_length (coll w))) + i)%nat = Some m.

(** The reading of "each add event carries the insertion index of its
    model": the index is present and the model sits there after the call. *)
Definition add_events_carry_insertion_index (n : nat) (w' : world) : Prop :=
  ∀ m idx,
    EvAdd m idx ∈ events_since n w' →
    ∃ i : nat, idx = Some (Z.of_nat i) ∧ c_models (coll w') !! i = Some m.

(** The events of a call of [set] that took [w] to [w'], in order: the
    events of the reconciliation, none of which is [add], [sort] or
    [update]; one [add] event per newly added model, carrying the index at
    which the model sits when the call designates it; one [sort] event if
    the collection was resorted or the order of the retained models
    changed; one [update] event with the three lists if one of them is not
    empty.  The added models are the members that were none before, the
    removed ones the members that are none any more. *)
Definition set_trace_in_order (models : input) (o : options) (w w' : world) : Prop :=
  ∃ pre adds sorts removed,
    events_since (length (log w)) w'
    = pre ++ adds ++ sorts
      ++ update_event (added_by_set models o w) removed (merged_by_set models o w)
    ∧ Forall early_event pre
    ∧ Forall2 (λ e m, ∃ idx, e = EvAdd m idx) adds (added_by_set models o w)
    ∧ (∀ m, m ∈ added_by_set models o w
            ↔ m ∈ c_models (coll w') ∧ m ∉ c_models (coll w))
    ∧ (∀ m, m ∈ removed ↔ m ∈ c_models (coll w) ∧ m ∉ c_models (coll w'))
    ∧ (index_designated o w → add_events_carry_insertion_index (length (log w)) w')
    ∧ (sorts = [] ∨ sorts = [EvSort])
    ∧ (resorted models o w → sorts = [EvSort])
    ∧ (sortable_of (extend_setOptions o) w = true → sort_key_touched w w' →
       sorts = [EvSort])
    ∧ (retained_order_changed w w' → sorts = [EvSort]).

(** The reading of "[set] re-absorbs the serialized state": [length] and
    the membership are as before and no [add] or [remove] event is
    dispatched. *)
Definition reabsorbs_quietly (o : options) (w : world) : Prop :=
  let w' := world_of (set (Many (toJSON w)) o w) in
  c_length (coll w') = c_length (coll w)
  ∧ (∀ m, m ∈ c_models (coll w') ↔ m ∈ c_models (coll w))
  ∧ Forall (λ e, ¬ membership_event e) (events_since (length (log w)) w').

(** ** Sample states *)

Definition no_validation : attrs → option Z := λ _, None.

(** A validation that rejects negative ids, reporting the id. *)
Definition rejects_negative_ids : attrs → option Z :=
  λ a, match a_id a with
       | Some i => if i <? 0 then Some i else None
       | None => None
       end.

Definition empty_world (cmp : option comparator) (validate : attrs → option Z)
  : world :=
  World ∅ 0 (new_collection cmp validate) [].

(** The raw hash [{id: i}]. *)
Definition hash (i : Z) : item := IRaw (Attrs (Some i) ∅).

(** The raw hash [{}]. *)
Definition bare : item := IRaw empty_attrs.

(** A collection holding one model, of id 1. *)
Definition one_member : world :=
  world_of (add (One (hash 1)) no_options (empty_world None no_validation)).

Definition at_option (a : Z) : options :=
  Options None None None None None (Some a) None.

(** A sample sequence of calls: [add] of three hashes, [set] with a hash
    that matches, a new one and the first model itself, [remove] by id, and
    [reset] to a model created earlier. *)
Definition sample_calls : list call :=
  [ CallAdd (Many [hash 1; hash 2; bare]) no_options;
    CallSet (Many [hash 2; hash 3; IModel 0%nat]) no_options;
    CallRemove (OneT (TKey (KId 3))) no_options;
    CallReset (One (IModel 1%nat)) no_options ].

(** * Further operations of the collection *)

(** ** [push], [pop], [unshift], [shift], [has] *)

(** [_.extend({at: a}, options)]: the caller's [at] wins when it is there. *)
Definition extend_at (a : Z) (o : options) : options :=
  Options (o_add o) (o_remove o) (o_merge o) (o_silent o) (o_sort o)
          (orelse (o_at o) (Some a)) (o_index o).

(** [push]. *)
Definition push (model : input) (o : options) (w : world) : outcome output :=
  add model (extend_at (c_length (coll w)) o) w.

(** [unshift]. *)
Definition unshift (model : input) (o : options) (w : world) : outcome output :=
  add model (extend_at 0 o) w.

(** [this.remove(model, options)] for a [model] that [at] returned.  For
    [undefined], [get] answers [undefined], the loop of [_removeModels] skips
    the entry, nothing is triggered and [removed[0]] is [undefined]. *)
Definition remove_found (model : option cid) (o : options) (w : world)
  : outcome output :=
  match model with
  | Some m => remove (OneT (TItem (IModel m))) o w
  | None => Ok (ROne SUndefined) w
  end.

(** [pop]. *)
Definition pop (o : options) (w : world) : outcome output :=
  remove_found (at_ (coll w) (c_length (coll w) - 1)) o w.

(** [shift]. *)
Definition shift (o : options) (w : world) : outcome output :=
  remove_found (at_ (coll w) 0) o w.

(** [has]: [this.get(obj) != null]. *)
Definition has (w : world) (obj : target) : bool :=
  bool_decide (is_Some (get w obj)).

(** ** The constructor and [clone] *)

(** [new Collection(models, options)]: the new object is given its
    comparator and its model constructor, [_reset] empties it and, when
    [models] is given, [reset] fills it silently; what [reset] returns is
    dropped.  The new object is the collection of the resulting state: it has
    no listener yet and its trace starts empty; the models are shared with
    the store.  [preinitialize] and [initialize] do nothing by default. *)
Definition Collection_new (models : input) (o : options)
    (cmp : option comparator) (validate : attrs → option Z) (w : world)
  : outcome unit :=
  let w0 := World (heap w) (next_cid w) (_reset (new_collection cmp validate)) [] in
  match models with
  | Nothing => Ok tt w0
  | _ =>
      match reset models (extend_silent o) w0 with
      | Ok _ w1 => Ok tt w1
      | Throw msg w1 => Throw msg w1
      end
  end.

(** [clone]: a new collection over [this.models], with the same model
    constructor and comparator. *)
Definition clone (w : world) : outcome unit :=
  Collection_new (Many (IModel <$> c_models (coll w))) no_options
                 (c_comparator (coll w)) (c_validate (coll w)) w.

(** ** Notions used by the further statements *)

(** What an iterator of kind [k] hands out for the member [m]. *)
Definition emitted (k : kind) (w : world) (m : cid) : iter_result :=
  IterNext
    match k with
    | ITERATOR_VALUES => VModel (Some m)
    | ITERATOR_KEYS => VKey (modelId (attributes w m))
    | ITERATOR_KEYSVALUES => VEntry (modelId (attributes w m)) m
    end.

(** The order a comparator that is an attribute name or a one-argument
    function puts on the models. *)
Definition key_comparator (cmp : comparator) : Prop :=
  match cmp with
  | CmpAttr _ | CmpKey _ => True
  | CmpFun _ => False
  end.

Definition sorted_by (w : world) (cmp : comparator) (l : list cid) : Prop :=
  StronglySorted (λ x y, Is_true (sort_leb w cmp x y)) l.

(** No two members share a resolved id. *)
Definition unique_ids (w : world) : Prop :=
  ∀ m m' i, m ∈ c_models (coll w) → m' ∈ c_models (coll w) →
    modelId (attributes w m) = Some i → modelId (attributes w m') = Some i →
    m = m'.

Definition invalid_event (e : event) : Prop :=
  match e with
  | EvInvalid _ => True
  | _ => False
  end.

(** ** Further sample states *)

(** The comparator [model => model.id], a missing id counting as 0. *)
Definition by_id : comparator := CmpKey (λ a, default 0 (a_id a)).

Definition unsorted_option : options :=
  Options None None None None (Some false) None None.

(** A collection ordered by id that was filled with [sort: false]: it holds
    the models of ids 2 and 1, in that order. *)
Definition unsorted_pair : world :=
  world_of (add (Many [hash 2; hash 1]) unsorted_option
                (empty_world (Some by_id) no_validation)).

(** ** A member changes *)

(** The state once the attributes of the model [m] have become [new] and
    its [change] event has reached [_onModelEvent]; what
    [previousAttributes()] answers are the attributes [m] had in [w]. *)
Definition model_changed (m : cid) (new : attrs) (w : world) : world :=
  _onModelEvent_change m (attributes w m) (with_heap w (<[m := new]> (heap w))).

(** The id of [new] is the one [m] has already, or no entry of the index
    is under it. *)
Definition id_available (m : cid) (new : attrs) (w : world) : Prop :=
  ∀ i, modelId new = Some i →
       modelId (attributes w m) = Some i ∨ c_byId (coll w) !! KId i = None.

(** The events that tell of a model taken in, or of an item that failed to
    become one. *)
Definition construction_event (e : event) : Prop :=
  match e with
  | EvAdd _ _ | EvInvalid _ => True
  | _ => False
  end.

(** * Handlers that act during a dispatch

    Event dispatch is synchronous and re-entrant: a handler bound to the
    collection runs inside [trigger] and may itself call the collection.
    The definitions above are the collection whose handlers only observe.
    The definitions below repeat [set] and what it calls with a handler
    [react] that is run at each dispatch: it is given the event and the
    state at that moment, and what it returns is the state the caller goes
    on with. *)

Section handlers.
  Variable react : event → world → world.

(** [trigger] with the handler run. *)
Definition trigger_l (e : event) (w : world) : world :=
  react e (trigger e w).

(** [_onModelEvent] for a [change] event. *)
Definition _onModelEvent_change_l (m : cid) (previous : attrs) (w : world) : world :=
  let prevId := modelId previous in
  let id := modelId (attributes w m) in
  let c := coll w in
  let b :=
    if decide (prevId = id) then c_byId c
    else
      let b1 := match prevId with
                | Some p => delete (KId p) (c_byId c)
                | None => c_byId c
                end in
      match id with
      | Some i => <[KId i := m]> b1
      | None => b1
      end in
  trigger_l (EvChange m) (with_coll w (set_byId c b)).

(** [existing.set(attrs, options)]. *)
Definition existing_set_l (m : cid) (new : attrs) (o : options) (w : world) : world :=
  let old := attributes w m in
  let merged := model_set old new in
  let w1 := with_heap w (<[m := merged]> (heap w)) in
  if bool_decide (merged = old) || truthy (o_silent o) then w1
  else if decide (m ∈ c_listening (coll w)) then _onModelEvent_change_l m old w1
  else w1.

(** [_prepareModel]. *)
Definition _prepareModel_l (it : item) (w : world) : world * option cid :=
  match it with
  | IModel m => (w, Some m)
  | IRaw a =>
      let m := next_cid w in
      match failure (c_validate (coll w) a) with
      | None => (World (<[m := a]> (heap w)) (S m) (coll w) (log w), Some m)
      | Some err =>
          (trigger_l (EvInvalid err) (World (heap w) (S m) (coll w) (log w)), None)
      end
  end.

(** [sort]. *)
Definition sort_l (silent : bool) (w : world) : outcome unit :=
  match truthy_comparator (c_comparator (coll w)) with
  | None => Throw "Cannot sort a set without a comparator" w
  | Some cmp =>
      let c := coll w in
      let w1 := with_coll w (set_models c (sort_models w cmp (c_models c)) (c_length c)) in
      Ok tt (if silent then w1 else trigger_l EvSort w1)
  end.

(** One turn of the loop of [_removeModels]: the handler of [remove] runs
    after the purge and before [_removeReference]. *)
Definition remove_one_l (st : world * options * list cid) (t : target)
  : world * options * list cid :=
  let '(w, o, removed) := st in
  match get w t with
  | None => st
  | Some m =>
      let c := coll w in
      let index := indexOf (c_models c) m in
      let c1 := set_models c (splice_out (c_models c) index) (c_length c - 1) in
      let c2 := set_byId c1 (delete_keys w m (c_byId c1)) in
      let w2 := with_coll w c2 in
      let '(w3, o3) :=
        if truthy (o_silent o) then (w2, o)
        else
          let o' := set_index o (Some index) in
          (trigger_l (EvRemove m (o_index o')) w2, o') in
      (_removeReference m w3, o3, removed ++ [m])
  end.

Definition _removeModels_l (ts : list target) (o : options) (w : world)
  : world * options * list cid :=
  foldl remove_one_l (w, o, []) ts.

(** One turn of the first loop of [set]. *)
Definition set_step_l (o : options) (sortable : bool) (sortAttr : option string)
    (st : world * acc) (it : item) : world * acc :=
  let '(w, a) := st in
  match get w (TItem it) with
  | Some existing =>
      let '(w1, toMerge1, sort1) :=
        if truthy (o_merge o) && differs it existing then
          let old := attributes w existing in
          let w1 := existing_set_l existing (item_attrs w it) o w in
          (w1, s_toMerge a ++ [existing],
           if sortable && negb (s_sort a)
           then hasChanged sortAttr old (attributes w1 existing)
           else s_sort a)
        else (w, s_toMerge a, s_sort a) in
      let '(set1, map1) :=
        if decide (existing ∈ s_modelMap a) then (s_set a, s_modelMap a)
        else (s_set a ++ [existing], {[existing]} ∪ s_modelMap a) in
      (w1, Acc set1 (s_toAdd a) toMerge1 map1 sort1 (s_out a ++ [SModel existing]))
  | None =>
      if truthy (o_add o) then
        match _prepareModel_l it w with
        | (w1, Some m) =>
            (_addReference m w1,
             Acc (s_set a ++ [m]) (s_toAdd a ++ [m]) (s_toMerge a)
                 ({[m]} ∪ s_modelMap a) (s_sort a) (s_out a ++ [SModel m]))
        | (w1, None) =>
            (w1, Acc (s_set a) (s_toAdd a) (s_toMerge a) (s_modelMap a)
                     (s_sort a) (s_out a ++ [SFalse]))
        end
      else
        (w, Acc (s_set a) (s_toAdd a) (s_toMerge a) (s_modelMap a)
                (s_sort a) (s_out a ++ [item_slot it]))
  end.

Definition set_loop_l (models : input) (o : options) (w : world) : world * acc :=
  foldl (set_step_l o (sortable_of o w) (sortAttr_of w)) (w, empty_acc)
        (items_of models).

(** The removal of the stale members. *)
Definition set_remove_l (o : options) (a : acc) (w1 : world)
  : option (world * options * list cid) :=
  if truthy (o_remove o) then
    match stale_models (coll w1) (s_modelMap a) with
    | None => None
    | Some [] => Some (w1, o, [])
    | Some toRemove =>
        let '(w2, o2, _) := _removeModels_l (TItem ∘ IModel <$> toRemove) o w1 in
        Some (w2, o2, toRemove)
    end
  else Some (w1, o, []).

(** The [add] events of the last part of [set]. *)
Fixpoint trigger_adds_l (at_ : option Z) (i : Z) (toAdd : list cid)
    (o : options) (w : world) : world * options :=
  match toAdd with
  | [] => (w, o)
  | m :: rest =>
      let o1 := match at_ with
                | Some a => set_index o (Some (a + i))
                | None => o
                end in
      trigger_adds_l at_ (i + 1) rest o1 (trigger_l (EvAdd m (o_index o1)) w)
  end.

Definition set_events_l (at_ : option Z) (a : acc) (toRemove : list cid)
    (sort_ orderChanged : bool) (o : options) (w : world) : world :=
  let '(w1, o1) := trigger_adds_l at_ 0 (s_toAdd a) o w in
  let w2 := if sort_ || orderChanged then trigger_l EvSort w1 else w1 in
  match s_toAdd a, toRemove, s_toMerge a with
  | [], [], [] => w2
  | _, _, _ => trigger_l (EvUpdate (s_toAdd a) toRemove (s_toMerge a)) w2
  end.

(** The body of [set]. *)
Definition set_body_l (models : input) (o : options) (w : world) : outcome output :=
  let at_ := resolve_at (o_at o) (c_length (coll w)) in
  let sortable := sortable_of o w in
  let '(w1, a) := set_loop_l models o w in
  match set_remove_l o a w1 with
  | None => Throw "TypeError" w1
  | Some (w2, o2, toRemove) =>
  let '(w3, sort3, orderChanged) := set_update at_ sortable o a w2 in
  match (if sort3 then sort_l true w3 else Ok tt w3) with
  | Throw msg w4 => Throw msg w4
  | Ok _ w4 =>
      let w5 := if truthy (o_silent o2) then w4
                else set_events_l at_ a toRemove sort3 orderChanged o2 w4 in
      Ok (shape models (s_out a)) w5
  end
  end.

Definition set_with_l (models : input) (o : options) (w : world) : outcome output :=
  match models with
  | Nothing => Ok RUndefined w
  | _ => set_body_l models o w
  end.

(** [set]. *)
Definition set_l (models : input) (o : options) (w : world) : outcome output :=
  set_with_l models (extend_setOptions o) w.

(** [add]. *)
Definition add_l (models : input) (o : options) (w : world) : outcome output :=
  set_l models (extend_addOptions o) w.

(** [remove]. *)
Definition remove_l (models : targets) (o : options) (w : world) : outcome output :=
  let '(w1, o1, removed) := _removeModels_l (targets_of models) o w in
  let w2 := if negb (truthy (o_silent o1)) && negb (bool_decide (removed = []))
            then trigger_l (EvUpdate [] removed []) w1
            else w1 in
  Ok (match models with
      | OneT _ => ROne (default SUndefined (SModel <$> head removed))
      | ManyT _ => RMany (SModel <$> removed)
      end) w2.

(** [reset]. *)
Definition reset_l (models : input) (o : options) (w : world) : outcome output :=
  let w1 := foldl (λ w' m, _removeReference m w') w (c_models (coll w)) in
  let w2 := with_coll w1 (_reset (coll w1)) in
  match add_l models (extend_silent o) w2 with
  | Throw msg w3 => Throw msg w3
  | Ok r w3 => Ok r (if truthy (o_silent o) then w3 else trigger_l EvReset w3)
  end.

(** The public calls, and sequences of them. *)
Definition run_call_l (c : call) (w : world) : outcome output :=
  match c with
  | CallAdd i o => add_l i o w
  | CallRemove t o => remove_l t o w
  | CallSet i o => set_l i o w
  | CallReset i o => reset_l i o w
  end.

Fixpoint states_after_l (cs : list call) (w : world) : list world :=
  match cs with
  | [] => []
  | c :: rest =>
      let w' := world_of (run_call_l c w) in
      w' :: states_after_l rest w'
  end.

Fixpoint outcomes_l (cs : list call) (w : world) : list (outcome output) :=
  match cs with
  | [] => []
  | c :: rest => run_call_l c w :: outcomes_l rest (world_of (run_call_l c w))
  end.

Fixpoint well_scoped_l (cs : list call) (w : world) : Prop :=
  match cs with
  | [] => True
  | c :: rest => call_ok c w ∧ well_scoped_l rest (world_of (run_call_l c w))
  end.

End handlers.

(** A handler that only observes: it hands the state back as it got it. *)
Definition observing (react : event → world → world) : Prop :=
  ∀ e w, react e w = w.

(** The handler that does nothing. *)
Definition idle : event → world → world := λ _ w, w.

(** A handler of [change] that calls [collection.remove(model)]. *)
Definition remover : event → world → world :=
  λ e w,
    match e with
    | EvChange m => world_of (remove (OneT (TItem (IModel m))) no_options w)
    | _ => w
    end.

(** The raw hash [{id: i, name: v}]. *)
Definition hash_with (i : Z) (name : string) (v : Z) : item :=
  IRaw (Attrs (Some i) {[ name := v ]}).

(** ** Property names that every object inherits

    [_byId] is created as [{}]: [this._byId[name]] finds the value that
    [Object.prototype] defines for [name], in every collection and though
    nothing was stored under it.  What is found is a function: it is in no
    [models], and it has no [cid] and no [attributes]. *)
Definition inherited (name : string) : bool :=
  bool_decide (name ∈ ["constructor"; "toString"; "toLocaleString"; "valueOf";
                       "hasOwnProperty"; "isPrototypeOf";
                       "propertyIsEnumerable"]%string).

(** [remove(name)] for a string that is neither a client id nor the key of
    an id.  For an inherited name [get] answers the inherited function:
    [indexOf] answers [-1], [splice(-1, 1)] drops the last model, [length]
    is decremented, [delete this._byId[undefined]] deletes nothing, and
    [this.modelId(model.attributes)] throws on the missing attributes.  For
    any other name [get] answers [undefined] and the entry is skipped. *)
Definition remove_name (name : string) (o : options) (w : world) : outcome output :=
  if inherited name then
    let c := coll w in
    Throw "TypeError"
          (with_coll w (set_models c (splice_out (c_models c) (-1)) (c_length c - 1)))
  else Ok (ROne SUndefined) w.
(** * Properties *)

(** ** Generic facts *)

Lemma foldl_invariant {A B} (P : A → Prop) (f : A → B → A) (l : list B) (a : A) :
  P a → (∀ a' b, P a' → b ∈ l → P (f a' b)) → P (foldl f a l).
Proof.
  revert a. induction l as [|b l IH]; intros a Ha Hstep; simpl; [done|].
  apply IH.
  - apply Hstep; [done | by left].
  - intros a' b' Ha' Hb'. apply Hstep; [done | by right].
Qed.

Lemma foldl_snoc {A B} (f : A → B → A) (l : list B) (b : B) (a : A) :
  foldl f a (l ++ [b]) = f (foldl f a l) b.
Proof. by rewrite foldl_app. Qed.

Lemma orelse_Some {A} (x y : option A) (v : A) :
  orelse x y = Some v ↔ x = Some v ∨ (x = None ∧ y = Some v).
Proof. destruct x; simpl; split; intros; intuition congruence. Qed.

Lemma orelse_None {A} (x y : option A) :
  orelse x y = None ↔ x = None ∧ y = None.
Proof. destruct x; simpl; split; intros; intuition congruence. Qed.

(** ** [sort] *)

Lemma sort_models_perm w cmp l : sort_models w cmp l ≡ₚ l.
Proof. apply merge_sort_Permutation. Qed.

Lemma truthy_comparator_Some c cmp :
  truthy_comparator c = Some cmp → c = Some cmp.
Proof.
  destruct c as [[name|f|f]|]; cbn; try done.
  by destruct (decide (name = EmptyString)).
Qed.

Lemma sort_Ok_inv silent w w' :
  sort silent w = Ok tt w' →
  ∃ cmp, c_comparator (coll w) = Some cmp
    ∧ heap w' = heap w ∧ next_cid w' = next_cid w
    ∧ c_models (coll w') = sort_models w cmp (c_models (coll w))
    ∧ c_length (coll w') = c_length (coll w)
    ∧ c_byId (coll w') = c_byId (coll w)
    ∧ c_comparator (coll w') = c_comparator (coll w)
    ∧ c_validate (coll w') = c_validate (coll w)
    ∧ c_listening (coll w') = c_listening (coll w)
    ∧ log w' = if silent then log w
               else log w ++ [Dispatch EvSort (coll w')].
Proof.
  unfold sort.
  destruct (truthy_comparator (c_comparator (coll w))) as [cmp|] eqn:Hc; [|done].
  apply truthy_comparator_Some in Hc.
  intros [= <-]. exists cmp. destruct silent; simpl; by rewrite ?Hc.
Qed.

Lemma sort_with_comparator silent w cmp :
  truthy_comparator (c_comparator (coll w)) = Some cmp →
  ∃ w', sort silent w = Ok tt w'.
Proof. intros H. unfold sort. rewrite H. eauto. Qed.

(** C9: with no comparator configured, [sort] throws to its caller, and
    the state it leaves is the state it found: [models] is not modified and
    no event is triggered. *)
Theorem sort_without_comparator_throws (silent : bool) (w : world) :
  c_comparator (coll w) = None →
  sort silent w = Throw "Cannot sort a set without a comparator" w.
Proof. intros H. unfold sort. by rewrite H. Qed.

Lemma sort_without_comparator_throws_witness :
  let w := World ∅ 0 (new_collection None (λ _, None)) [] in
  c_comparator (coll w) = None
  ∧ sort false w = Throw "Cannot sort a set without a comparator" w.
Proof.
  split; [reflexivity|].
  apply sort_without_comparator_throws. reflexivity.
Defined.

(** ** CollectionIterator *)

Lemma nexts_exhausted k i ws :
  Forall (λ r, r = IterDone) (nexts (Iterator false k i) ws).
Proof. induction ws as [|w ws IH]; simpl; constructor; auto. Qed.

(** C7: once [next] finds the position at or past the current length it
    returns a done result, and so does every later call, whatever the
    collection has become by then. *)
Theorem iterator_exhaustion_is_permanent
    (it : CollectionIterator) (w : world) (later : list world) :
  c_length (coll w) ≤ _index it →
  (next it w).1 = IterDone
  ∧ Forall (λ r, r = IterDone) (nexts (next it w).2 later).
Proof.
  intros Hpos. unfold next.
  destruct it as [[] k i]; simpl in *.
  - destruct (Z.ltb_spec i (c_length (coll w))); [lia|]. simpl.
    split; [done | apply nexts_exhausted].
  - split; [done | apply nexts_exhausted].
Qed.

Lemma iterator_exhaustion_is_permanent_witness :
  let w := World ∅ 0 (new_collection None (λ _, None)) [] in
  let grown := World ∅ 5 (Collection 2 [3%nat; 4%nat] ∅ None (λ _, None) ∅) [] in
  c_length (coll w) ≤ _index values
  ∧ (next values w).1 = IterDone
  ∧ Forall (λ r, r = IterDone) (nexts (next values w).2 [grown; grown]).
Proof.
  intros w grown.
  assert (Hpos : c_length (coll w) ≤ _index values) by (vm_compute; discriminate).
  split; [exact Hpos|].
  exact (iterator_exhaustion_is_permanent values w [grown; grown] Hpos).
Defined.

(** ** What the first loop of [set] leaves alone *)

Lemma frame_refl c : frame c c.
Proof. by repeat split. Qed.

Lemma frame_trans c1 c2 c3 : frame c1 c2 → frame c2 c3 → frame c1 c3.
Proof. unfold frame. intros (?&?&?&?) (?&?&?&?). repeat split; congruence. Qed.

Lemma existing_set_frame m new o w :
  frame (coll w) (coll (existing_set m new o w)).
Proof.
  unfold existing_set.
  destruct (bool_decide _ || truthy _); [apply frame_refl|].
  destruct (decide _); [|apply frame_refl].
  unfold _onModelEvent_change. by repeat split.
Qed.

Lemma _prepareModel_frame it w :
  frame (coll w) (coll (_prepareModel it w).1).
Proof.
  destruct it as [m|a]; simpl; [apply frame_refl|].
  destruct (failure (c_validate (coll w) a)); apply frame_refl.
Qed.

Lemma _addReference_frame m w : frame (coll w) (coll (_addReference m w)).
Proof. by repeat split. Qed.

(** The case analysis of one turn of the loop. *)
Ltac step_cases w a it o :=
  unfold set_step;
  let existing := fresh "existing" in
  let Hget := fresh "Hget" in
  let Hmerge := fresh "Hmerge" in
  let Hin := fresh "Hin" in
  let Hadd := fresh "Hadd" in
  let Hprep := fresh "Hprep" in
  let w1 := fresh "w1" in
  let m := fresh "m" in
  destruct (get w (TItem it)) as [existing|] eqn:Hget;
  [ destruct (truthy (o_merge o) && differs it existing) eqn:Hmerge;
    destruct (decide (existing ∈ s_modelMap a)) as [Hin|Hin]
  | destruct (truthy (o_add o)) eqn:Hadd;
    [ destruct (_prepareModel it w) as [w1 [m|]] eqn:Hprep | ] ];
  cbn [fst snd s_set s_toAdd s_toMerge s_modelMap s_sort s_out].

Section loop_frame.
  Context (o : options) (sortable : bool) (sortAttr : option string).

Lemma set_step_frame st it :
  frame (coll st.1) (coll (set_step o sortable sortAttr st it).1).
Proof.
  destruct st as [w a]. cbn [fst].
  step_cases w a it o; auto using existing_set_frame, frame_refl.
  - pose proof (_prepareModel_frame it w) as Hp. rewrite Hprep in Hp.
    eapply frame_trans; [exact Hp | apply _addReference_frame].
  - pose proof (_prepareModel_frame it w) as Hp. by rewrite Hprep in Hp.
Qed.

Lemma set_loop_frame st l :
  frame (coll st.1) (coll (foldl (set_step o sortable sortAttr) st l).1).
Proof.
  apply (foldl_invariant (λ s, frame (coll st.1) (coll s.1))).
  - apply frame_refl.
  - intros s it Hs _. eapply frame_trans; [exact Hs | apply set_step_frame].
Qed.

(** The [sort] flag is only ever raised for a sortable collection. *)
Lemma set_step_sort_flag st it :
  (s_sort st.2 = true → sortable = true) →
  s_sort (set_step o sortable sortAttr st it).2 = true → sortable = true.
Proof.
  destruct st as [w a]. cbn [snd]. intros Ha.
  step_cases w a it o; auto.
  all: destruct sortable; simpl; auto.
Qed.

Lemma set_loop_sort_flag l w :
  s_sort (foldl (set_step o sortable sortAttr) (w, empty_acc) l).2 = true →
  sortable = true.
Proof.
  apply (foldl_invariant (λ s, s_sort s.2 = true → sortable = true)).
  - simpl. discriminate.
  - intros s it Hs _. by apply set_step_sort_flag.
Qed.

End loop_frame.

Lemma splice_perm array insert i : splice array insert i ≡ₚ array ++ insert.
Proof.
  unfold splice. cbv zeta.
  set (k := Z.to_nat _).
  rewrite <- (take_drop k array) at 3.
  rewrite <- (assoc_L (++)).
  apply Permutation_app_head, Permutation_app_comm.
Qed.

Lemma elem_of_splice m array insert i :
  m ∈ splice array insert i ↔ m ∈ array ∨ m ∈ insert.
Proof. by rewrite splice_perm, elem_of_app. Qed.

Lemma splice_nil insert i : splice [] insert i = insert.
Proof. unfold splice. by rewrite take_nil, drop_nil, app_nil_r. Qed.

Lemma set_loop_keeps_members models o w :
  frame (coll w) (coll (set_loop models o w).1).
Proof. unfold set_loop. apply (set_loop_frame _ _ _ (w, empty_acc)). Qed.

Lemma set_loop_sort_sortable models o w :
  s_sort (set_loop models o w).2 = true → sortable_of o w = true.
Proof. unfold set_loop. apply set_loop_sort_flag. Qed.

Lemma sortable_has_comparator o w :
  sortable_of o w = true → is_Some (truthy_comparator (c_comparator (coll w))).
Proof.
  unfold sortable_of. rewrite !andb_true_iff, bool_decide_eq_true. tauto.
Qed.

(** ** [set_events] only writes the trace *)

Lemma trigger_adds_state at_ i toAdd o w :
  heap (trigger_adds at_ i toAdd o w).1 = heap w
  ∧ next_cid (trigger_adds at_ i toAdd o w).1 = next_cid w
  ∧ coll (trigger_adds at_ i toAdd o w).1 = coll w.
Proof.
  revert i o w. induction toAdd as [|m rest IH]; intros i o w; simpl; [done|].
  destruct (IH (i + 1)
              (match at_ with Some a => set_index o (Some (a + i)) | None => o end)
              (trigger (EvAdd m (o_index
                 (match at_ with Some a => set_index o (Some (a + i)) | None => o end))) w))
    as (-> & -> & ->).
  done.
Qed.

Lemma set_events_state at_ a toRemove s oc o w :
  heap (set_events at_ a toRemove s oc o w) = heap w
  ∧ next_cid (set_events at_ a toRemove s oc o w) = next_cid w
  ∧ coll (set_events at_ a toRemove s oc o w) = coll w.
Proof.
  unfold set_events.
  pose proof (trigger_adds_state at_ 0 (s_toAdd a) o w) as H.
  destruct (trigger_adds at_ 0 (s_toAdd a) o w) as [w1 o1]. simpl in H.
  destruct H as (H1 & H2 & H3).
  destruct (s || oc); destruct (s_toAdd a), toRemove, (s_toMerge a); simpl; done.
Qed.

Lemma splice_nothing array i : splice array [] i = array.
Proof. unfold splice. cbv zeta. simpl. apply take_drop. Qed.

(** ** [set] with [remove] disabled *)

Lemma set_body_without_remove models o w :
  truthy (o_remove o) = false →
  ∃ w',
    set_body models o w = Ok (shape models (s_out (set_loop models o w).2)) w'
    ∧ c_models (coll w')
        ≡ₚ splice (c_models (coll w)) (s_toAdd (set_loop models o w).2)
                  (default (c_length (coll w))
                           (resolve_at (o_at o) (c_length (coll w))))
    ∧ (sortable_of o w = false →
       c_models (coll w')
       = splice (c_models (coll w)) (s_toAdd (set_loop models o w).2)
                (default (c_length (coll w))
                         (resolve_at (o_at o) (c_length (coll w))))).
Proof.
  intros Hrem. unfold set_body.
  pose proof (set_loop_keeps_members models o w) as (Hm & Hl & Hc & _).
  pose proof (set_loop_sort_sortable models o w) as Hflag.
  destruct (set_loop models o w) as [w1 a]. cbn [fst snd] in *.
  unfold set_remove. rewrite Hrem.
  unfold set_update. rewrite Hrem, andb_false_r, andb_false_r.
  set (k := default (c_length (coll w1)) _).
  assert (Hk : k = default (c_length (coll w)) (resolve_at (o_at o) (c_length (coll w))))
    by (subst k; by rewrite Hl).
  rewrite <- Hk. clear Hk.
  destruct (bool_decide (s_toAdd a = [])) eqn:Hadd; cbn [negb].
  - apply bool_decide_eq_true in Hadd. rewrite Hadd, splice_nothing.
    destruct (s_sort a) eqn:Hs.
    + destruct (sortable_has_comparator o w (Hflag eq_refl)) as [cmp Hcmp].
      destruct (sort_with_comparator true w1 cmp) as [w4 Hw4]; [congruence|].
      rewrite Hw4.
      apply sort_Ok_inv in Hw4 as (cmp' & _ & _ & _ & Hms & _).
      assert (Hfinal : ∀ w5, coll w5 = coll w4 →
                c_models (coll w5) ≡ₚ c_models (coll w)
                ∧ (sortable_of o w = false → c_models (coll w5) = c_models (coll w))).
      { intros w5 ->. split.
        - by rewrite Hms, sort_models_perm, Hm.
        - intros Hns. rewrite (Hflag eq_refl) in Hns. discriminate. }
      destruct (truthy (o_silent o)); eexists; (split; [reflexivity|]);
        apply Hfinal; [done | apply set_events_state].
    + assert (Hfinal : ∀ w5, coll w5 = coll w1 →
                c_models (coll w5) ≡ₚ c_models (coll w)
                ∧ (sortable_of o w = false → c_models (coll w5) = c_models (coll w))).
      { intros w5 ->. by rewrite Hm. }
      destruct (truthy (o_silent o)); eexists; (split; [reflexivity|]);
        apply Hfinal; [done | apply set_events_state].
  - set (ms := splice (c_models (coll w1)) (s_toAdd a) k).
    destruct (sortable_of o w || s_sort a) eqn:Hs.
    + assert (Hsortable : sortable_of o w = true).
      { apply orb_true_iff in Hs as [?|?]; auto. }
      destruct (sortable_has_comparator o w Hsortable) as [cmp Hcmp].
      destruct (sort_with_comparator true
                  (with_coll w1 (set_models (coll w1) ms (Z.of_nat (length ms)))) cmp)
        as [w4 Hw4]; [simpl; congruence|].
      rewrite Hw4.
      apply sort_Ok_inv in Hw4 as (cmp' & _ & _ & _ & Hms & _).
      simpl in Hms.
      assert (Hfinal : ∀ w5, coll w5 = coll w4 →
                c_models (coll w5) ≡ₚ splice (c_models (coll w)) (s_toAdd a) k
                ∧ (sortable_of o w = false →
                   c_models (coll w5) = splice (c_models (coll w)) (s_toAdd a) k)).
      { intros w5 ->. split.
        - rewrite Hms, sort_models_perm. subst ms. by rewrite Hm.
        - intros Hns. rewrite Hsortable in Hns. discriminate. }
      destruct (truthy (o_silent o)); eexists; (split; [reflexivity|]);
        apply Hfinal; [done | apply set_events_state].
    + assert (Hfinal : ∀ w5,
                coll w5 = set_models (coll w1) ms (Z.of_nat (length ms)) →
                c_models (coll w5) ≡ₚ splice (c_models (coll w)) (s_toAdd a) k
                ∧ (sortable_of o w = false →
                   c_models (coll w5) = splice (c_models (coll w)) (s_toAdd a) k)).
      { intros w5 ->. simpl. subst ms. by rewrite Hm. }
      destruct (truthy (o_silent o)); eexists; (split; [reflexivity|]);
        apply Hfinal; [done | apply set_events_state].
Qed.

Lemma truthy_remove_addOptions o :
  truthy (o_remove (extend_setOptions (extend_addOptions o))) = false.
Proof. reflexivity. Qed.

(** C10: [add] hands [set] the options with [add] forced to true and
    [remove] forced to false, whatever the caller supplied; the call returns,
    and every model present before it is present after it. *)
Theorem add_never_removes (models : input) (o : options) (w : world) :
  add models o w = set_with models (extend_setOptions (extend_addOptions o)) w
  ∧ o_add (extend_setOptions (extend_addOptions o)) = Some true
  ∧ o_remove (extend_setOptions (extend_addOptions o)) = Some false
  ∧ ∃ r w', add models o w = Ok r w'
            ∧ c_models (coll w) ⊆ c_models (coll w').
Proof.
  split; [reflexivity|]. split; [reflexivity|]. split; [reflexivity|].
  unfold add, set, set_with.
  assert (Hbody : ∃ r w',
            set_body models (extend_setOptions (extend_addOptions o)) w = Ok r w'
            ∧ c_models (coll w) ⊆ c_models (coll w')).
  { destruct (set_body_without_remove models _ w (truthy_remove_addOptions o))
      as (w' & Hrun & Hperm & _).
    eexists _, w'. split; [exact Hrun|].
    intros m Hm. rewrite Hperm. apply elem_of_splice. by left. }
  destruct models; [by eexists _, w | exact Hbody | exact Hbody].
Qed.

(** ** [set] with an explicit [at] *)

Lemma resolve_at_insertion a len :
  0 ≤ len →
  Z.min (Z.max (default len (resolve_at (Some a) len)) 0) len
  = insertion_index a len.
Proof.
  intros Hlen. unfold resolve_at, insertion_index. simpl.
  destruct (Z.gtb_spec a len), (Z.ltb_spec a 0); try lia;
    repeat match goal with |- context [?x <? ?y] => destruct (Z.ltb_spec x y) end;
    lia.
Qed.

(** C5, as amended: on a collection whose [length] is the length of
    [models], a call of [set] with an explicit [at] and [remove] disabled
    returns, the insertion index is [at] (or [at + length + 1] when [at] is
    negative) clamped to [0, length], and the new models are spliced into
    [models] at that index: the [i]-th of them sits at that index plus [i]. *)
Theorem set_at_splices_when_remove_disabled
    (models : input) (o : options) (w : world) (a : Z) :
  o_at o = Some a →
  o_remove o = Some false →
  c_length (coll w) = Z.of_nat (length (c_models (coll w))) →
  let k := insertion_index a (c_length (coll w)) in
  0 ≤ k ≤ c_length (coll w)
  ∧ ∃ r w',
      set models o w = Ok r w'
      ∧ c_models (coll w')
        = take (Z.to_nat k) (c_models (coll w))
          ++ added_by_set models o w
          ++ drop (Z.to_nat k) (c_models (coll w))
      ∧ spliced_at_resolved_index models o w a.
Proof.
  intros Hat Hrem Hlen k.
  assert (Hk : 0 ≤ k ≤ c_length (coll w)).
  { subst k. unfold insertion_index. lia. }
  split; [exact Hk|].
  assert (Hmain : ∃ r w',
      set models o w = Ok r w'
      ∧ c_models (coll w')
        = take (Z.to_nat k) (c_models (coll w))
          ++ added_by_set models o w
          ++ drop (Z.to_nat k) (c_models (coll w))); last first.
  { destruct Hmain as (r & w' & Hrun & Hms). exists r, w'.
    split; [done|]. split; [done|].
    intros i m Hi. rewrite Hrun. cbn [world_of]. rewrite Hms. fold k.
    assert (Hlt : length (take (Z.to_nat k) (c_models (coll w))) = Z.to_nat k)
      by (rewrite length_take; lia).
    rewrite lookup_app_r by lia. rewrite Hlt.
    replace (Z.to_nat k + i - Z.to_nat k)%nat with i by lia.
    rewrite lookup_app_l; [done|]. by eapply lookup_lt_Some. }
  unfold set, set_with, added_by_set.
  set (o' := extend_setOptions o).
  assert (Hrem' : truthy (o_remove o') = false) by (subst o'; simpl; by rewrite Hrem).
  assert (Hns : sortable_of o' w = false).
  { unfold sortable_of. subst o'. simpl. rewrite Hat. simpl.
    by rewrite andb_false_r. }
  assert (Hbody : ∃ r w',
            set_body models o' w = Ok r w'
            ∧ c_models (coll w')
              = take (Z.to_nat k) (c_models (coll w))
                ++ s_toAdd (set_loop models o' w).2
                ++ drop (Z.to_nat k) (c_models (coll w))).
  { destruct (set_body_without_remove models o' w Hrem') as (w' & Hrun & _ & Heq).
    eexists _, w'. split; [exact Hrun|].
    rewrite (Heq Hns). unfold splice. cbv zeta.
    replace (o_at o') with (Some a) by (subst o'; simpl; by rewrite Hat).
    rewrite <- Hlen, resolve_at_insertion by lia. done. }
  destruct models; [|exact Hbody|exact Hbody].
  eexists _, w. split; [reflexivity|].
  simpl. by rewrite take_drop.
Qed.

Lemma set_at_splices_when_remove_disabled_witness :
  let o := Options None (Some false) None None None (Some (-1)) None in
  c_models (coll (world_of (set (Many [hash 2; hash 3]) o one_member)))
  = [0%nat; 1%nat; 2%nat].
Proof.
  intros o.
  destruct (set_at_splices_when_remove_disabled
              (Many [hash 2; hash 3]) o one_member (-1)
              eq_refl eq_refl eq_refl) as (_ & r & w' & Hrun & Hmodels & _).
  rewrite Hrun. simpl. rewrite Hmodels. reflexivity.
Defined.

(** C5, as stated, fails: with [add] and [remove] both enabled the
    reconciled set replaces [models], and the new model does not land at the
    index [at] designates. *)
Lemma set_at_replace_ignores_at :
  ¬ spliced_at_resolved_index (Many [hash 1; hash 2]) (at_option 0) one_member 0.
Proof.
  intros H. specialize (H 0%nat 1%nat eq_refl).
  vm_compute in H. discriminate.
Qed.

(** ** [_removeModels] *)

Lemma attributes_heap w1 w2 m : heap w1 = heap w2 → attributes w1 m = attributes w2 m.
Proof. unfold attributes. by intros ->. Qed.

Lemma delete_keys_cid w m b : delete_keys w m b !! KCid m = None.
Proof.
  unfold delete_keys. destruct (modelId (attributes w m)).
  - rewrite lookup_delete_ne by done. apply lookup_delete_eq.
  - apply lookup_delete_eq.
Qed.

Lemma delete_keys_id w m b i :
  modelId (attributes w m) = Some i → delete_keys w m b !! KId i = None.
Proof. unfold delete_keys. intros ->. apply lookup_delete_eq. Qed.

Lemma delete_keys_other w m b k :
  k ≠ KCid m → (∀ i, modelId (attributes w m) = Some i → k ≠ KId i) →
  delete_keys w m b !! k = b !! k.
Proof.
  unfold delete_keys. intros Hc Hi.
  destruct (modelId (attributes w m)) as [i|].
  - rewrite lookup_delete_ne by (intros Heq; by eapply Hi).
    rewrite lookup_delete_ne by done. done.
  - by rewrite lookup_delete_ne.
Qed.

Lemma delete_keys_Some w m b k v :
  delete_keys w m b !! k = Some v → b !! k = Some v.
Proof.
  unfold delete_keys. destruct (modelId (attributes w m)) as [i|].
  - intros H. apply lookup_delete_Some in H as [_ H].
    by apply lookup_delete_Some in H as [_ H].
  - intros H. by apply lookup_delete_Some in H as [_ H].
Qed.

(** One turn of the removal loop: either nothing happens, or one model
    leaves and at most one event is dispatched, after the purge. *)
Lemma remove_one_spec w o removed t :
  (get w t = None ∧ remove_one (w, o, removed) t = (w, o, removed))
  ∨ ∃ m w',
      get w t = Some m
      ∧ (remove_one (w, o, removed) t).1.1 = w'
      ∧ (remove_one (w, o, removed) t).2 = removed ++ [m]
      ∧ o_silent (remove_one (w, o, removed) t).1.2 = o_silent o
      ∧ heap w' = heap w ∧ next_cid w' = next_cid w
      ∧ c_models (coll w') = splice_out (c_models (coll w)) (indexOf (c_models (coll w)) m)
      ∧ c_length (coll w') = c_length (coll w) - 1
      ∧ c_byId (coll w') = delete_keys w m (delete_keys w m (c_byId (coll w)))
      ∧ c_comparator (coll w') = c_comparator (coll w)
      ∧ c_validate (coll w') = c_validate (coll w)
      ∧ c_listening (coll w') = c_listening (coll w) ∖ {[m]}
      ∧ log w' = log w ++
          (if truthy (o_silent o) then []
           else [Dispatch (EvRemove m (Some (indexOf (c_models (coll w)) m)))
                   (set_byId
                      (set_models (coll w)
                         (splice_out (c_models (coll w)) (indexOf (c_models (coll w)) m))
                         (c_length (coll w) - 1))
                      (delete_keys w m (c_byId (coll w))))]).
Proof.
  unfold remove_one. destruct (get w t) as [m|]; [right|left; done].
  exists m. eexists. split; [done|]. split; [reflexivity|].
  destruct (truthy (o_silent o)); simpl; rewrite ?app_nil_r; repeat split; done.
Qed.

Lemma purged_dispatch w0 w m idx l n :
  heap w = heap w0 →
  sees_purged w0
    (Dispatch (EvRemove m idx)
       (set_byId (set_models (coll w) l n) (delete_keys w m (c_byId (coll w))))).
Proof.
  intros Hh m' idx' [= <- <-]. cbn [d_seen set_byId c_byId].
  rewrite <- (attributes_heap w w0 m Hh).
  split; [apply delete_keys_cid|]. split.
  - unfold get. cbn [coll with_coll set_byId c_byId].
    rewrite (attributes_heap _ w m) by (by rewrite Hh).
    apply orelse_None. split; [|apply delete_keys_cid].
    destruct (modelId (attributes w m)) as [i|] eqn:Hid; [|done].
    simpl. by apply delete_keys_id.
  - intros i Hi. split; [by apply delete_keys_id|].
    unfold get. cbn [coll with_coll set_byId c_byId]. by apply delete_keys_id.
Qed.

Lemma _removeModels_trace (ts : list target) (o : options) (w : world) :
  ∃ new,
    log (_removeModels ts o w).1.1 = log w ++ new
    ∧ Forall (sees_purged w) new
    ∧ removed_model <$> new
      = if truthy (o_silent o) then []
        else Some <$> (_removeModels ts o w).2.
Proof.
  unfold _removeModels.
  cut (heap (foldl remove_one (w, o, []) ts).1.1 = heap w
       ∧ o_silent (foldl remove_one (w, o, []) ts).1.2 = o_silent o
       ∧ ∃ new, log (foldl remove_one (w, o, []) ts).1.1 = log w ++ new
           ∧ Forall (sees_purged w) new
           ∧ removed_model <$> new
             = if truthy (o_silent o) then []
               else Some <$> (foldl remove_one (w, o, []) ts).2).
  { intros (_ & _ & H). exact H. }
  apply (foldl_invariant
           (λ st : world * options * list cid,
              heap st.1.1 = heap w ∧ o_silent st.1.2 = o_silent o
              ∧ ∃ new, log st.1.1 = log w ++ new
                  ∧ Forall (sees_purged w) new
                  ∧ removed_model <$> new
                    = if truthy (o_silent o) then [] else Some <$> st.2)).
  - cbn [fst snd]. split; [done|]. split; [done|].
    exists []. rewrite app_nil_r. split; [done|]. split; [constructor|].
    by destruct (truthy (o_silent o)).
  - intros [[w1 o1] removed] t (Hh & Hs & new & Hlog & Hall & Hev) _.
    cbn [fst snd] in *.
    destruct (remove_one_spec w1 o1 removed t)
      as [[_ ->]|(m & w' & _ & Hw' & Hrem & Hsil & Hh' & _ & _ & _ & _ & _ & _ & _ & Hlog')].
    + cbn [fst snd]. split; [done|]. split; [done|]. by exists new.
    + rewrite Hw', Hrem, Hsil. split; [congruence|]. split; [done|].
      rewrite Hlog', Hlog, <- (assoc_L (++)). eexists. split; [reflexivity|].
      rewrite Hs. destruct (truthy (o_silent o)).
      * rewrite app_nil_r. by split.
      * split.
        -- apply Forall_app. split; [done|]. constructor; [|constructor].
           by apply purged_dispatch.
        -- by rewrite !fmap_app, Hev.
Qed.


(** ** Removal only shrinks *)

Lemma splice_out_subseteq l i : splice_out l i ⊆ l.
Proof. unfold splice_out. apply sublist_subseteq, sublist_delete. Qed.

Lemma shrinks_refl w : shrinks w w.
Proof. unfold shrinks. repeat split; first [done | lia]. Qed.

Lemma shrinks_trans w1 w2 w3 : shrinks w1 w2 → shrinks w2 w3 → shrinks w1 w3.
Proof.
  unfold shrinks. intros (?&?&?&?&?&?) (?&?&?&?&?&?).
  repeat split; first [congruence | set_solver | lia].
Qed.

Lemma remove_one_shrinks w o removed t :
  shrinks w (remove_one (w, o, removed) t).1.1.
Proof.
  destruct (remove_one_spec w o removed t)
    as [[_ ->]|(m & w' & _ & -> & _ & _ & Hh & Hn & Hm & Hl & _ & Hc & Hv & _)].
  - apply shrinks_refl.
  - unfold shrinks. rewrite Hh, Hn, Hm, Hl, Hc, Hv.
    repeat split; first [done | apply splice_out_subseteq | lia].
Qed.

Lemma _removeModels_shrinks ts o w : shrinks w (_removeModels ts o w).1.1.
Proof.
  unfold _removeModels.
  apply (foldl_invariant (λ st : world * options * list cid, shrinks w st.1.1)).
  - apply shrinks_refl.
  - intros [[w1 o1] removed] t Hs _. cbn [fst] in Hs.
    eapply shrinks_trans; [exact Hs | apply remove_one_shrinks].
Qed.

Lemma _removeModels_silent ts o w :
  o_silent (_removeModels ts o w).1.2 = o_silent o.
Proof.
  unfold _removeModels.
  apply (foldl_invariant (λ st : world * options * list cid, o_silent st.1.2 = o_silent o)).
  - done.
  - intros [[w1 o1] removed] t Hs _. cbn [fst snd] in Hs.
    destruct (remove_one_spec w1 o1 removed t) as [[_ ->]|(m & w' & _ & _ & _ & -> & _)];
      done.
Qed.

(** ** The phases of [set] *)

Lemma existing_set_heap m new o w :
  heap (existing_set m new o w) = <[m := model_set (attributes w m) new]> (heap w)
  ∧ next_cid (existing_set m new o w) = next_cid w.
Proof.
  unfold existing_set.
  destruct (bool_decide _ || truthy _); [done|].
  by destruct (decide _).
Qed.

Lemma set_remove_spec o a w1 w2 o2 toRemove :
  set_remove o a w1 = Some (w2, o2, toRemove) →
  shrinks w1 w2 ∧ o_silent o2 = o_silent o.
Proof.
  unfold set_remove. destruct (truthy (o_remove o)).
  - destruct (stale_models (coll w1) (s_modelMap a)) as [[|m l]|]; [| |done].
    + intros [= <- <- <-]. split; [apply shrinks_refl | done].
    + pose proof (_removeModels_shrinks (TItem ∘ IModel <$> m :: l) o w1) as Hs.
      pose proof (_removeModels_silent (TItem ∘ IModel <$> m :: l) o w1) as Ho.
      destruct (_removeModels _ o w1) as [[w2' o2'] rem].
      intros [= <- <- <-]. done.
  - intros [= <- <- <-]. split; [apply shrinks_refl | done].
Qed.

Lemma set_remove_returns o a w1 :
  c_length (coll w1) ≤ Z.of_nat (length (c_models (coll w1))) →
  is_Some (set_remove o a w1).
Proof.
  intros Hlen. unfold set_remove. destruct (truthy (o_remove o)); [|eauto].
  unfold stale_models. rewrite decide_True by done.
  destruct (filter _ _); [eauto|].
  destruct (_removeModels _ o w1) as [[w2' o2'] rem]. eauto.
Qed.

(** The structural update writes [models] and [length] and nothing else. *)
Lemma set_update_spec at_ sortable o a w2 :
  let r := set_update at_ sortable o a w2 in
  heap r.1.1 = heap w2 ∧ next_cid r.1.1 = next_cid w2 ∧ log r.1.1 = log w2
  ∧ c_byId (coll r.1.1) = c_byId (coll w2)
  ∧ c_comparator (coll r.1.1) = c_comparator (coll w2)
  ∧ c_validate (coll r.1.1) = c_validate (coll w2)
  ∧ c_listening (coll r.1.1) = c_listening (coll w2)
  ∧ (r.1.2 = true → sortable = true ∨ s_sort a = true)
  ∧ ((s_set a ≠ [] ∧ sortable = false ∧ truthy (o_add o) = true
      ∧ truthy (o_remove o) = true
      ∧ c_models (coll r.1.1) = s_set a
      ∧ c_length (coll r.1.1) = Z.of_nat (length (s_set a)))
     ∨ (s_toAdd a ≠ []
        ∧ c_models (coll r.1.1)
          = splice (c_models (coll w2)) (s_toAdd a) (default (c_length (coll w2)) at_)
        ∧ c_length (coll r.1.1) = Z.of_nat (length (c_models (coll r.1.1)))
        ∧ r.2 = false)
     ∨ (s_toAdd a = [] ∧ coll r.1.1 = coll w2 ∧ r.2 = false)).
Proof.
  unfold set_update. cbv zeta.
  destruct (bool_decide (s_set a = [])) eqn:Hset;
    [apply bool_decide_eq_true in Hset | apply bool_decide_eq_false in Hset];
    destruct sortable, (truthy (o_add o)) eqn:Ha, (truthy (o_remove o)) eqn:Hr;
    cbn [negb andb];
    try (destruct (bool_decide (s_toAdd a = [])) eqn:Hadd;
         [apply bool_decide_eq_true in Hadd | apply bool_decide_eq_false in Hadd]);
    cbn [negb fst snd orb];
    rewrite ?splice_nil;
    (do 8 (split; [first [done | tauto | auto]|]));
    first [ by (right; right)
          | by (right; left)
          | by left ].
Qed.

(** A call of [set] on a collection whose [length] does not exceed its
    member list runs through all its phases and returns. *)
Lemma set_body_phases models o w :
  c_length (coll w) ≤ Z.of_nat (length (c_models (coll w))) →
  ∃ w2 o2 toRemove w4,
    set_remove o (set_loop models o w).2 (set_loop models o w).1
      = Some (w2, o2, toRemove)
    ∧ (let upd := set_update (resolve_at (o_at o) (c_length (coll w)))
                             (sortable_of o w) o (set_loop models o w).2 w2 in
       (if upd.1.2 then sort true upd.1.1 else Ok tt upd.1.1) = Ok tt w4
       ∧ set_body models o w
         = Ok (shape models (s_out (set_loop models o w).2))
              (if truthy (o_silent o) then w4
               else set_events (resolve_at (o_at o) (c_length (coll w)))
                               (set_loop models o w).2 toRemove upd.1.2 upd.2 o2 w4)).
Proof.
  intros Hlen. unfold set_body.
  pose proof (set_loop_keeps_members models o w) as (Hm & Hl & Hc & _).
  pose proof (set_loop_sort_sortable models o w) as Hflag.
  destruct (set_loop models o w) as [w1 a]. cbn [fst snd] in *.
  destruct (set_remove_returns o a w1) as [[[w2 o2] toRemove] Hrem].
  { by rewrite Hl, Hm. }
  rewrite Hrem. exists w2, o2, toRemove.
  destruct (set_remove_spec _ _ _ _ _ _ Hrem) as ((_ & _ & _ & _ & Hc2 & _) & Hsil).
  pose proof (set_update_spec (resolve_at (o_at o) (c_length (coll w)))
                (sortable_of o w) o a w2) as Hupd.
  destruct (set_update _ _ o a w2) as [[w3 sort3] oc]. cbn [fst snd] in *.
  destruct Hupd as (_ & _ & _ & _ & Hc3 & _ & _ & Hs3 & _).
  rewrite Hsil.
  destruct sort3.
  - assert (Hsortable : sortable_of o w = true) by (destruct (Hs3 eq_refl); auto).
    destruct (sortable_has_comparator o w Hsortable) as [cmp Hcmp].
    destruct (sort_with_comparator true w3 cmp) as [w4 Hw4]; [congruence|].
    exists w4. rewrite Hw4. done.
  - exists w3. done.
Qed.

(** ** A raw item that matches a member *)

Lemma set_loop_matching r i m o w :
  modelId r = Some i →
  c_byId (coll w) !! KId i = Some m →
  ∃ toMerge s,
    set_loop (One (IRaw r)) o w
    = (if truthy (o_merge o) then existing_set m r o w else w,
       Acc [m] [] toMerge ({[m]} ∪ ∅) s [SModel m]).
Proof.
  intros Hid Hby. unfold set_loop. cbn [items_of foldl].
  unfold set_step.
  assert (Hget : get w (TItem (IRaw r)) = Some m).
  { unfold get, byId_id. rewrite Hid. done. }
  rewrite Hget. cbn [differs]. rewrite andb_true_r.
  rewrite decide_False by set_solver.
  destruct (truthy (o_merge o)); cbn [empty_acc s_set s_toAdd s_toMerge s_modelMap s_sort s_out app];
    eauto.
Qed.

(** C3: on a collection whose [length] is the length of [models], [set]
    with a raw item whose id the index resolves to a member returns that
    member and never increases [length]: no model is constructed or added,
    the members after the call are members before it, and the attributes
    are merged into the member when [merge] is enabled and the store is
    left alone otherwise. *)
Theorem set_matching_raw_never_grows
    (r : attrs) (i : Z) (m : cid) (o : options) (w : world) :
  modelId r = Some i →
  c_byId (coll w) !! KId i = Some m →
  m ∈ c_models (coll w) →
  c_length (coll w) = Z.of_nat (length (c_models (coll w))) →
  ∃ w',
    set (One (IRaw r)) o w = Ok (ROne (SModel m)) w'
    ∧ c_length (coll w') ≤ c_length (coll w)
    ∧ c_models (coll w') ⊆ c_models (coll w)
    ∧ added_by_set (One (IRaw r)) o w = []
    ∧ next_cid w' = next_cid w
    ∧ heap w' = if truthy (o_merge (extend_setOptions o))
                then <[m := model_set (attributes w m) r]> (heap w)
                else heap w.
Proof.
  intros Hid Hby Hin Hlen.
  unfold set, set_with, added_by_set.
  set (o' := extend_setOptions o).
  destruct (set_body_phases (One (IRaw r)) o' w) as (w2 & o2 & toRemove & w4 & Hrem & Hsort & Hrun);
    [lia|].
  pose proof (set_loop_keeps_members (One (IRaw r)) o' w) as (Hm1 & Hl1 & _).
  destruct (set_loop_matching r i m o' w Hid Hby) as (toMerge & s & Hloop).
  rewrite Hloop in *. cbn [fst snd s_out s_toAdd shape head default] in *.
  destruct (set_remove_spec _ _ _ _ _ _ Hrem) as ((Hh2 & Hn2 & Hm2 & Hl2 & _) & _).
  pose proof (set_update_spec (resolve_at (o_at o') (c_length (coll w)))
                (sortable_of o' w) o'
                (Acc [m] [] toMerge ({[m]} ∪ ∅) s [SModel m]) w2) as Hupd.
  destruct (set_update _ _ o' _ w2) as [[w3 sort3] oc]. cbn [fst snd] in *.
  destruct Hupd as (Hh3 & Hn3 & _ & _ & _ & _ & _ & _ & Hshape).
  cbn [s_set s_toAdd] in Hshape.
  assert (Hlen1 : 1 ≤ c_length (coll w)).
  { rewrite Hlen. destruct (c_models (coll w)); [by apply elem_of_nil in Hin|].
    simpl. lia. }
  assert (H3 : c_length (coll w3) ≤ c_length (coll w)
               ∧ c_models (coll w3) ⊆ c_models (coll w)).
  { destruct Hshape as [(_ & _ & _ & _ & -> & ->)|[(Hne & _)|(_ & -> & _)]].
    - split; [simpl; lia|]. intros x Hx. apply list_elem_of_singleton in Hx. by subst.
    - done.
    - rewrite <- Hl1, <- Hm1. done. }
  assert (H4 : c_length (coll w4) ≤ c_length (coll w)
               ∧ c_models (coll w4) ⊆ c_models (coll w)
               ∧ heap w4 = heap w3 ∧ next_cid w4 = next_cid w3).
  { destruct sort3.
    - apply sort_Ok_inv in Hsort as (cmp & _ & Hh & Hn & Hms & Hl & _).
      rewrite Hl. split; [tauto|]. split; [|done].
      intros x Hx. rewrite Hms, sort_models_perm in Hx. by apply H3.
    - injection Hsort as <-. tauto. }
  destruct H4 as (Hl4 & Hm4 & Hh4 & Hn4).
  assert (Hheap : heap w4 = if truthy (o_merge o')
                            then <[m := model_set (attributes w m) r]> (heap w)
                            else heap w).
  { rewrite Hh4, Hh3, Hh2. destruct (truthy (o_merge o')); [|done].
    apply existing_set_heap. }
  assert (Hnext : next_cid w4 = next_cid w).
  { rewrite Hn4, Hn3, Hn2. destruct (truthy (o_merge o')); [|done].
    apply existing_set_heap. }
  eexists. split; [exact Hrun|].
  destruct (truthy (o_silent o')).
  - done.
  - destruct (set_events_state (resolve_at (o_at o') (c_length (coll w)))
                (Acc [m] [] toMerge ({[m]} ∪ ∅) s [SModel m]) toRemove sort3 oc o2 w4)
      as (-> & -> & ->).
    done.
Qed.

Lemma set_matching_raw_never_grows_witness :
  ∃ w',
    set (One (hash 1)) no_options one_member = Ok (ROne (SModel 0%nat)) w'
    ∧ c_length (coll w') ≤ c_length (coll one_member).
Proof.
  assert (Hin : 0%nat ∈ c_models (coll one_member)).
  { replace (c_models (coll one_member)) with [0%nat] by reflexivity. by left. }
  destruct (set_matching_raw_never_grows (Attrs (Some 1) ∅) 1 0%nat no_options
              one_member eq_refl eq_refl Hin eq_refl)
    as (w' & Hrun & Hlen & _).
  exists w'. split; [exact Hrun | exact Hlen].
Defined.

(** ** The trace only grows *)

Lemma existing_set_log m new o w : log w `prefix_of` log (existing_set m new o w).
Proof.
  unfold existing_set.
  destruct (bool_decide _ || truthy _); [done|].
  destruct (decide _); [|done].
  unfold _onModelEvent_change, trigger. cbn [log with_heap with_coll].
  by apply prefix_app_r.
Qed.

Lemma _prepareModel_log it w : log w `prefix_of` log (_prepareModel it w).1.
Proof.
  destruct it as [m|a]; simpl; [done|].
  destruct (failure (c_validate (coll w) a)); simpl; [by apply prefix_app_r | done].
Qed.

Section loop_trace.
  Context (o : options) (sortable : bool) (sortAttr : option string).

Lemma set_step_log st it :
  log st.1 `prefix_of` log (set_step o sortable sortAttr st it).1.
Proof.
  destruct st as [w a]. cbn [fst].
  step_cases w a it o; auto using existing_set_log.
  - pose proof (_prepareModel_log it w) as Hp. by rewrite Hprep in Hp.
  - pose proof (_prepareModel_log it w) as Hp. by rewrite Hprep in Hp.
Qed.

Lemma set_steps_log st l :
  log st.1 `prefix_of` log (foldl (set_step o sortable sortAttr) st l).1.
Proof.
  apply (foldl_invariant (λ s, log st.1 `prefix_of` log s.1)).
  - done.
  - intros s it Hs _. etrans; [exact Hs | apply set_step_log].
Qed.

End loop_trace.

Lemma set_remove_log o a w1 w2 o2 toRemove :
  set_remove o a w1 = Some (w2, o2, toRemove) → log w1 `prefix_of` log w2.
Proof.
  unfold set_remove. destruct (truthy (o_remove o)).
  - destruct (stale_models (coll w1) (s_modelMap a)) as [[|m l]|]; [| |done].
    + by intros [= <- <- <-].
    + destruct (_removeModels_trace (TItem ∘ IModel <$> m :: l) o w1) as (new & Hlog & _).
      destruct (_removeModels _ o w1) as [[w2' o2'] rem].
      intros [= <- <- <-]. cbn [fst] in Hlog. rewrite Hlog. by apply prefix_app_r.
  - by intros [= <- <- <-].
Qed.

Lemma trigger_adds_log at_ i toAdd o w :
  log w `prefix_of` log (trigger_adds at_ i toAdd o w).1.
Proof.
  revert i o w. induction toAdd as [|m rest IH]; intros i o w; simpl; [done|].
  etrans; [|apply IH]. simpl. by apply prefix_app_r.
Qed.

Lemma set_events_log at_ a toRemove s oc o w :
  log w `prefix_of` log (set_events at_ a toRemove s oc o w).
Proof.
  unfold set_events.
  pose proof (trigger_adds_log at_ 0 (s_toAdd a) o w) as H.
  destruct (trigger_adds at_ 0 (s_toAdd a) o w) as [w1 o1]. cbn [fst] in H.
  assert (H2 : log w `prefix_of` log (if s || oc then trigger EvSort w1 else w1)).
  { destruct (s || oc); [|done]. simpl. etrans; [exact H | by apply prefix_app_r]. }
  destruct (s_toAdd a), toRemove, (s_toMerge a); try done;
    (etrans; [exact H2 | by apply prefix_app_r]).
Qed.

Lemma set_body_log models o w r w' :
  c_length (coll w) ≤ Z.of_nat (length (c_models (coll w))) →
  set_body models o w = Ok r w' →
  r = shape models (s_out (set_loop models o w).2)
  ∧ log (set_loop models o w).1 `prefix_of` log w'.
Proof.
  intros Hlen Hrun.
  destruct (set_body_phases models o w Hlen)
    as (w2 & o2 & toRemove & w4 & Hrem & Hsort & Hrun').
  rewrite Hrun in Hrun'. injection Hrun' as -> ->. split; [done|].
  pose proof (set_remove_log _ _ _ _ _ _ Hrem) as H12.
  pose proof (set_update_spec (resolve_at (o_at o) (c_length (coll w)))
                (sortable_of o w) o (set_loop models o w).2 w2) as Hupd.
  destruct (set_update _ _ o _ w2) as [[w3 sort3] oc]. cbn [fst snd] in *.
  destruct Hupd as (_ & _ & Hl3 & _).
  assert (H4 : log w4 = log w2).
  { destruct sort3.
    - apply sort_Ok_inv in Hsort as (cmp & _ & _ & _ & _ & _ & _ & _ & _ & _ & ->).
      done.
    - by injection Hsort as <-. }
  destruct (truthy (o_silent o)).
  - by rewrite H4.
  - etrans; [exact H12|]. rewrite <- H4. apply set_events_log.
Qed.

(** ** One slot per input item *)

Section loop_slots.
  Context (o : options) (sortable : bool) (sortAttr : option string).

Lemma set_step_out st it :
  ∃ slot, s_out (set_step o sortable sortAttr st it).2 = s_out st.2 ++ [slot].
Proof.
  destruct st as [w a]. cbn [snd].
  step_cases w a it o; eauto.
Qed.

Lemma set_steps_out st l :
  ∃ more,
    s_out (foldl (set_step o sortable sortAttr) st l).2 = s_out st.2 ++ more
    ∧ length more = length l.
Proof.
  revert st. induction l as [|it l IH]; intros st; cbn [foldl].
  - exists []. by rewrite app_nil_r.
  - destruct (IH (set_step o sortable sortAttr st it)) as (more & Hout & Hlen).
    destruct (set_step_out st it) as (slot & Hslot).
    exists (slot :: more). rewrite Hout, Hslot, <- (assoc_L (++)).
    split; [done|]. simpl. by rewrite Hlen.
Qed.

End loop_slots.

(** ** An item that fails validation *)

Lemma set_step_invalid o sortable sortAttr st r err :
  truthy (o_add o) = true →
  get st.1 (TItem (IRaw r)) = None →
  c_validate (coll st.1) r = Some err → err ≠ 0 →
  set_step o sortable sortAttr st (IRaw r) = dropped st err.
Proof.
  destruct st as [w a]. cbn [fst].
  intros Hadd Hget Hval Herr. unfold set_step. rewrite Hget, Hadd.
  unfold _prepareModel, failure. rewrite Hval. by rewrite decide_False.
Qed.

(** C8: when [set] or [add], called with one item or with an array, with
    [add] enabled and on a collection whose [length] does not exceed its
    member list, reaches a raw item that matches no member and whose
    construction leaves a validation error (a truthy one, as
    [_prepareModel] tests it), the call still returns;
    the item leaves the collection, the store and the working lists as they
    were, its slot in what is returned holds [false], an [invalid] event
    carrying the error is dispatched, and the loop goes on with the items
    that follow, every input item getting its slot. *)
Theorem invalid_item_is_dropped
    (via_add : bool) (models : input) (before after : list item) (r : attrs)
    (err : Z) (o : options) (w : world) :
  let call := if via_add then add else set in
  let o' := extend_setOptions (if via_add then extend_addOptions o else o) in
  let reached := set_loop (Many before) o' w in
  models ≠ Nothing →
  items_of models = before ++ IRaw r :: after →
  truthy (o_add o') = true →
  get reached.1 (TItem (IRaw r)) = None →
  c_validate (coll w) r = Some err → err ≠ 0 →
  c_length (coll w) ≤ Z.of_nat (length (c_models (coll w))) →
  ∃ out w',
    call models o w = Ok (shape models out) w'
    ∧ length out = length (items_of models)
    ∧ out !! length before = Some SFalse
    ∧ Dispatch (EvInvalid err) (coll reached.1) ∈ log w'
    ∧ set_loop models o' w
      = foldl (set_step o' (sortable_of o' w) (sortAttr_of w))
              (dropped reached err) after.
Proof.
  intros call o' reached Hsome Hitems Hadd Hget Hval Herr Hlen.
  assert (Hcall : call models o w = set_body models o' w).
  { subst call o'. unfold add, set, set_with.
    destruct via_add; by destruct models. }
  assert (Hval' : c_validate (coll reached.1) r = Some err).
  { destruct (set_loop_keeps_members (Many before) o' w) as (_ & _ & _ & Hv).
    subst reached. by rewrite Hv. }
  assert (Hloop : set_loop models o' w
                  = foldl (set_step o' (sortable_of o' w) (sortAttr_of w))
                          (dropped reached err) after).
  { unfold set_loop at 1. rewrite Hitems, foldl_app. cbn [foldl].
    fold (set_loop (Many before) o' w). fold reached.
    by rewrite (set_step_invalid o' _ _ reached r err Hadd Hget Hval' Herr). }
  destruct (set_body_phases models o' w Hlen)
    as (w2 & o2 & toRemove & w4 & _ & _ & Hrun).
  destruct (set_body_log _ _ _ _ _ Hlen Hrun) as (_ & Hlog).
  rewrite Hloop in Hrun, Hlog.
  destruct (set_steps_out o' (sortable_of o' w) (sortAttr_of w)
              (dropped reached err) after) as (more & Hout & Hmore).
  destruct (set_steps_out o' (sortable_of o' w) (sortAttr_of w)
              (w, empty_acc) before) as (first & Hfirst & Hfirstlen).
  change (s_out reached.2 = first) in Hfirst.
  cbn [dropped snd s_out] in Hout. rewrite Hfirst in Hout.
  eexists _, _. split; [rewrite Hcall; exact Hrun|].
  rewrite Hout, Hitems. split; [|split; [|split; [|done]]].
  - rewrite !length_app, Hfirstlen, Hmore. simpl. lia.
  - rewrite <- (assoc_L (++)), lookup_app_r by lia.
    by rewrite Hfirstlen, Nat.sub_diag.
  - eapply elem_of_prefix; [|exact Hlog].
    eapply elem_of_prefix; [|apply set_steps_log].
    cbn [dropped fst trigger log]. apply elem_of_app. right. by left.
Qed.

Lemma invalid_item_is_dropped_witness :
  (∃ out w',
     add (Many [hash 1; hash (-5); hash 2]) no_options
         (empty_world None rejects_negative_ids)
       = Ok (shape (Many [hash 1; hash (-5); hash 2]) out) w'
     ∧ out !! 1%nat = Some SFalse
     ∧ Dispatch (EvInvalid (-5))
         (coll (set_loop (Many [hash 1])
                  (extend_setOptions (extend_addOptions no_options))
                  (empty_world None rejects_negative_ids)).1) ∈ log w')
  ∧ ∃ w', set (One (hash (-5))) no_options (empty_world None rejects_negative_ids)
          = Ok (ROne SFalse) w'.
Proof.
  assert (Hlen : c_length (coll (empty_world None rejects_negative_ids))
                 ≤ Z.of_nat (length (c_models (coll (empty_world None rejects_negative_ids)))))
    by (vm_compute; discriminate).
  split.
  - destruct (invalid_item_is_dropped true (Many [hash 1; hash (-5); hash 2])
                [hash 1] [hash 2] (Attrs (Some (-5)) ∅) (-5)
                no_options (empty_world None rejects_negative_ids))
      as (out & w' & Hrun & _ & Hslot & Hev & _);
      [done | reflexivity | reflexivity | reflexivity | reflexivity | lia | exact Hlen |].
    exists out, w'. split; [exact Hrun|]. split; [exact Hslot | exact Hev].
  - destruct (invalid_item_is_dropped false (One (hash (-5)))
                [] [] (Attrs (Some (-5)) ∅) (-5)
                no_options (empty_world None rejects_negative_ids))
      as (out & w' & Hrun & Hlenout & Hslot & _);
      [done | reflexivity | reflexivity | reflexivity | reflexivity | lia | exact Hlen |].
    exists w'. rewrite Hrun. cbn [shape].
    destruct out as [|s out]; [done|]. cbn in Hslot. by injection Hslot as ->.
Defined.

(** ** The events of [set] *)

Lemma grows_by_same P w w' : log w' = log w → grows_by P w w'.
Proof. intros H. exists []. by rewrite app_nil_r. Qed.

Lemma grows_by_refl P w : grows_by P w w.
Proof. by apply grows_by_same. Qed.

Lemma grows_by_trans P w1 w2 w3 :
  grows_by P w1 w2 → grows_by P w2 w3 → grows_by P w1 w3.
Proof.
  intros (n1 & H1 & F1) (n2 & H2 & F2). exists (n1 ++ n2).
  rewrite H2, H1, <- (assoc_L (++)). split; [done | by apply Forall_app].
Qed.

Lemma grows_by_weaken (P Q : event → Prop) w w' :
  (∀ e, P e → Q e) → grows_by P w w' → grows_by Q w w'.
Proof.
  intros HPQ (new & Hlog & Hall). exists new. split; [done|].
  eapply Forall_impl; [exact Hall|]. intros d. apply HPQ.
Qed.

Lemma loop_event_early e : loop_event e → early_event e.
Proof. by destruct e. Qed.

Lemma grows_by_trigger (P : event → Prop) e w : P e → grows_by P w (trigger e w).
Proof. intros He. exists [Dispatch e (coll w)]. split; [done | by repeat constructor]. Qed.

Lemma existing_set_grows m new o w : grows_by loop_event w (existing_set m new o w).
Proof.
  unfold existing_set.
  destruct (bool_decide _ || truthy _); [by apply grows_by_same|].
  destruct (decide _); [|by apply grows_by_same].
  unfold _onModelEvent_change.
  eexists [_]. split; [reflexivity | by repeat constructor].
Qed.

Lemma _prepareModel_grows it w : grows_by loop_event w (_prepareModel it w).1.
Proof.
  destruct it as [m|a]; simpl; [apply grows_by_refl|].
  destruct (failure (c_validate (coll w) a)); simpl; [|by apply grows_by_same].
  eexists [_]. split; [reflexivity | by repeat constructor].
Qed.

Lemma set_step_grows o sortable sortAttr st it :
  grows_by loop_event st.1 (set_step o sortable sortAttr st it).1.
Proof.
  destruct st as [w a]. cbn [fst].
  step_cases w a it o; auto using existing_set_grows, grows_by_refl.
  - pose proof (_prepareModel_grows it w) as Hp. by rewrite Hprep in Hp.
  - pose proof (_prepareModel_grows it w) as Hp. by rewrite Hprep in Hp.
Qed.

Lemma set_loop_grows models o w :
  grows_by loop_event w (set_loop models o w).1.
Proof.
  unfold set_loop.
  apply (foldl_invariant (λ s : world * acc, grows_by loop_event w s.1)).
  - apply grows_by_refl.
  - intros s it Hs _. eapply grows_by_trans; [exact Hs | apply set_step_grows].
Qed.

Lemma _removeModels_grows ts o w :
  grows_by early_event w (_removeModels ts o w).1.1.
Proof.
  destruct (_removeModels_trace ts o w) as (new & Hlog & _ & Hev).
  exists new. split; [done|].
  apply Forall_forall. intros d Hd.
  assert (Hr : is_Some (removed_model d)).
  { apply (list_elem_of_fmap_2 removed_model) in Hd. rewrite Hev in Hd.
    destruct (truthy (o_silent o)); [by apply elem_of_nil in Hd|].
    apply list_elem_of_fmap in Hd as (m & -> & _). eauto. }
  unfold removed_model in Hr.
  destruct (d_event d); first [done | by destruct Hr as [? [=]]].
Qed.

Lemma set_remove_grows o a w1 w2 o2 toRemove :
  set_remove o a w1 = Some (w2, o2, toRemove) → grows_by early_event w1 w2.
Proof.
  unfold set_remove. destruct (truthy (o_remove o)).
  - destruct (stale_models (coll w1) (s_modelMap a)) as [[|m l]|]; [| |done].
    + intros [= <- <- <-]. apply grows_by_refl.
    + pose proof (_removeModels_grows (TItem ∘ IModel <$> m :: l) o w1) as Hg.
      destruct (_removeModels _ o w1) as [[w2' o2'] rem].
      by intros [= <- <- <-].
  - intros [= <- <- <-]. apply grows_by_refl.
Qed.

Lemma add_events_held a i toAdd h h' :
  add_events (Some a) i toAdd h = add_events (Some a) i toAdd h'.
Proof.
  revert i. induction toAdd as [|m rest IH]; intros i; simpl; [done|].
  by rewrite (IH (i + 1)).
Qed.

Lemma trigger_adds_events at_ i toAdd o w :
  d_event <$> log (trigger_adds at_ i toAdd o w).1
  = (d_event <$> log w) ++ add_events at_ i toAdd (o_index o).
Proof.
  revert i o w. induction toAdd as [|m rest IH]; intros i o w.
  - simpl. by rewrite app_nil_r.
  - cbn [trigger_adds add_events]. rewrite IH.
    cbn [trigger log]. rewrite fmap_app, <- (assoc_L (++)).
    cbn [fmap list_fmap d_event app].
    destruct at_ as [a|]; [|done].
    by rewrite (add_events_held a (i + 1) rest _ (o_index o)).
Qed.

Lemma set_events_events at_ a toRemove s oc o w :
  d_event <$> log (set_events at_ a toRemove s oc o w)
  = (d_event <$> log w)
    ++ add_events at_ 0 (s_toAdd a) (o_index o)
    ++ (if s || oc then [EvSort] else [])
    ++ update_event (s_toAdd a) toRemove (s_toMerge a).
Proof.
  unfold set_events.
  pose proof (trigger_adds_events at_ 0 (s_toAdd a) o w) as H.
  destruct (trigger_adds at_ 0 (s_toAdd a) o w) as [w1 o1]. cbn [fst] in H.
  unfold update_event.
  destruct (s || oc); destruct (s_toAdd a), toRemove, (s_toMerge a);
    cbn [trigger log]; rewrite ?fmap_app, H; cbn [fmap list_fmap d_event];
    rewrite ?app_nil_r, <- ?(assoc_L (++)); done.
Qed.

Lemma set_body_inv models o w r w' :
  set_body models o w = Ok r w' →
  ∃ w2 o2 toRemove w4,
    set_remove o (set_loop models o w).2 (set_loop models o w).1
      = Some (w2, o2, toRemove)
    ∧ (let upd := set_update (resolve_at (o_at o) (c_length (coll w)))
                             (sortable_of o w) o (set_loop models o w).2 w2 in
       (if upd.1.2 then sort true upd.1.1 else Ok tt upd.1.1) = Ok tt w4
       ∧ r = shape models (s_out (set_loop models o w).2)
       ∧ w' = if truthy (o_silent o) then w4
              else set_events (resolve_at (o_at o) (c_length (coll w)))
                              (set_loop models o w).2 toRemove upd.1.2 upd.2 o2 w4).
Proof.
  unfold set_body. cbv zeta.
  destruct (set_loop models o w) as [w1 a]. cbn [fst snd].
  destruct (set_remove o a w1) as [[[w2 o2] toRemove]|] eqn:Hrem; [|done].
  destruct (set_remove_spec _ _ _ _ _ _ Hrem) as (_ & Hsil).
  destruct (set_update _ _ o a w2) as [[w3 sort3] oc] eqn:Hupd. cbn [fst snd].
  destruct (if sort3 then sort true w3 else Ok tt w3) as [[] w4|] eqn:Hsort; [|done].
  intros [= <- <-]. exists w2, o2, toRemove, w4. rewrite Hupd, Hsil. done.
Qed.

(** ** What the listeners of [remove] find *)

Lemma purged_trace_refl w0 w w' : log w' = log w → purged_trace w0 w w'.
Proof. intros H. exists []. by rewrite app_nil_r. Qed.

Lemma purged_trace_trans w0 w1 w2 w3 :
  purged_trace w0 w1 w2 → purged_trace w0 w2 w3 → purged_trace w0 w1 w3.
Proof.
  intros (n1 & H1 & F1) (n2 & H2 & F2). exists (n1 ++ n2).
  rewrite H2, H1, <- (assoc_L (++)). split; [done | by apply Forall_app].
Qed.

Lemma grows_by_purged (P : event → Prop) w0 w w' :
  (∀ m idx, ¬ P (EvRemove m idx)) → grows_by P w w' → purged_trace w0 w w'.
Proof.
  intros HP (new & Hlog & Hall). exists new. split; [done|].
  eapply Forall_impl; [exact Hall|].
  intros d Hd m idx He. cbn beta in Hd. rewrite He in Hd. by destruct (HP m idx).
Qed.

Lemma trigger_adds_grows at_ i toAdd o w :
  grows_by closing_event w (trigger_adds at_ i toAdd o w).1.
Proof.
  revert i o w. induction toAdd as [|m rest IH]; intros i o w; simpl.
  - apply grows_by_refl.
  - eapply grows_by_trans; [|apply IH]. by apply grows_by_trigger.
Qed.

Lemma set_events_grows at_ a toRemove s oc o w :
  grows_by closing_event w (set_events at_ a toRemove s oc o w).
Proof.
  unfold set_events.
  pose proof (trigger_adds_grows at_ 0 (s_toAdd a) o w) as H.
  destruct (trigger_adds at_ 0 (s_toAdd a) o w) as [w1 o1]. cbn [fst] in H.
  assert (H2 : grows_by closing_event w (if s || oc then trigger EvSort w1 else w1)).
  { destruct (s || oc); [|done]. eapply grows_by_trans; [exact H|].
    by apply grows_by_trigger. }
  destruct (s_toAdd a), toRemove, (s_toMerge a); try done;
    (eapply grows_by_trans; [exact H2 | by apply grows_by_trigger]).
Qed.

Lemma set_remove_purged o a w1 w2 o2 toRemove :
  set_remove o a w1 = Some (w2, o2, toRemove) → purged_trace w1 w1 w2.
Proof.
  unfold set_remove. destruct (truthy (o_remove o)).
  - destruct (stale_models (coll w1) (s_modelMap a)) as [[|m l]|]; [| |done].
    + intros [= <- <- <-]. by apply purged_trace_refl.
    + destruct (_removeModels_trace (TItem ∘ IModel <$> m :: l) o w1) as (new & Hlog & Hall & _).
      destruct (_removeModels _ o w1) as [[w2' o2'] rem].
      intros [= <- <- <-]. by exists new.
  - intros [= <- <- <-]. by apply purged_trace_refl.
Qed.

Lemma remove_purged rs o w : purged_trace w w (world_of (remove rs o w)).
Proof.
  unfold remove.
  destruct (_removeModels_trace (targets_of rs) o w) as (new & Hlog & Hall & _).
  destruct (_removeModels (targets_of rs) o w) as [[w1 o1] removed].
  cbn [fst world_of] in *.
  apply (purged_trace_trans _ _ w1); [by exists new|].
  destruct (negb (truthy (o_silent o1)) && negb (bool_decide (removed = [])));
    [|by apply purged_trace_refl].
  apply (grows_by_purged closing_event); [by intros ? ? []|].
  by apply grows_by_trigger.
Qed.

Lemma set_body_purged models o w :
  purged_trace (set_loop models o w).1 w (world_of (set_body models o w)).
Proof.
  unfold set_body. cbv zeta.
  pose proof (grows_by_purged loop_event (set_loop models o w).1 _ _
                (λ _ _ H, H) (set_loop_grows models o w)) as H1.
  destruct (set_loop models o w) as [w1 a]. cbn [fst snd] in *.
  destruct (set_remove o a w1) as [[[w2 o2] toRemove]|] eqn:Hrem; [|exact H1].
  apply (purged_trace_trans _ _ w1); [exact H1|].
  apply (purged_trace_trans _ _ w2); [by eapply set_remove_purged|].
  pose proof (set_update_spec (resolve_at (o_at o) (c_length (coll w)))
                (sortable_of o w) o a w2) as Hupd.
  destruct (set_update _ _ o a w2) as [[w3 sort3] oc]. cbn [fst snd] in *.
  destruct Hupd as (_ & _ & Hl3 & _).
  assert (Hsorted : ∀ r, (∃ w4, r = Ok tt w4 ∧ log w4 = log w2)
                         ∨ (∃ msg w4, r = Throw msg w4 ∧ log w4 = log w2) →
            purged_trace w1 w2
              (world_of
                 match r with
                 | Throw msg w4 => Throw msg w4
                 | Ok _ w4 =>
                     Ok (shape models (s_out a))
                        (if truthy (o_silent o2) then w4
                         else set_events (resolve_at (o_at o) (c_length (coll w)))
                                a toRemove sort3 oc o2 w4)
                 end)).
  { intros r [(w4 & -> & Hl4)|(msg & w4 & -> & Hl4)]; cbn [world_of].
    - destruct (truthy (o_silent o2)); [by apply purged_trace_refl|].
      apply (purged_trace_trans _ _ w4); [by apply purged_trace_refl|].
      apply (grows_by_purged closing_event); [by intros ? ? []|].
      apply set_events_grows.
    - by apply purged_trace_refl. }
  apply Hsorted. destruct sort3.
  - unfold sort. destruct (truthy_comparator (c_comparator (coll w3)));
      [left | right]; eauto.
  - left. eauto.
Qed.

(** C2: every [remove] event [_removeModels] dispatches finds both index
    entries of its model already deleted, so that [get], called by a
    listener with the removed model or its id, answers [undefined]; and,
    unless silenced, there is one such event per removed model, in order.
    The same holds of every event dispatched during a call of [remove], and
    during a call of [set], whose removals see the store as the first loop
    left it. *)
Theorem remove_event_sees_purged_index
    (ts : list target) (rs : targets) (models : input) (o : options) (w : world) :
  (∃ new,
     log (_removeModels ts o w).1.1 = log w ++ new
     ∧ Forall (sees_purged w) new
     ∧ removed_model <$> new
       = if truthy (o_silent o) then []
         else Some <$> (_removeModels ts o w).2)
  ∧ purged_trace w w (world_of (remove rs o w))
  ∧ purged_trace (set_loop models (extend_setOptions o) w).1 w
      (world_of (set models o w)).
Proof.
  split; [apply _removeModels_trace|]. split; [apply remove_purged|].
  unfold set, set_with. destruct models; [|apply set_body_purged..].
  by apply purged_trace_refl.
Qed.


(** ** Re-absorbing the serialized state *)

Lemma model_set_same a : model_set a a = a.
Proof.
  destruct a as [i d]. unfold model_set. simpl. f_equal.
  - by destruct i.
  - apply map_eq. intros k. rewrite lookup_union. by destruct (d !! k).
Qed.

Lemma hasChanged_same sortAttr a : hasChanged sortAttr a a = false.
Proof. destruct sortAttr; simpl; by rewrite bool_decide_eq_true_2. Qed.

Lemma existing_set_same m o w :
  is_Some (heap w !! m) → existing_set m (attributes w m) o w = w.
Proof.
  intros [a Ha]. unfold existing_set. rewrite model_set_same.
  rewrite bool_decide_eq_true_2 by done. cbn [orb].
  unfold with_heap. rewrite insert_id; [by destruct w|].
  unfold attributes. by rewrite Ha.
Qed.

Lemma has_id_in_heap w m i : modelId (attributes w m) = Some i → is_Some (heap w !! m).
Proof. unfold attributes. destruct (heap w !! m); [eauto | discriminate]. Qed.

Lemma toJSON_loop o sortable sortAttr w rest :
  ∀ done toMerge modelMap,
    NoDup (done ++ rest) →
    (∀ m, m ∈ rest → ∃ i, modelId (attributes w m) = Some i
                          ∧ c_byId (coll w) !! KId i = Some m) →
    (∀ x, x ∈ modelMap ↔ x ∈ done) →
    ∃ toMerge' modelMap',
      foldl (set_step o sortable sortAttr)
            (w, Acc done [] toMerge modelMap false (SModel <$> done))
            ((λ m, IRaw (attributes w m)) <$> rest)
      = (w, Acc (done ++ rest) [] toMerge' modelMap' false (SModel <$> done ++ rest))
      ∧ (∀ x, x ∈ modelMap' ↔ x ∈ done ++ rest).
Proof.
  induction rest as [|m rest IH]; intros done toMerge modelMap Hnd Hids Hmap.
  - exists toMerge, modelMap. rewrite !app_nil_r. done.
  - destruct (Hids m) as (i & Hi & Hby); [by left|].
    assert (Hget : get w (TItem (IRaw (attributes w m))) = Some m).
    { unfold get, byId_id. rewrite Hi. done. }
    assert (Hfresh : m ∉ modelMap).
    { rewrite Hmap. apply NoDup_app in Hnd as (_ & Hdis & _).
      intros Hm. apply (Hdis m Hm). by left. }
    assert (Hstep : ∃ toMerge1,
              set_step o sortable sortAttr
                (w, Acc done [] toMerge modelMap false (SModel <$> done))
                (IRaw (attributes w m))
              = (w, Acc (done ++ [m]) [] toMerge1 ({[m]} ∪ modelMap) false
                        (SModel <$> done ++ [m]))).
    { unfold set_step. rewrite Hget. cbn [differs]. rewrite andb_true_r.
      rewrite decide_False by done.
      cbn [s_set s_toAdd s_toMerge s_modelMap s_sort s_out item_attrs].
      rewrite fmap_app. cbn [fmap list_fmap].
      destruct (truthy (o_merge o)); [|eauto].
      rewrite existing_set_same by (by eapply has_id_in_heap).
      rewrite hasChanged_same. destruct (sortable && negb false); eauto. }
    destruct Hstep as (toMerge1 & Hstep).
    cbn [fmap list_fmap foldl]. rewrite Hstep.
    destruct (IH (done ++ [m]) toMerge1 ({[m]} ∪ modelMap)) as (tm' & mm' & Hrun & Hmm').
    + by rewrite <- (assoc_L (++)).
    + intros x Hx. apply Hids. by right.
    + intros x. rewrite elem_of_union, elem_of_singleton, elem_of_app,
        list_elem_of_singleton, Hmap. tauto.
    + exists tm', mm'. rewrite <- (assoc_L (++)) in Hrun, Hmm'. done.
Qed.

Lemma filter_none {A} (P : A → Prop) `{!∀ x, Decision (P x)} (l : list A) :
  (∀ x, x ∈ l → ¬ P x) → filter P l = [].
Proof.
  induction l as [|x l IH]; intros Hall; [done|].
  rewrite filter_cons_False by (apply Hall; by left).
  apply IH. intros y Hy. apply Hall. by right.
Qed.

Lemma some_differs_same l : some_differs l l = false.
Proof.
  unfold some_differs. apply not_true_is_false. intros H.
  apply existsb_exists in H as ([i x] & Hin & Hx). simpl in Hx.
  apply list_elem_of_In, elem_of_lookup_imap in Hin as (j & y & [= -> ->] & Hj).
  rewrite Hj in Hx. by rewrite bool_decide_eq_true_2 in Hx.
Qed.

Lemma world_eta w : World (heap w) (next_cid w) (coll w) (log w) = w.
Proof. by destruct w. Qed.

Lemma set_models_same c :
  c_length c = Z.of_nat (length (c_models c)) →
  set_models c (c_models c) (Z.of_nat (length (c_models c))) = c.
Proof. intros H. unfold set_models. rewrite <- H. by destruct c. Qed.

Lemma set_own_json_run o w :
  c_length (coll w) = Z.of_nat (length (c_models (coll w))) →
  NoDup (c_models (coll w)) →
  members_have_ids w →
  ∃ toMerge modelMap,
    set_body (Many (toJSON w)) o w
    = Ok (RMany (SModel <$> c_models (coll w)))
         (if truthy (o_silent o) then w
          else set_events (resolve_at (o_at o) (c_length (coll w)))
                 (Acc (c_models (coll w)) [] toMerge modelMap false
                      (SModel <$> c_models (coll w)))
                 [] false false o w).
Proof.
  intros Hlen Hnd Hids.
  destruct (toJSON_loop o (sortable_of o w) (sortAttr_of w) w (c_models (coll w))
              [] [] ∅) as (tm & mm & Hloop & Hmm).
  { done. } { exact Hids. } { intros x. set_solver. }
  cbn [app fmap list_fmap] in Hloop, Hmm.
  exists tm, mm. unfold set_body, set_loop. cbn [items_of].
  unfold toJSON, empty_acc. rewrite Hloop.
  assert (Hrem : set_remove o (Acc (c_models (coll w)) [] tm mm false
                                 (SModel <$> c_models (coll w))) w
                 = Some (w, o, [])).
  { unfold set_remove. destruct (truthy (o_remove o)); [|done].
    unfold stale_models. rewrite decide_True by lia. cbn [s_modelMap].
    rewrite filter_none; [done|].
    intros x Hx Hnot. apply Hnot, Hmm. by eapply subseteq_take. }
  rewrite Hrem.
  assert (Hupd : set_update (resolve_at (o_at o) (c_length (coll w)))
                   (sortable_of o w) o
                   (Acc (c_models (coll w)) [] tm mm false
                        (SModel <$> c_models (coll w))) w
                 = (w, false, false)).
  { unfold set_update. cbn [s_set s_toAdd s_sort]. cbv zeta.
    destruct (negb (bool_decide (c_models (coll w) = [])) && _).
    - rewrite splice_nil, some_differs_same, bool_decide_eq_true_2 by done.
      cbn [negb orb]. rewrite set_models_same by done.
      unfold with_coll. by rewrite world_eta.
    - by rewrite bool_decide_eq_true_2. }
  rewrite Hupd. done.
Qed.

(** C6, as amended: on a collection of distinct members, [length] being
    their number, that all have an id the index finds them under, [set]
    given the collection's own [toJSON()] returns the members in order and
    leaves the collection and the store as they were: [length] and the
    membership are unchanged, and no [add] or [remove] event is dispatched. *)
Theorem set_own_json_is_quiet (o : options) (w : world) :
  c_length (coll w) = Z.of_nat (length (c_models (coll w))) →
  NoDup (c_models (coll w)) →
  members_have_ids w →
  ∃ w',
    set (Many (toJSON w)) o w = Ok (RMany (SModel <$> c_models (coll w))) w'
    ∧ coll w' = coll w
    ∧ heap w' = heap w
    ∧ reabsorbs_quietly o w.
Proof.
  intros Hlen Hnd Hids.
  destruct (set_own_json_run (extend_setOptions o) w Hlen Hnd Hids)
    as (tm & mm & Hrun).
  change (truthy (o_silent (extend_setOptions o))) with (truthy (o_silent o)) in Hrun.
  assert (Hquiet : ∀ w',
            set (Many (toJSON w)) o w = Ok (RMany (SModel <$> c_models (coll w))) w' →
            coll w' = coll w → 
            Forall (λ e, ¬ membership_event e) (events_since (length (log w)) w') →
            reabsorbs_quietly o w).
  { intros w' Hset Hcoll Hev. unfold reabsorbs_quietly. rewrite Hset.
    cbn [world_of]. rewrite Hcoll. done. }
  destruct (truthy (o_silent o)).
  - exists w. split; [exact Hrun|]. split; [done|]. split; [done|].
    apply (Hquiet w Hrun eq_refl).
    unfold events_since. by rewrite drop_all.
  - eexists. split; [exact Hrun|].
    destruct (set_events_state (resolve_at (o_at (extend_setOptions o)) (c_length (coll w)))
                (Acc (c_models (coll w)) [] tm mm false (SModel <$> c_models (coll w)))
                [] false false (extend_setOptions o) w) as (Hh & _ & Hc).
    split; [exact Hc|]. split; [exact Hh|].
    apply (Hquiet _ Hrun Hc).
    unfold events_since. rewrite fmap_drop, set_events_events.
    rewrite drop_app_length' by (by rewrite length_fmap).
    cbn [s_toAdd s_toMerge add_events orb app]. unfold update_event.
    destruct tm; repeat constructor; by intros [].
Qed.

Lemma set_own_json_is_quiet_witness :
  reabsorbs_quietly no_options one_member.
Proof.
  assert (Hnd : NoDup (c_models (coll one_member))).
  { replace (c_models (coll one_member)) with [0%nat] by reflexivity.
    apply NoDup_singleton. }
  assert (Hids : members_have_ids one_member).
  { intros m Hm.
    replace (c_models (coll one_member)) with [0%nat] in Hm by reflexivity.
    apply list_elem_of_singleton in Hm as ->. exists 1. split; reflexivity. }
  destruct (set_own_json_is_quiet no_options one_member eq_refl Hnd Hids)
    as (w' & _ & _ & _ & Hq).
  exact Hq.
Defined.

(** C6, as stated, fails: a member without an id is not recognised in the
    serialized state; [set] constructs a new model for its hash and removes
    the member. *)
Lemma set_own_json_replaces_idless_member :
  ¬ reabsorbs_quietly no_options
      (world_of (add (One bare) no_options (empty_world None no_validation))).
Proof.
  intros (_ & Hmem & _).
  specialize (Hmem 0%nat). vm_compute in Hmem.
  destruct Hmem as [_ Hmem].
  specialize (Hmem (list_elem_of_here _ _)).
  apply list_elem_of_singleton in Hmem. discriminate.
Qed.

(** ** The index invariant *)

Lemma registered_ext w w' ms ms' :
  c_byId (coll w') = c_byId (coll w) →
  (∀ x, x ∈ ms' ↔ x ∈ ms) →
  (∀ x, x ∈ ms → modelId (attributes w' x) = modelId (attributes w x)) →
  registered w ms → registered w' ms'.
Proof.
  intros Hb Hms Hid (Hc & Hi & He). unfold registered. rewrite Hb.
  split; [|split].
  - intros m Hm. apply Hc. by apply Hms.
  - intros m i Hm Hmi. apply Hms in Hm. apply Hi; [done|]. by rewrite <- Hid.
  - intros k m Hk. destruct (He k m Hk) as (Hm & Hkey).
    split; [by apply Hms|].
    destruct Hkey as [->|(i & -> & Hmi)]; [by left|].
    right. exists i. split; [done|]. by rewrite Hid.
Qed.

Lemma wf_pending_ext w w' p :
  coll w' = coll w →
  (next_cid w ≤ next_cid w')%nat →
  (∀ x, x ∈ c_models (coll w) ++ p →
        modelId (attributes w' x) = modelId (attributes w x)) →
  wf_pending w p → wf_pending w' p.
Proof.
  intros Hc Hn Hid (Hl & Hnd & Hb & Hr). unfold wf_pending. rewrite Hc.
  split; [done|]. split; [done|]. split.
  - intros m Hm. specialize (Hb m Hm). lia.
  - eapply registered_ext; [by rewrite Hc | done | exact Hid | exact Hr].
Qed.

Lemma wf_index_consistent w : wf w → index_consistent w.
Proof.
  intros (Hl & _ & _ & Hc & Hi & He). rewrite app_nil_r in *.
  split; [done|]. split.
  - intros m Hm. split; [by apply Hc|]. intros i. by apply Hi.
  - intros k m Hk. by destruct (He k m Hk).
Qed.

Lemma get_member w ms m :
  registered w ms → m ∈ ms → get w (TItem (IModel m)) = Some m.
Proof.
  intros (Hc & Hi & _) Hm. unfold get, byId_id.
  destruct (modelId (attributes w m)) as [i|] eqn:Hid; simpl.
  - by rewrite (Hi m i Hm Hid).
  - by apply Hc.
Qed.

Lemma get_registered w ms t e :
  registered w ms → get w t = Some e → e ∈ ms.
Proof.
  intros (_ & _ & He) Hget.
  assert (∃ k, c_byId (coll w) !! k = Some e) as [k Hk].
  { unfold get, byId_id in Hget. destruct t as [[m|a]|k].
    - apply orelse_Some in Hget as [Hget|[_ Hget]]; [|eauto].
      destruct (modelId (attributes w m)); [eauto | done].
    - destruct (modelId a); [eauto | done].
    - eauto. }
  by destruct (He k e Hk).
Qed.

(** An item that is matched with another object is matched by its id. *)
Lemma get_differs_same_id w ms it e :
  registered w ms → get w (TItem it) = Some e → differs it e = true →
  modelId (item_attrs w it) = modelId (attributes w e).
Proof.
  intros (_ & _ & He) Hget Hdiff.
  assert (∃ i, modelId (item_attrs w it) = Some i
               ∧ c_byId (coll w) !! KId i = Some e) as (i & Hi & Hk).
  { unfold get, byId_id in Hget. destruct it as [m|a]; cbn [item_attrs].
    - apply orelse_Some in Hget as [Hget|[_ Hget]].
      + destruct (modelId (attributes w m)) as [i|]; [eauto | done].
      + destruct (He _ _ Hget) as (_ & [[= ->]|(i & [=] & _)]).
        simpl in Hdiff. by rewrite bool_decide_eq_true_2 in Hdiff.
    - destruct (modelId a) as [i|]; [eauto | done]. }
  destruct (He _ _ Hk) as (_ & [[=]|(j & [= <-] & Hj)]). congruence.
Qed.

Lemma get_None_unregistered w it :
  get w (TItem it) = None →
  ∀ i, modelId (item_attrs w it) = Some i → c_byId (coll w) !! KId i = None.
Proof.
  unfold get, byId_id. intros Hget i Hi.
  destruct it as [m|a]; cbn [item_attrs] in Hi.
  - apply orelse_None in Hget as [Hget _]. by rewrite Hi in Hget.
  - by rewrite Hi in Hget.
Qed.

Lemma get_None_cid w m :
  get w (TItem (IModel m)) = None → c_byId (coll w) !! KCid m = None.
Proof. unfold get. intros Hget. by apply orelse_None in Hget as [_ ?]. Qed.

Lemma orelse_diag {A} (x : option A) : orelse x x = x.
Proof. by destruct x. Qed.

Lemma set_byId_same c : set_byId c (c_byId c) = c.
Proof. by destruct c. Qed.

Lemma attributes_insert w h m a x :
  heap w = <[m := a]> h →
  attributes w x = if decide (m = x) then a else default empty_attrs (h !! x).
Proof.
  intros Hh. unfold attributes. rewrite Hh.
  destruct (decide (m = x)) as [->|Hne].
  - by rewrite lookup_insert_eq.
  - by rewrite lookup_insert_ne.
Qed.

(** A merge that keeps the id leaves the collection as it is. *)
Lemma existing_set_same_id e new o w :
  modelId new = modelId (attributes w e) →
  coll (existing_set e new o w) = coll w
  ∧ next_cid (existing_set e new o w) = next_cid w
  ∧ ∀ x, modelId (attributes (existing_set e new o w) x) = modelId (attributes w x).
Proof.
  intros Hid.
  assert (Hmerged : modelId (model_set (attributes w e) new) = modelId (attributes w e)).
  { unfold model_set, modelId in *. cbn [a_id]. rewrite Hid. apply orelse_diag. }
  assert (Hattr : ∀ w', heap w' = <[e := model_set (attributes w e) new]> (heap w) →
            ∀ x, modelId (attributes w' x) = modelId (attributes w x)).
  { intros w' Hh x. rewrite (attributes_insert w' _ _ _ x Hh).
    destruct (decide (e = x)) as [<-|]; [exact Hmerged | done]. }
  unfold existing_set.
  destruct (bool_decide _ || truthy _).
  { split; [done|]. split; [done|]. by apply Hattr. }
  destruct (decide _).
  2:{ split; [done|]. split; [done|]. by apply Hattr. }
  unfold _onModelEvent_change.
  rewrite decide_True.
  2:{ symmetry. by apply (Hattr (with_heap w _)). }
  cbn [trigger coll with_coll with_heap next_cid].
  rewrite set_byId_same.
  split; [done|]. split; [done|]. by apply Hattr.
Qed.

Lemma existing_set_wf e new o w p :
  modelId new = modelId (attributes w e) →
  wf_pending w p → wf_pending (existing_set e new o w) p.
Proof.
  intros Hid Hwf.
  destruct (existing_set_same_id e new o w Hid) as (Hc & Hn & Ha).
  eapply wf_pending_ext; [exact Hc | lia | | exact Hwf]. auto.
Qed.

(** Registering a model that is not yet known. *)
Lemma _addReference_wf m w p :
  wf_pending w p →
  (m < next_cid w)%nat →
  m ∉ c_models (coll w) ++ p →
  (∀ i, modelId (attributes w m) = Some i → c_byId (coll w) !! KId i = None) →
  wf_pending (_addReference m w) (p ++ [m]).
Proof.
  intros (Hl & Hnd & Hb & Hc & Hi & He) Hm Hfresh Hfree.
  assert (Hcid : c_byId (coll w) !! KCid m = None).
  { destruct (c_byId (coll w) !! KCid m) as [v|] eqn:Hv; [|done].
    destruct (He _ _ Hv) as (Hin & [[= ->]|(i & [=] & _)]). done. }
  unfold wf_pending.
  assert (Hmem : ∀ x, x ∈ c_models (coll (_addReference m w)) ++ p ++ [m]
                      ↔ x ∈ c_models (coll w) ++ p ∨ x = m).
  { intros x. cbn [_addReference coll with_coll set_listening set_byId c_models].
    rewrite (assoc_L (++)), elem_of_app, list_elem_of_singleton. done. }
  split; [exact Hl|]. split.
  { cbn [_addReference coll with_coll set_listening set_byId c_models].
    rewrite (assoc_L (++)). apply NoDup_app. split; [done|]. split.
    - intros x Hx Hx'. apply list_elem_of_singleton in Hx'. by subst.
    - apply NoDup_singleton. }
  split.
  { intros x Hx. apply Hmem in Hx as [Hx| ->]; [by apply Hb | exact Hm]. }
  assert (Hlook : ∀ k,
            c_byId (coll (_addReference m w)) !! k
            = if decide (k = KCid m) then Some m
              else match modelId (attributes w m) with
                   | Some i => if decide (k = KId i) then Some m
                               else c_byId (coll w) !! k
                   | None => c_byId (coll w) !! k
                   end).
  { intros k. cbn [_addReference coll with_coll set_listening set_byId c_byId].
    destruct (modelId (attributes w m)) as [i|].
    - destruct (decide (k = KCid m)) as [->|Hk1].
      + rewrite lookup_insert_ne by done. by rewrite lookup_insert_eq.
      + destruct (decide (k = KId i)) as [->|Hk2].
        * by rewrite lookup_insert_eq.
        * by rewrite !lookup_insert_ne.
    - destruct (decide (k = KCid m)) as [->|Hk1].
      + by rewrite lookup_insert_eq.
      + by rewrite lookup_insert_ne. }
  split; [|split].
  - intros x Hx. rewrite Hlook. apply Hmem in Hx as [Hx| ->].
    + rewrite decide_False by (intros [= ->]; done).
      destruct (modelId (attributes w m)); [|by apply Hc].
      rewrite decide_False by done. by apply Hc.
    + by rewrite decide_True.
  - intros x i Hx Hxi. rewrite Hlook. rewrite decide_False by done.
    change (attributes (_addReference m w) x) with (attributes w x) in Hxi.
    apply Hmem in Hx as [Hx| ->].
    + destruct (modelId (attributes w m)) as [j|] eqn:Hj; [|by apply Hi].
      destruct (decide (KId i = KId j)) as [[= ->]|]; [|by apply Hi].
      specialize (Hfree j eq_refl). by rewrite (Hi x j Hx Hxi) in Hfree.
    + rewrite Hxi. by rewrite decide_True.
  - intros k v Hk. rewrite Hlook in Hk.
    change (attributes (_addReference m w) v) with (attributes w v).
    rewrite Hmem.
    destruct (decide (k = KCid m)) as [->|Hk1].
    { injection Hk as <-. split; [by right | by left]. }
    destruct (modelId (attributes w m)) as [j|] eqn:Hj.
    + destruct (decide (k = KId j)) as [->|Hk2].
      * injection Hk as <-. split; [by right|]. right. eauto.
      * destruct (He _ _ Hk) as (Hv & Hkey). split; [by left | done].
    + destruct (He _ _ Hk) as (Hv & Hkey). split; [by left | done].
Qed.

Lemma NoDup_snoc {A} (l : list A) (x : A) : NoDup l → x ∉ l → NoDup (l ++ [x]).
Proof.
  intros Hnd Hx. apply NoDup_app. split; [done|]. split.
  - intros y Hy Hy'. apply list_elem_of_singleton in Hy'. by subst.
  - apply NoDup_singleton.
Qed.

(** Keeping a member: the working set takes it once. *)
Lemma keep_existing n0 w w1 a e toMerge1 sort1 slot :
  loop_inv n0 (w, a) →
  e ∈ c_models (coll w) ++ s_toAdd a →
  wf_pending w1 (s_toAdd a) →
  coll w1 = coll w → next_cid w1 = next_cid w →
  loop_inv n0
    (let '(set1, map1) :=
       if decide (e ∈ s_modelMap a) then (s_set a, s_modelMap a)
       else (s_set a ++ [e], {[e]} ∪ s_modelMap a) in
     (w1, Acc set1 (s_toAdd a) toMerge1 map1 sort1 (s_out a ++ [slot]))).
Proof.
  intros (_ & Hnd & Hmap & Hsub & Hadd & Hn) He Hwf Hc Hnext.
  cbn [fst snd] in *.
  destruct (decide (e ∈ s_modelMap a)) as [Hin|Hin]; unfold loop_inv;
    cbn [fst snd s_set s_toAdd s_modelMap]; rewrite Hc, Hnext.
  - done.
  - split; [done|]. split.
    { apply NoDup_snoc; [done|]. by rewrite <- Hmap. }
    split.
    { intros x. rewrite elem_of_union, elem_of_singleton, elem_of_app,
        list_elem_of_singleton, Hmap. tauto. }
    split.
    { intros x Hx. apply elem_of_app in Hx as [Hx|Hx]; [by apply Hsub|].
      apply list_elem_of_singleton in Hx. by subst. }
    split; [|done].
    intros x Hx. apply elem_of_app. left. by apply Hadd.
Qed.

(** Adopting a model: it is registered, pending and in the working set. *)
Lemma adopt_new n0 w w1 a m slot :
  loop_inv n0 (w, a) →
  wf_pending w1 (s_toAdd a) →
  coll w1 = coll w → (next_cid w ≤ next_cid w1)%nat →
  (m < next_cid w1)%nat →
  m ∉ c_models (coll w) ++ s_toAdd a →
  (∀ i, modelId (attributes w1 m) = Some i → c_byId (coll w) !! KId i = None) →
  loop_inv n0
    (_addReference m w1,
     Acc (s_set a ++ [m]) (s_toAdd a ++ [m]) (s_toMerge a)
         ({[m]} ∪ s_modelMap a) (s_sort a) (s_out a ++ [slot])).
Proof.
  intros (_ & Hnd & Hmap & Hsub & Hadd & Hn) Hwf Hc Hnext Hm Hfresh Hfree.
  cbn [fst snd] in *. unfold loop_inv. cbn [fst snd s_set s_toAdd s_modelMap].
  split.
  { apply _addReference_wf; [done | done | by rewrite Hc | by rewrite Hc]. }
  split.
  { apply NoDup_snoc; [done|]. intros Hin. by apply Hfresh, Hsub. }
  split.
  { intros x. rewrite elem_of_union, elem_of_singleton, elem_of_app,
      list_elem_of_singleton, Hmap. tauto. }
  split.
  { intros x Hx.
    change (c_models (coll (_addReference m w1))) with (c_models (coll w1)).
    rewrite Hc, (assoc_L (++)). apply elem_of_app.
    apply elem_of_app in Hx as [Hx|Hx]; [left; by apply Hsub | by right]. }
  split.
  { intros x Hx. apply elem_of_app.
    apply elem_of_app in Hx as [Hx|Hx]; [left; by apply Hadd | by right]. }
  change (next_cid (_addReference m w1)) with (next_cid w1). lia.
Qed.

Lemma set_step_inv n0 o sortable sortAttr st it :
  loop_inv n0 st → item_ok n0 it →
  loop_inv n0 (set_step o sortable sortAttr st it).
Proof.
  destruct st as [w a]. intros Hinv Hok.
  pose proof Hinv as (Hwf & Hnd & Hmap & Hsub & Hadd & Hn). cbn [fst snd] in *.
  pose proof Hwf as (_ & _ & Hbound & Hreg).
  unfold set_step.
  destruct (get w (TItem it)) as [e|] eqn:Hget.
  - assert (He : e ∈ c_models (coll w) ++ s_toAdd a) by (by eapply get_registered).
    destruct (truthy (o_merge o) && differs it e) eqn:Hmerge.
    + apply andb_true_iff in Hmerge as [_ Hdiff].
      pose proof (get_differs_same_id w _ it e Hreg Hget Hdiff) as Hid.
      destruct (existing_set_same_id e (item_attrs w it) o w Hid) as (Hc & Hnext & _).
      apply (keep_existing n0 w); auto using existing_set_wf.
    + by apply (keep_existing n0 w).
  - destruct (truthy (o_add o)); [|done].
    destruct it as [m|r]; cbn [_prepareModel].
    + cbn [item_ok] in Hok.
      apply (adopt_new n0 w w); auto; try lia.
      * intros Hin. pose proof (get_member w _ m Hreg Hin) as Hm. congruence.
      * intros i Hi. by apply (get_None_unregistered w (IModel m)).
    + set (n := next_cid w).
      assert (Hext : ∀ h l,
                (∀ x, x ∈ c_models (coll w) ++ s_toAdd a →
                      default empty_attrs (h !! x) = attributes w x) →
                wf_pending (World h (S n) (coll w) l) (s_toAdd a)).
      { intros h l Hsame.
        eapply wf_pending_ext; [| | |exact Hwf]; cbn [coll next_cid]; [done|lia|].
        intros x Hx. unfold attributes at 1. cbn [heap]. by rewrite Hsame. }
      destruct (failure (c_validate (coll w) r)) as [err|].
      * pose proof (Hext (heap w) (log w ++ [Dispatch (EvInvalid err) (coll w)])
                      (λ x _, eq_refl)) as Hwf1.
        unfold loop_inv. cbn [fst snd trigger coll next_cid s_set s_toAdd s_modelMap].
        split; [exact Hwf1|]. split; [done|]. split; [done|]. split; [done|].
        split; [done|]. subst n. lia.
      * assert (Hwf1 : wf_pending (World (<[n := r]> (heap w)) (S n) (coll w) (log w))
                         (s_toAdd a)).
        { apply Hext. intros x Hx. unfold attributes.
          rewrite lookup_insert_ne; [done|]. specialize (Hbound x Hx). lia. }
        apply (adopt_new n0 w); auto; cbn [coll next_cid]; try (subst n; lia).
        -- intros Hin. specialize (Hbound n Hin). subst n. lia.
        -- intros i Hi. apply (get_None_unregistered w (IRaw r) Hget).
           unfold attributes in Hi. cbn [heap] in Hi.
           by rewrite lookup_insert_eq in Hi.
Qed.

Lemma set_loop_inv models o w :
  wf w → Forall (item_ok (next_cid w)) (items_of models) →
  loop_inv (next_cid w) (set_loop models o w).
Proof.
  intros Hwf Hok. unfold set_loop.
  apply (foldl_invariant (loop_inv (next_cid w))).
  - unfold loop_inv. cbn [fst snd empty_acc s_set s_toAdd s_modelMap].
    split; [exact Hwf|]. split; [apply NoDup_nil_2|].
    split; [intros x; set_solver|]. split; [by intros x ?%elem_of_nil|].
    split; [by intros x ?%elem_of_nil | done].
  - intros st it Hst Hit. apply set_step_inv; [done|].
    rewrite Forall_forall in Hok. by apply Hok.
Qed.

(** ** Removing a member *)

Lemma indexOf_member l m :
  m ∈ l → ∃ i : nat, indexOf l m = Z.of_nat i ∧ l !! i = Some m.
Proof.
  intros Hm. unfold indexOf.
  destruct (list_find (λ x, x = m) l) as [[i x]|] eqn:Hfind.
  - apply list_find_Some in Hfind as (Hi & -> & _). eauto.
  - apply list_find_None in Hfind. rewrite Forall_forall in Hfind.
    by destruct (Hfind m Hm).
Qed.

Lemma splice_out_index l (i : nat) :
  (i < length l)%nat → splice_out l (Z.of_nat i) = delete i l.
Proof.
  intros Hi. unfold splice_out.
  destruct (Z.ltb_spec (Z.of_nat i) 0); [lia|].
  f_equal. lia.
Qed.

Lemma delete_NoDup_member (l : list cid) i m :
  NoDup l → l !! i = Some m →
  NoDup (delete i l)
  ∧ (∀ x, x ∈ delete i l ↔ x ∈ l ∧ x ≠ m)
  ∧ Z.of_nat (length (delete i l)) = Z.of_nat (length l) - 1.
Proof.
  intros Hnd Hi.
  pose proof (lookup_lt_Some _ _ _ Hi) as Hlt.
  split; [|split].
  - eapply sublist_NoDup; [exact Hnd|]. apply sublist_delete.
  - intros x. rewrite delete_take_drop.
    rewrite <- (take_drop_middle l i m Hi) in Hnd at 1.
    rewrite <- (take_drop_middle l i m Hi) at 3.
    apply NoDup_app in Hnd as (_ & Hdis & Hnd2).
    apply NoDup_cons in Hnd2 as (Hm2 & _).
    rewrite !elem_of_app, elem_of_cons. split.
    + intros [Hx|Hx].
      * split; [by left|]. intros ->. apply (Hdis m Hx). by left.
      * split; [right; by right|]. by intros ->.
    + intros [[Hx|[->|Hx]] Hne]; [by left | done | by right].
  - rewrite length_delete by eauto. lia.
Qed.

Lemma remove_one_wf w o removed t p m :
  wf_pending w p → get w t = Some m → m ∈ c_models (coll w) →
  wf_pending (remove_one (w, o, removed) t).1.1 p
  ∧ (∀ x, x ∈ c_models (coll (remove_one (w, o, removed) t).1.1)
          ↔ x ∈ c_models (coll w) ∧ x ≠ m)
  ∧ heap (remove_one (w, o, removed) t).1.1 = heap w
  ∧ next_cid (remove_one (w, o, removed) t).1.1 = next_cid w.
Proof.
  intros (Hl & Hnd & Hb & Hc & Hi & He) Hget Hm.
  destruct (remove_one_spec w o removed t)
    as [[Hnone _]|(m' & w' & Hget' & -> & _ & _ & Hh & Hn & Hms & Hlen & Hby & _)];
    [congruence|].
  assert (m' = m) as -> by congruence.
  destruct (indexOf_member _ _ Hm) as (i & Hidx & Hlook).
  rewrite Hidx, splice_out_index in Hms by (by eapply lookup_lt_Some).
  apply NoDup_app in Hnd as (Hnd1 & Hdis & Hnd2).
  destruct (delete_NoDup_member _ i m Hnd1 Hlook) as (Hnd' & Hmem & Hlen').
  assert (Hmp : m ∉ p) by (by apply Hdis).
  assert (Hmem' : ∀ x, x ∈ c_models (coll w') ++ p
                       ↔ x ∈ c_models (coll w) ++ p ∧ x ≠ m).
  { intros x. rewrite Hms, !elem_of_app, Hmem. split.
    - intros [[? ?]|Hx]; [tauto|]. split; [tauto|]. by intros ->.
    - tauto. }
  assert (Hattr : ∀ x, attributes w' x = attributes w x).
  { intros x. by apply attributes_heap. }
  split; [|split; [|split]]; [|by rewrite Hms|done|done].
  split; [|split; [|split]].
  - rewrite Hlen, Hms, Hl. lia.
  - rewrite Hms. apply NoDup_app. split; [done|]. split; [|done].
    intros x Hx. apply Hdis. by apply Hmem in Hx as [? _].
  - intros x Hx. rewrite Hn. apply Hb. by apply Hmem' in Hx as [? _].
  - split; [|split].
    + intros x Hx. apply Hmem' in Hx as [Hx Hne].
      rewrite Hby, !delete_keys_other by (first [by intros [= ->] | by intros ? ? [=]]).
      by apply Hc.
    + intros x j Hx Hxj. apply Hmem' in Hx as [Hx Hne]. rewrite Hattr in Hxj.
      assert (Hother : ∀ i', modelId (attributes w m) = Some i' → KId j ≠ KId i').
      { intros i' Hmi [= ->]. apply Hne.
        pose proof (Hi x i' Hx Hxj) as H1.
        assert (m ∈ c_models (coll w) ++ p) as Hm' by (apply elem_of_app; by left).
        pose proof (Hi m i' Hm' Hmi) as H2. congruence. }
      rewrite Hby, !delete_keys_other by (first [done | by intros [=]]).
      by apply Hi.
    + intros k v Hk. rewrite Hby in Hk.
      pose proof (delete_keys_Some _ _ _ _ _ (delete_keys_Some _ _ _ _ _ Hk)) as Hk0.
      destruct (He _ _ Hk0) as (Hv & Hkey).
      assert (Hvm : v ≠ m).
      { intros ->. destruct Hkey as [->|(j & -> & Hj)].
        - by rewrite delete_keys_cid in Hk.
        - by rewrite (delete_keys_id _ _ _ _ Hj) in Hk. }
      split; [by apply Hmem'|]. by rewrite Hattr.
Qed.

Lemma remove_one_wf_any w o removed t :
  wf w →
  wf (remove_one (w, o, removed) t).1.1
  ∧ next_cid (remove_one (w, o, removed) t).1.1 = next_cid w.
Proof.
  intros Hwf. destruct (get w t) as [m|] eqn:Hget.
  - assert (Hm : m ∈ c_models (coll w)).
    { destruct Hwf as (_ & _ & _ & Hreg).
      pose proof (get_registered _ _ _ _ Hreg Hget) as Hm.
      by rewrite app_nil_r in Hm. }
    destruct (remove_one_wf w o removed t [] m Hwf Hget Hm) as (? & _ & _ & ?).
    done.
  - destruct (remove_one_spec w o removed t) as [[_ ->]|(m & ? & Hget' & _)];
      [done | congruence].
Qed.

Lemma _removeModels_wf ts o w :
  wf w →
  wf (_removeModels ts o w).1.1
  ∧ next_cid (_removeModels ts o w).1.1 = next_cid w.
Proof.
  intros Hwf. unfold _removeModels.
  apply (foldl_invariant
           (λ st : world * options * list cid,
              wf st.1.1 ∧ next_cid st.1.1 = next_cid w)).
  - done.
  - intros [[w1 o1] removed] t [Hwf1 Hn1] _. cbn [fst] in *.
    destruct (remove_one_wf_any w1 o1 removed t Hwf1) as [? Hn]. split; [done|].
    by rewrite Hn.
Qed.

(** Removing members that are all present, each once. *)
Lemma remove_members_wf ts p :
  ∀ w o removed,
    wf_pending w p → NoDup ts → (∀ m, m ∈ ts → m ∈ c_models (coll w)) →
    wf_pending (foldl remove_one (w, o, removed) (TItem ∘ IModel <$> ts)).1.1 p
    ∧ (∀ x, x ∈ c_models
                  (coll (foldl remove_one (w, o, removed) (TItem ∘ IModel <$> ts)).1.1)
            ↔ x ∈ c_models (coll w) ∧ x ∉ ts)
    ∧ heap (foldl remove_one (w, o, removed) (TItem ∘ IModel <$> ts)).1.1 = heap w
    ∧ next_cid (foldl remove_one (w, o, removed) (TItem ∘ IModel <$> ts)).1.1
      = next_cid w.
Proof.
  induction ts as [|m ts IH]; intros w o removed Hwf Hnd Hin.
  - cbn [fmap list_fmap foldl fst]. split; [done|]. split; [|done].
    intros x. split; [|tauto]. intros Hx. split; [done|]. by intros ?%elem_of_nil.
  - cbn [fmap list_fmap foldl].
    apply NoDup_cons in Hnd as [Hm Hnd].
    assert (Hmem : m ∈ c_models (coll w)) by (apply Hin; by left).
    assert (Hget : get w ((TItem ∘ IModel) m) = Some m).
    { destruct Hwf as (_ & _ & _ & Hreg). eapply get_member; [exact Hreg|].
      apply elem_of_app. by left. }
    destruct (remove_one_wf w o removed ((TItem ∘ IModel) m) p m Hwf Hget Hmem)
      as (Hwf1 & Hmem1 & Hh1 & Hn1).
    destruct (remove_one (w, o, removed) ((TItem ∘ IModel) m)) as [[w1 o1] removed1].
    cbn [fst] in *.
    destruct (IH w1 o1 removed1 Hwf1 Hnd) as (Hwf2 & Hmem2 & Hh2 & Hn2).
    { intros x Hx. apply Hmem1. split; [apply Hin; by right|]. by intros ->. }
    split; [done|]. split; [|split; congruence].
    intros x. rewrite Hmem2, Hmem1, not_elem_of_cons. tauto.
Qed.

Lemma set_remove_wf n0 o w1 a :
  loop_inv n0 (w1, a) →
  ∃ w2 o2 toRemove,
    set_remove o a w1 = Some (w2, o2, toRemove)
    ∧ wf_pending w2 (s_toAdd a)
    ∧ next_cid w2 = next_cid w1
    ∧ (truthy (o_remove o) = true →
       ∀ x, x ∈ c_models (coll w2) ↔ x ∈ c_models (coll w1) ∧ x ∈ s_set a).
Proof.
  intros (Hwf & _ & Hmap & _). cbn [fst snd] in *.
  unfold set_remove. destruct (truthy (o_remove o)).
  2:{ exists w1, o, []. done. }
  pose proof Hwf as (Hl & Hnd & _).
  apply NoDup_app in Hnd as (Hnd & _).
  unfold stale_models. rewrite decide_True by lia.
  rewrite Hl, Nat2Z.id, firstn_all.
  set (ts := filter (λ m, m ∉ s_modelMap a) (c_models (coll w1))).
  assert (Hts : ∀ x, x ∈ c_models (coll w1) ∧ x ∉ ts
                     ↔ x ∈ c_models (coll w1) ∧ x ∈ s_set a).
  { intros x. subst ts. rewrite list_elem_of_filter, <- Hmap.
    destruct (decide (x ∈ s_modelMap a)); tauto. }
  destruct (remove_members_wf ts (s_toAdd a) w1 o [] Hwf) as (Hwf2 & Hmem2 & _ & Hn2).
  { subst ts. by apply NoDup_filter. }
  { intros m Hm. subst ts. by apply list_elem_of_filter in Hm as [_ ?]. }
  destruct ts as [|t ts'] eqn:Htsl.
  - exists w1, o, []. split; [done|]. split; [done|]. split; [done|].
    intros _ x. by rewrite <- Hts.
  - fold (_removeModels (TItem ∘ IModel <$> t :: ts') o w1) in Hwf2, Hmem2, Hn2.
    destruct (_removeModels (TItem ∘ IModel <$> t :: ts') o w1) as [[w2 o2] rem].
    cbn [fst] in *.
    exists w2, o2, (t :: ts'). split; [done|]. split; [done|]. split; [done|].
    intros _ x. by rewrite Hmem2, Hts.
Qed.

Lemma wf_pending_members w w' p ms :
  wf_pending w p →
  heap w' = heap w → next_cid w' = next_cid w →
  c_byId (coll w') = c_byId (coll w) →
  c_models (coll w') = ms →
  c_length (coll w') = Z.of_nat (length ms) →
  NoDup ms →
  (∀ x, x ∈ ms ↔ x ∈ c_models (coll w) ++ p) →
  wf w'.
Proof.
  intros (_ & _ & Hb & Hreg) Hh Hn Hby Hms Hl Hnd Hmem.
  unfold wf, wf_pending. rewrite Hms, app_nil_r.
  split; [done|]. split; [done|]. split.
  - intros x Hx. rewrite Hn. by apply Hb, Hmem.
  - eapply registered_ext; [exact Hby | exact Hmem | | exact Hreg].
    intros x _. by rewrite (attributes_heap w' w x Hh).
Qed.

Lemma set_update_wf at_ sortable o a w2 :
  wf_pending w2 (s_toAdd a) →
  NoDup (s_set a) →
  (truthy (o_remove o) = true →
   ∀ x, x ∈ s_set a ↔ x ∈ c_models (coll w2) ++ s_toAdd a) →
  wf (set_update at_ sortable o a w2).1.1
  ∧ next_cid (set_update at_ sortable o a w2).1.1 = next_cid w2.
Proof.
  intros Hwf Hnd Hset.
  pose proof (set_update_spec at_ sortable o a w2) as Hupd. cbv zeta in Hupd.
  destruct Hupd as (Hh & Hn & _ & Hby & _ & _ & _ & _ & Hshape).
  split; [|done].
  destruct Hshape as [(_ & _ & _ & Hrem & Hms & Hl)|[(_ & Hms & Hl & _)|(Hadd & Hc & _)]].
  - apply (wf_pending_members w2 _ (s_toAdd a) (s_set a)); auto.
  - pose proof Hwf as (_ & Hnd2 & _).
    apply (wf_pending_members w2 _ (s_toAdd a)
             (splice (c_models (coll w2)) (s_toAdd a) (default (c_length (coll w2)) at_)));
      auto.
    + by rewrite Hl, Hms.
    + by rewrite splice_perm.
    + intros x. by rewrite elem_of_splice, elem_of_app.
  - rewrite Hadd in Hwf.
    eapply wf_pending_ext; [exact Hc | lia | | exact Hwf].
    intros x _. by rewrite (attributes_heap _ w2 x Hh).
Qed.

Lemma sort_wf w w' :
  wf w → sort true w = Ok tt w' → wf w' ∧ next_cid w' = next_cid w.
Proof.
  intros Hwf Hsort.
  apply sort_Ok_inv in Hsort as (cmp & _ & Hh & Hn & Hms & Hl & Hby & _).
  split; [|done].
  pose proof Hwf as (Hlen & Hnd & _). rewrite app_nil_r in Hnd.
  apply (wf_pending_members w w' [] (sort_models w cmp (c_models (coll w)))); auto.
  - by rewrite Hl, Hlen, sort_models_perm.
  - by rewrite sort_models_perm.
  - intros x. by rewrite app_nil_r, sort_models_perm.
Qed.

Lemma wf_same_state w w' :
  heap w' = heap w → next_cid w' = next_cid w → coll w' = coll w →
  wf w → wf w'.
Proof.
  intros Hh Hn Hc Hwf. eapply wf_pending_ext; [exact Hc | lia | | exact Hwf].
  intros x _. by rewrite (attributes_heap w' w x Hh).
Qed.

(** [set] keeps the invariant. *)
Lemma set_body_wf models o w :
  wf w → Forall (item_ok (next_cid w)) (items_of models) →
  ∃ r w', set_body models o w = Ok r w' ∧ wf w' ∧ (next_cid w ≤ next_cid w')%nat.
Proof.
  intros Hwf Hok.
  pose proof Hwf as (Hlen & _).
  destruct (set_body_phases models o w) as (w2 & o2 & toRemove & w4 & Hrem & Hsort & Hrun);
    [lia|].
  pose proof (set_loop_inv models o w Hwf Hok) as Hinv.
  destruct (set_loop models o w) as [w1 a]. cbn [fst snd] in *.
  destruct (set_remove_wf _ o w1 a Hinv) as (w2' & o2' & tr' & Hrem' & Hwf2 & Hn2 & Hmem2).
  rewrite Hrem in Hrem'. injection Hrem' as <- <- <-.
  destruct Hinv as (_ & Hnd & _ & Hsub & Hadd & Hn1). cbn [fst snd] in *.
  destruct (set_update_wf (resolve_at (o_at o) (c_length (coll w))) (sortable_of o w)
              o a w2 Hwf2 Hnd) as (Hwf3 & Hn3).
  { intros Hr x. specialize (Hmem2 Hr x). rewrite elem_of_app, Hmem2. split.
    - intros Hx. specialize (Hsub x Hx). apply elem_of_app in Hsub. tauto.
    - intros [[_ ?]|?]; auto. }
  assert (Hwf4 : wf w4 ∧ next_cid w4 = next_cid w2).
  { destruct (set_update _ _ o a w2).1.2.
    - destruct (sort_wf _ _ Hwf3 Hsort) as (? & Hn4). split; [done|]. congruence.
    - injection Hsort as <-. done. }
  destruct Hwf4 as (Hwf4 & Hn4).
  eexists _, _. split; [exact Hrun|].
  destruct (truthy (o_silent o)).
  - split; [done|]. lia.
  - match goal with
    | |- wf (set_events ?x1 ?x2 ?x3 ?x4 ?x5 ?x6 ?x7) ∧ _ =>
        destruct (set_events_state x1 x2 x3 x4 x5 x6 x7) as (Hh & Hn & Hc)
    end.
    split; [by eapply wf_same_state | lia].
Qed.

Lemma set_wf models o w :
  wf w → Forall (item_ok (next_cid w)) (items_of models) →
  ∃ r w', set models o w = Ok r w' ∧ wf w' ∧ (next_cid w ≤ next_cid w')%nat.
Proof.
  intros Hwf Hok. unfold set, set_with.
  destruct models; [by exists RUndefined, w | by apply set_body_wf..].
Qed.

Lemma remove_wf ts o w :
  wf w →
  ∃ r w', remove ts o w = Ok r w' ∧ wf w' ∧ next_cid w' = next_cid w.
Proof.
  intros Hwf. unfold remove.
  destruct (_removeModels_wf (targets_of ts) o w Hwf) as (Hwf1 & Hn1).
  destruct (_removeModels (targets_of ts) o w) as [[w1 o1] removed]. cbn [fst] in *.
  eexists _, _. split; [reflexivity|].
  destruct (negb (truthy (o_silent o1)) && negb (bool_decide (removed = []))); [|done].
  split; [|done]. by eapply wf_same_state.
Qed.

Lemma reset_wf models o w :
  Forall (item_ok (next_cid w)) (items_of models) →
  ∃ r w', reset models o w = Ok r w' ∧ wf w' ∧ (next_cid w ≤ next_cid w')%nat.
Proof.
  intros Hok. unfold reset.
  set (w1 := foldl (λ w' m, _removeReference m w') w (c_models (coll w))).
  assert (Hn1 : next_cid w1 = next_cid w).
  { subst w1. by apply (foldl_invariant (λ w', next_cid w' = next_cid w)). }
  set (w2 := with_coll w1 (_reset (coll w1))).
  assert (Hwf2 : wf w2).
  { unfold wf, wf_pending, registered. subst w2.
    cbn [coll with_coll _reset c_models c_length c_byId app length].
    split; [done|]. split; [apply NoDup_nil_2|]. split; [by intros m ?%elem_of_nil|].
    split; [by intros m ?%elem_of_nil|]. split; [by intros m i ?%elem_of_nil|].
    intros k m Hk. by rewrite lookup_empty in Hk. }
  destruct (set_wf models (extend_addOptions (extend_silent o)) w2 Hwf2)
    as (r & w3 & Hrun & Hwf3 & Hn3).
  { subst w2. cbn [next_cid with_coll]. by rewrite Hn1. }
  unfold add. rewrite Hrun. eexists _, _. split; [reflexivity|].
  assert (Hn : (next_cid w ≤ next_cid w3)%nat).
  { subst w2. cbn [next_cid with_coll] in Hn3. lia. }
  destruct (truthy (o_silent o)); [done|].
  split; [|done]. by eapply wf_same_state.
Qed.

Lemma run_call_wf c w :
  wf w → call_ok c w →
  returns (run_call c w)
  ∧ wf (world_of (run_call c w))
  ∧ (next_cid w ≤ next_cid (world_of (run_call c w)))%nat.
Proof.
  intros Hwf Hok. destruct c as [i o|t o|i o|i o]; cbn [run_call call_ok] in *.
  - destruct (set_wf i (extend_addOptions o) w Hwf Hok) as (r & w' & Hrun & ? & ?).
    unfold add. by rewrite Hrun.
  - destruct (remove_wf t o w Hwf) as (r & w' & Hrun & ? & Hn).
    rewrite Hrun. cbn [returns world_of]. split; [done|]. split; [done|]. lia.
  - destruct (set_wf i o w Hwf Hok) as (r & w' & Hrun & ? & ?). by rewrite Hrun.
  - destruct (reset_wf i o w Hok) as (r & w' & Hrun & ? & ?). by rewrite Hrun.
Qed.

Lemma run_calls_wf cs :
  ∀ w, wf w → well_scoped cs w →
       Forall returns (outcomes cs w) ∧ Forall wf (states_after cs w).
Proof.
  induction cs as [|c cs IH]; intros w Hwf Hok; cbn [outcomes states_after].
  - split; constructor.
  - destruct Hok as [Hc Hrest].
    destruct (run_call_wf c w Hwf Hc) as (Hret & Hwf' & _).
    destruct (IH _ Hwf' Hrest) as (Hrets & Hwfs).
    split; by constructor.
Qed.

Lemma new_collection_wf h n cmp validate l :
  wf (World h n (new_collection cmp validate) l).
Proof.
  unfold wf, wf_pending, registered.
  cbn [coll new_collection c_models c_length c_byId app length].
  split; [done|]. split; [apply NoDup_nil_2|]. split; [by intros m ?%elem_of_nil|].
  split; [by intros m ?%elem_of_nil|]. split; [by intros m i ?%elem_of_nil|].
  intros k m Hk. by rewrite lookup_empty in Hk.
Qed.


(** * Further properties *)

(** ** [splice] and [at] *)

Lemma splice_at_end array insert i :
  Z.of_nat (length array) ≤ i → splice array insert i = array ++ insert.
Proof.
  intros Hi. unfold splice. cbv zeta.
  replace (Z.to_nat _) with (length array) by lia.
  by rewrite firstn_all, drop_all, app_nil_r.
Qed.

Lemma splice_at_start array insert i :
  i ≤ 0 → splice array insert i = insert ++ array.
Proof.
  intros Hi. unfold splice. cbv zeta.
  replace (Z.to_nat _) with 0%nat by lia.
  by rewrite take_0, drop_0.
Qed.

(** X1: [splice] keeps every element: the result is as long as the array
    and the insert together; an index at or past the end appends, an index
    at or below zero prepends. *)
Theorem splice_bounds (array insert : list cid) (i : Z) :
  length (splice array insert i) = (length array + length insert)%nat
  ∧ (Z.of_nat (length array) ≤ i → splice array insert i = array ++ insert)
  ∧ (i ≤ 0 → splice array insert i = insert ++ array).
Proof.
  split; [|split].
  - rewrite splice_perm. apply length_app.
  - apply splice_at_end.
  - apply splice_at_start.
Qed.

Lemma at_in_range c i :
  0 ≤ i < c_length c → at_ c i = c_models c !! Z.to_nat i.
Proof.
  intros Hi. unfold at_. cbv zeta.
  assert (Hf : (i <? 0) = false) by (apply Z.ltb_ge; lia).
  by rewrite Hf, Hf.
Qed.

(** X2: [at] on a collection whose [length] is the length of [models]:
    an index from [0] reads from the front, an index from [-1] down reads
    from the end, and an index out of range answers [undefined]. *)
Theorem at_reads_from_both_ends (c : collection) (i : Z) :
  c_length c = Z.of_nat (length (c_models c)) →
  at_ c i
  = if decide (0 ≤ i < c_length c) then c_models c !! Z.to_nat i
    else if decide (- c_length c ≤ i < 0) then c_models c !! Z.to_nat (c_length c + i)
    else None.
Proof.
  intros Hlen. unfold at_.
  destruct (Z.ltb_spec i 0).
  - rewrite decide_False by lia.
    destruct (Z.ltb_spec (i + c_length c) 0).
    + by rewrite decide_False by lia.
    + rewrite decide_True by lia. f_equal. lia.
  - destruct (Z.ltb_spec i 0); [lia|].
    destruct (decide (0 ≤ i < c_length c)); [done|].
    rewrite decide_False by lia. apply lookup_ge_None. lia.
Qed.

Lemma at_reads_from_both_ends_witness :
  at_ (coll one_member) (-1) = Some 0%nat.
Proof.
  rewrite (at_reads_from_both_ends (coll one_member) (-1) eq_refl).
  reflexivity.
Defined.

(** ** A full iteration *)

Lemma nexts_from k w (done rest : list cid) :
  c_models (coll w) = done ++ rest →
  c_length (coll w) = Z.of_nat (length (c_models (coll w))) →
  nexts (Iterator true k (Z.of_nat (length done))) (replicate (S (length rest)) w)
  = (emitted k w <$> rest) ++ [IterDone].
Proof.
  revert done. induction rest as [|m rest IH]; intros done Hms Hlen.
  - cbn [replicate nexts length fmap list_fmap app]. unfold next.
    cbn [_collection _index _kind].
    rewrite Hlen, Hms, app_nil_r.
    destruct (Z.ltb_spec (Z.of_nat (length done)) (Z.of_nat (length done))); [lia|done].
  - cbn [length]. change (replicate (S (S (length rest))) w)
      with (w :: replicate (S (length rest)) w).
    cbn [nexts]. unfold next at 1. cbn [_collection _index _kind].
    assert (Hlook : at_ (coll w) (Z.of_nat (length done)) = Some m).
    { assert (Hf : (Z.of_nat (length done) <? 0) = false) by (apply Z.ltb_ge; lia).
      unfold at_. cbv zeta. rewrite Hf, Hf.
      rewrite Nat2Z.id, Hms. by apply list_lookup_middle. }
    assert (Hlt : (Z.of_nat (length done) <? c_length (coll w)) = true).
    { apply Z.ltb_lt. rewrite Hlen, Hms, length_app. simpl. lia. }
    rewrite Hlt, Hlook.
    specialize (IH (done ++ [m])).
    rewrite length_app in IH. cbn [length] in IH.
    replace (Z.of_nat (length done) + 1) with (Z.of_nat (length done + 1)) by lia.
    rewrite <- (assoc_L (++)) in IH. specialize (IH Hms Hlen).
    destruct k; cbn [fmap list_fmap app emitted]; by rewrite IH.
Qed.

(** X3: on a collection that is not modified meanwhile, an iterator
    obtained from [values()], [keys()] or [entries()] hands out the members
    in the order of [models] (the model, its id, or the pair of them), one
    per call of [next], and answers done on the call after the last. *)
Theorem iterator_visits_members_in_order (k : kind) (w : world) :
  c_length (coll w) = Z.of_nat (length (c_models (coll w))) →
  nexts (Iterator true k 0) (replicate (S (length (c_models (coll w)))) w)
  = (emitted k w <$> c_models (coll w)) ++ [IterDone].
Proof. intros Hlen. by apply (nexts_from k w []). Qed.

Lemma iterator_visits_members_in_order_witness :
  nexts keys (replicate 2 one_member) = [IterNext (VKey (Some 1)); IterDone].
Proof.
  exact (iterator_visits_members_in_order ITERATOR_KEYS one_member eq_refl).
Defined.

(** ** [push] and [unshift] *)

Lemma add_with_at models o w a :
  o_at o = Some a →
  ∃ r w',
    add models o w = Ok r w'
    ∧ c_models (coll w')
      = splice (c_models (coll w)) (added_by_set models (extend_addOptions o) w)
               (default (c_length (coll w)) (resolve_at (Some a) (c_length (coll w)))).
Proof.
  intros Hat. unfold add, set, set_with, added_by_set.
  set (o' := extend_setOptions (extend_addOptions o)).
  assert (Hns : sortable_of o' w = false).
  { unfold sortable_of. subst o'. simpl. rewrite Hat. simpl.
    by rewrite andb_false_r. }
  destruct (set_body_without_remove models o' w eq_refl) as (w' & Hrun & _ & Heq).
  specialize (Heq Hns).
  replace (o_at o') with (Some a) in Heq by (subst o'; simpl; by rewrite Hat).
  destruct models; [|by eexists _, w'..].
  eexists _, w. split; [reflexivity|].
  unfold set_loop. cbn [items_of foldl snd empty_acc s_toAdd].
  by rewrite splice_nothing.
Qed.

(** X4: [push], called without an [at] of the caller's, returns and
    appends the models it adds to the end of [models], in input order,
    whether or not a comparator is configured. *)
Theorem push_appends (model : input) (o : options) (w : world) :
  o_at o = None →
  c_length (coll w) = Z.of_nat (length (c_models (coll w))) →
  ∃ r w',
    push model o w = Ok r w'
    ∧ c_models (coll w')
      = c_models (coll w)
        ++ added_by_set model (extend_addOptions (extend_at (c_length (coll w)) o)) w.
Proof.
  intros Hat Hlen. unfold push.
  destruct (add_with_at model (extend_at (c_length (coll w)) o) w (c_length (coll w)))
    as (r & w' & Hrun & Hms).
  { cbn [extend_at o_at]. by rewrite Hat. }
  exists r, w'. split; [exact Hrun|]. rewrite Hms.
  apply splice_at_end. unfold resolve_at.
  destruct (Z.gtb_spec (c_length (coll w)) (c_length (coll w))); [lia|].
  destruct (Z.ltb_spec (c_length (coll w)) 0); simpl; lia.
Qed.

Lemma push_appends_witness :
  c_models (coll (world_of (push (Many [hash 7; hash 8]) no_options one_member)))
  = [0%nat; 1%nat; 2%nat].
Proof.
  destruct (push_appends (Many [hash 7; hash 8]) no_options one_member
              eq_refl eq_refl) as (r & w' & Hrun & Hms).
  rewrite Hrun. cbn [world_of]. rewrite Hms. reflexivity.
Defined.

(** X5: [unshift], called without an [at] of the caller's, returns and
    puts the models it adds in front of [models], in input order. *)
Theorem unshift_prepends (model : input) (o : options) (w : world) :
  o_at o = None →
  c_length (coll w) = Z.of_nat (length (c_models (coll w))) →
  ∃ r w',
    unshift model o w = Ok r w'
    ∧ c_models (coll w')
      = added_by_set model (extend_addOptions (extend_at 0 o)) w
        ++ c_models (coll w).
Proof.
  intros Hat Hlen. unfold unshift.
  destruct (add_with_at model (extend_at 0 o) w 0) as (r & w' & Hrun & Hms).
  { cbn [extend_at o_at]. by rewrite Hat. }
  exists r, w'. split; [exact Hrun|]. rewrite Hms.
  apply splice_at_start. unfold resolve_at.
  destruct (Z.gtb_spec 0 (c_length (coll w))); simpl; lia.
Qed.

Lemma unshift_prepends_witness :
  c_models (coll (world_of (unshift (Many [hash 7; hash 8]) no_options one_member)))
  = [1%nat; 2%nat; 0%nat].
Proof.
  destruct (unshift_prepends (Many [hash 7; hash 8]) no_options one_member
              eq_refl eq_refl) as (r & w' & Hrun & Hms).
  rewrite Hrun. cbn [world_of]. rewrite Hms. reflexivity.
Defined.

(** ** Removing one member: [remove], [pop], [shift] *)

Lemma delete_keys_idemp w m b :
  delete_keys w m (delete_keys w m b) = delete_keys w m b.
Proof.
  unfold delete_keys at 1.
  destruct (modelId (attributes w m)) as [i|] eqn:Hi.
  - rewrite (delete_id _ (KCid m)) by apply delete_keys_cid.
    rewrite delete_id; [done|]. by apply delete_keys_id.
  - rewrite delete_id; [done|]. apply delete_keys_cid.
Qed.

Lemma indexOf_NoDup l i m :
  NoDup l → l !! i = Some m → indexOf l m = Z.of_nat i.
Proof.
  intros Hnd Hi.
  destruct (indexOf_member l m) as (j & Hj & Hlook).
  { by eapply list_elem_of_lookup_2. }
  by rewrite Hj, (NoDup_lookup l j i m Hnd Hlook Hi).
Qed.

Lemma wf_NoDup w : wf w → NoDup (c_models (coll w)).
Proof. intros (_ & Hnd & _). by rewrite app_nil_r in Hnd. Qed.

Lemma wf_registered w : wf w → registered w (c_models (coll w)).
Proof. intros (_ & _ & _ & Hreg). by rewrite app_nil_r in Hreg. Qed.

(** Removing the member at index [i]. *)
Lemma remove_member w o m i :
  wf w → c_models (coll w) !! i = Some m →
  ∃ w',
    remove (OneT (TItem (IModel m))) o w = Ok (ROne (SModel m)) w'
    ∧ wf w'
    ∧ c_models (coll w') = delete i (c_models (coll w))
    ∧ c_length (coll w') = c_length (coll w) - 1
    ∧ c_byId (coll w') = delete_keys w m (c_byId (coll w))
    ∧ heap w' = heap w ∧ next_cid w' = next_cid w.
Proof.
  intros Hwf Hi.
  pose proof (list_elem_of_lookup_2 _ _ _ Hi) as Hm.
  assert (Hget : get w (TItem (IModel m)) = Some m)
    by (eapply get_member; [by apply wf_registered | done]).
  unfold remove, _removeModels. cbn [targets_of foldl].
  destruct (remove_one_wf w o [] (TItem (IModel m)) [] m Hwf Hget Hm) as (Hwf1 & _ & _ & _).
  destruct (remove_one_spec w o [] (TItem (IModel m)))
    as [[Hnone _]|(m' & w1 & Hget' & Hw1 & Hrem & _ & Hh & Hn & Hms & Hlen & Hby & _)];
    [congruence|].
  assert (m' = m) as -> by congruence.
  rewrite (indexOf_NoDup _ i m (wf_NoDup w Hwf) Hi), splice_out_index in Hms
    by (by eapply lookup_lt_Some).
  rewrite delete_keys_idemp in Hby.
  destruct (remove_one (w, o, []) (TItem (IModel m))) as [[w1' o1] removed].
  cbn [fst snd app] in *. subst w1' removed.
  cbn [head fmap option_fmap option_map default].
  eexists. split; [reflexivity|].
  match goal with |- wf ?wf ∧ _ =>
    assert (Hsame : heap wf = heap w1 ∧ next_cid wf = next_cid w1 ∧ coll wf = coll w1)
      by (by destruct (negb (truthy (o_silent o1)) && negb (bool_decide ([m] = []))));
    destruct Hsame as (Hh' & Hn' & Hc')
  end.
  rewrite Hc', Hh', Hn'. split; [by eapply wf_same_state|]. done.
Qed.

(** X6: on a well-formed collection [pop] answers [undefined] and changes
    nothing when [models] is empty; otherwise it returns the last model,
    [models] loses exactly that model, [length] drops by one and the model can
    no longer be looked up, by itself or by its [cid]. *)
Theorem pop_removes_last (o : options) (w : world) :
  wf w →
  (c_models (coll w) = [] → pop o w = Ok (ROne SUndefined) w)
  ∧ (∀ init m, c_models (coll w) = init ++ [m] →
       ∃ w', pop o w = Ok (ROne (SModel m)) w'
             ∧ c_models (coll w') = init
             ∧ c_length (coll w') = c_length (coll w) - 1
             ∧ has w' (TItem (IModel m)) = false
             ∧ has w' (TKey (KCid m)) = false).
Proof.
  intros Hwf. pose proof Hwf as (Hlen & _). split.
  - intros Hms. unfold pop, at_. rewrite Hlen, Hms. reflexivity.
  - intros init m Hms.
    assert (Hi : c_models (coll w) !! length init = Some m).
    { rewrite Hms. by apply list_lookup_middle. }
    destruct (remove_member w o m (length init) Hwf Hi)
      as (w' & Hrun & Hwf' & Hms' & Hlen' & Hby & Hh & _).
    assert (Hat : at_ (coll w) (c_length (coll w) - 1) = Some m).
    { rewrite at_in_range by (rewrite Hlen, Hms, length_app; simpl; lia).
      rewrite <- Hi. f_equal. rewrite Hlen, Hms, length_app. simpl. lia. }
    unfold pop. rewrite Hat. cbn [remove_found].
    exists w'. split; [exact Hrun|].
    assert (Hgone : m ∉ c_models (coll w')).
    { rewrite Hms', Hms, delete_middle, app_nil_r.
      pose proof (wf_NoDup w Hwf) as Hnd.
      rewrite Hms in Hnd. apply NoDup_app in Hnd as (_ & Hdis & _).
      intros Hin. apply (Hdis m Hin). by left. }
    split; [by rewrite Hms', Hms, delete_middle, app_nil_r|].
    split; [done|].
    unfold has. split; apply bool_decide_eq_false_2; intros [v Hv];
      pose proof (get_registered _ _ _ _ (wf_registered w' Hwf') Hv) as Hin.
    + assert (v = m) as ->; [|done].
      apply orelse_Some in Hv as [Hv|[_ Hv]].
      * destruct (wf_registered w' Hwf') as (_ & _ & He).
        unfold byId_id in Hv.
        destruct (modelId (attributes w' m)) as [j|] eqn:Hj; [|done].
        simpl in Hv. rewrite Hby in Hv.
        rewrite (attributes_heap w' w m Hh) in Hj.
        by rewrite (delete_keys_id _ _ _ _ Hj) in Hv.
      * rewrite Hby in Hv. by rewrite delete_keys_cid in Hv.
    + unfold get in Hv. rewrite Hby in Hv. by rewrite delete_keys_cid in Hv.
Qed.

Lemma one_member_wf : wf one_member.
Proof.
  unfold one_member, add.
  destruct (set_wf (One (hash 1)) (extend_addOptions no_options)
              (empty_world None no_validation))
    as (r & w' & Hrun & Hwf & _).
  - apply new_collection_wf.
  - repeat constructor.
  - by rewrite Hrun.
Qed.

Lemma pop_removes_last_witness :
  ∃ w', pop no_options one_member = Ok (ROne (SModel 0%nat)) w'
        ∧ c_models (coll w') = [].
Proof.
  destruct (proj2 (pop_removes_last no_options one_member one_member_wf) [] 0%nat eq_refl)
    as (w' & Hrun & Hms & _).
  by exists w'.
Defined.

(** X7: on a well-formed collection [shift] answers [undefined] and
    changes nothing when [models] is empty; otherwise it returns the first
    model and [models] keeps the others, in order. *)
Theorem shift_removes_first (o : options) (w : world) :
  wf w →
  (c_models (coll w) = [] → shift o w = Ok (ROne SUndefined) w)
  ∧ (∀ m rest, c_models (coll w) = m :: rest →
       ∃ w', shift o w = Ok (ROne (SModel m)) w'
             ∧ c_models (coll w') = rest
             ∧ c_length (coll w') = c_length (coll w) - 1).
Proof.
  intros Hwf. pose proof Hwf as (Hlen & _). split.
  - intros Hms. unfold shift, at_. rewrite Hlen, Hms. reflexivity.
  - intros m rest Hms.
    assert (Hi : c_models (coll w) !! 0%nat = Some m) by (by rewrite Hms).
    destruct (remove_member w o m 0 Hwf Hi) as (w' & Hrun & _ & Hms' & Hlen' & _).
    assert (Hat : at_ (coll w) 0 = Some m).
    { rewrite at_in_range by (rewrite Hlen, Hms; simpl; lia). exact Hi. }
    unfold shift. rewrite Hat. cbn [remove_found].
    exists w'. split; [exact Hrun|]. split; [|done].
    by rewrite Hms', Hms.
Qed.

Lemma shift_removes_first_witness :
  ∃ w', shift no_options one_member = Ok (ROne (SModel 0%nat)) w'
        ∧ c_models (coll w') = [].
Proof.
  destruct (proj2 (shift_removes_first no_options one_member one_member_wf)
              0%nat [] eq_refl) as (w' & Hrun & Hms & _).
  by exists w'.
Defined.

(** ** Adding one new model *)

Lemma set_loop_fresh_hash a o w :
  truthy (o_add o) = true →
  get w (TItem (IRaw a)) = None →
  c_validate (coll w) a = None →
  set_loop (One (IRaw a)) o w
  = (_addReference (next_cid w)
       (World (<[next_cid w := a]> (heap w)) (S (next_cid w)) (coll w) (log w)),
     Acc [next_cid w] [next_cid w] [] ({[next_cid w]} ∪ ∅) false
         [SModel (next_cid w)]).
Proof.
  intros Hadd Hget Hval. unfold set_loop. cbn [items_of foldl].
  unfold set_step. rewrite Hget, Hadd. cbn [_prepareModel]. by rewrite Hval.
Qed.

Lemma add_fresh_hash a o w :
  wf w →
  get w (TItem (IRaw a)) = None →
  c_validate (coll w) a = None →
  ∃ w',
    add (One (IRaw a)) o w = Ok (ROne (SModel (next_cid w))) w'
    ∧ wf w'
    ∧ heap w' = <[next_cid w := a]> (heap w)
    ∧ next_cid w' = S (next_cid w)
    ∧ c_byId (coll w')
      = match a_id a with
        | Some i => <[KId i := next_cid w]> (<[KCid (next_cid w) := next_cid w]> (c_byId (coll w)))
        | None => <[KCid (next_cid w) := next_cid w]> (c_byId (coll w))
        end
    ∧ c_models (coll w') ≡ₚ c_models (coll w) ++ [next_cid w]
    ∧ (sortable_of (extend_setOptions (extend_addOptions o)) w = false →
       c_models (coll w')
       = splice (c_models (coll w)) [next_cid w]
           (default (c_length (coll w))
              (resolve_at (o_at o) (c_length (coll w)))))
    ∧ c_length (coll w') = c_length (coll w) + 1.
Proof.
  intros Hwf Hget Hval. pose proof Hwf as (Hlen & _).
  set (o' := extend_setOptions (extend_addOptions o)).
  set (n := next_cid w).
  destruct (set_wf (One (IRaw a)) (extend_addOptions o) w Hwf) as (r & w' & Hrun & Hwf' & _);
    [repeat constructor|].
  unfold add. rewrite Hrun. unfold set, set_with in Hrun. fold o' in Hrun.
  destruct (set_body_without_remove (One (IRaw a)) o' w eq_refl) as (w'' & Hrun' & Hperm & Heq).
  rewrite Hrun in Hrun'. 
  apply set_body_inv in Hrun as (w2 & o2 & toRemove & w4 & Hrem & Hsort & _ & Hw').
  pose proof (set_loop_fresh_hash a o' w eq_refl Hget Hval) as Hloop. fold n in Hloop.
  rewrite Hloop in *. cbn [fst snd s_out s_toAdd shape head default] in *.
  injection Hrun' as -> <-.
  unfold set_remove in Hrem. cbn [truthy o_remove o' extend_setOptions extend_addOptions
                                    orelse default] in Hrem.
  injection Hrem as <- <- <-.
  match type of Hsort with
  | context [set_update ?x1 ?x2 ?x3 ?x4 ?x5] =>
      pose proof (set_update_spec x1 x2 x3 x4 x5) as Hupd;
      destruct (set_update x1 x2 x3 x4 x5) as [[w3 sort3] oc]
  end.
  cbn [fst snd] in *. cbv zeta in Hupd.
  destruct Hupd as (Hh3 & Hn3 & _ & Hby3 & _ & _ & _ & _ & Hshape).
  assert (Hlen3 : c_length (coll w3) = c_length (coll w) + 1).
  { destruct Hshape as [(_ & _ & _ & Hr & _)|[(_ & Hms & Hl & _)|(Hnil & _)]];
      [done| |done].
    rewrite Hl, Hms, splice_perm, length_app. cbn [s_toAdd length].
    change (c_models (coll (_addReference n _))) with (c_models (coll w)). lia. }
  assert (H4 : heap w4 = heap w3 ∧ next_cid w4 = next_cid w3
               ∧ c_byId (coll w4) = c_byId (coll w3)
               ∧ c_length (coll w4) = c_length (coll w3)).
  { destruct sort3.
    - by apply sort_Ok_inv in Hsort as (cmp & _ & ? & ? & _ & ? & ? & _).
    - by injection Hsort as <-. }
  destruct H4 as (Hh4 & Hn4 & Hby4 & Hlen4).
  assert (Hfinal : heap w' = heap w4 ∧ next_cid w' = next_cid w4 ∧ coll w' = coll w4).
  { rewrite Hw'. destruct (truthy (o_silent o')); [done|]. apply set_events_state. }
  destruct Hfinal as (Hh' & Hn' & Hc').
  exists w'. split; [done|]. split; [done|].
  split; [by rewrite Hh', Hh4, Hh3|]. split; [by rewrite Hn', Hn4, Hn3|].
  split.
  { rewrite Hc', Hby4, Hby3.
    cbn [_addReference coll with_coll set_listening set_byId c_byId].
    unfold attributes. cbn [heap]. rewrite lookup_insert_eq. reflexivity. }
  split; [by rewrite Hperm, splice_perm|]. split; [|by rewrite Hc', Hlen4].
  intros Hns. rewrite (Heq Hns). reflexivity.
Qed.

(** X8: adding a raw hash that matches no member and passes validation to
    a well-formed collection returns the model constructed for it; the model
    is a member, [length] grows by one, [get] finds the model by its [cid]
    and by the id of the hash, and every earlier member is still a member
    that [get] finds. *)
Theorem add_then_get (a : attrs) (o : options) (w : world) :
  wf w →
  get w (TItem (IRaw a)) = None →
  c_validate (coll w) a = None →
  ∃ w',
    add (One (IRaw a)) o w = Ok (ROne (SModel (next_cid w))) w'
    ∧ c_models (coll w') ≡ₚ c_models (coll w) ++ [next_cid w]
    ∧ c_length (coll w') = c_length (coll w) + 1
    ∧ get w' (TKey (KCid (next_cid w))) = Some (next_cid w)
    ∧ (∀ i, a_id a = Some i → get w' (TKey (KId i)) = Some (next_cid w))
    ∧ (∀ m, m ∈ c_models (coll w) →
         m ∈ c_models (coll w') ∧ get w' (TItem (IModel m)) = Some m).
Proof.
  intros Hwf Hget Hval.
  destruct (add_fresh_hash a o w Hwf Hget Hval)
    as (w' & Hrun & Hwf' & _ & _ & Hby & Hperm & _ & Hlen).
  exists w'. split; [done|]. split; [done|]. split; [done|].
  split; [|split].
  - unfold get. rewrite Hby. destruct (a_id a).
    + rewrite lookup_insert_ne by done. apply lookup_insert_eq.
    + apply lookup_insert_eq.
  - intros i Hi. unfold get. rewrite Hby, Hi. apply lookup_insert_eq.
  - intros m Hm.
    assert (Hm' : m ∈ c_models (coll w')).
    { rewrite Hperm. apply elem_of_app. by left. }
    split; [done|]. eapply get_member; [by apply wf_registered | done].
Qed.

Lemma add_then_get_witness :
  ∃ w',
    add (One (hash 5)) no_options one_member = Ok (ROne (SModel 1%nat)) w'
    ∧ get w' (TKey (KId 5)) = Some 1%nat.
Proof.
  destruct (add_then_get (Attrs (Some 5) ∅) no_options one_member
              one_member_wf eq_refl eq_refl)
    as (w' & Hrun & _ & _ & _ & Hid & _).
  exists w'. split; [exact Hrun|]. by apply Hid.
Defined.

Lemma unregister_fresh (b : gmap key cid) (n : cid) (i : option Z) :
  b !! KCid n = None →
  (∀ j, i = Some j → b !! KId j = None) →
  match i with
  | Some j => delete (KId j) (delete (KCid n) (<[KId j := n]> (<[KCid n := n]> b)))
  | None => delete (KCid n) (<[KCid n := n]> b)
  end = b.
Proof.
  intros Hc Hi. destruct i as [j|].
  - rewrite delete_insert_ne by done. rewrite delete_insert_eq.
    rewrite (delete_insert_eq b). rewrite (delete_id b (KCid n)) by done.
    apply delete_id. by apply Hi.
  - rewrite delete_insert_eq. by apply delete_id.
Qed.

(** X9: on a well-formed collection, [push] of a raw hash that matches no
    member and passes validation, followed by [pop], returns the model that
    was pushed and restores [models], [length] and the index [_byId]. *)
Theorem push_then_pop (a : attrs) (o o2 : options) (w : world) :
  wf w →
  get w (TItem (IRaw a)) = None →
  c_validate (coll w) a = None →
  o_at o = None →
  ∃ w1 w2,
    push (One (IRaw a)) o w = Ok (ROne (SModel (next_cid w))) w1
    ∧ pop o2 w1 = Ok (ROne (SModel (next_cid w))) w2
    ∧ c_models (coll w2) = c_models (coll w)
    ∧ c_length (coll w2) = c_length (coll w)
    ∧ c_byId (coll w2) = c_byId (coll w).
Proof.
  intros Hwf Hget Hval Hat. pose proof Hwf as (Hlen & _ & Hbound & _).
  set (n := next_cid w).
  destruct (add_fresh_hash a (extend_at (c_length (coll w)) o) w Hwf Hget Hval)
    as (w1 & Hrun & Hwf1 & Hh1 & _ & Hby1 & _ & Hms1 & Hlen1).
  fold n in Hrun, Hh1, Hby1, Hms1.
  assert (Hms : c_models (coll w1) = c_models (coll w) ++ [n]).
  { rewrite Hms1.
    - apply splice_at_end. cbn [extend_at o_at]. rewrite Hat. cbn [orelse resolve_at].
      destruct (Z.gtb_spec (c_length (coll w)) (c_length (coll w))); simpl;
        destruct (Z.ltb_spec (c_length (coll w)) 0); simpl; lia.
    - unfold sortable_of. simpl. rewrite Hat. simpl. by rewrite andb_false_r. }
  assert (Hi : c_models (coll w1) !! length (c_models (coll w)) = Some n).
  { rewrite Hms. by apply list_lookup_middle. }
  destruct (remove_member w1 o2 n _ Hwf1 Hi) as (w2 & Hpop & _ & Hms2 & Hlen2 & Hby2 & _).
  exists w1, w2. split; [exact Hrun|]. split; [|split; [|split]].
  - assert (Hat1 : at_ (coll w1) (c_length (coll w1) - 1) = Some n).
    { rewrite at_in_range by lia. rewrite <- Hi. f_equal. lia. }
    unfold pop. by rewrite Hat1.
  - by rewrite Hms2, Hms, delete_middle, app_nil_r.
  - lia.
  - rewrite Hby2, Hby1. unfold delete_keys, attributes. rewrite Hh1, lookup_insert_eq.
    cbn [default modelId].
    assert (Hfresh : c_byId (coll w) !! KCid n = None).
    { destruct (c_byId (coll w) !! KCid n) as [v|] eqn:Hv; [|done].
      destruct (wf_registered w Hwf) as (_ & _ & He).
      destruct (He _ _ Hv) as (Hin & [[= Heq]|(i & [=] & _)]).
      rewrite <- Heq in Hin.
      assert (n ∈ c_models (coll w) ++ []) as Hin' by (by rewrite app_nil_r).
      specialize (Hbound n Hin'). unfold n in Hbound. lia. }
    assert (Hfree : ∀ j, a_id a = Some j → c_byId (coll w) !! KId j = None).
    { intros j Hj. by apply (get_None_unregistered w (IRaw a) Hget). }
    pose proof (unregister_fresh _ n (a_id a) Hfresh Hfree) as Hu.
    change (modelId (id a)) with (a_id a). by destruct (a_id a).
Qed.

Lemma push_then_pop_witness :
  ∃ w1 w2,
    push (One (hash 5)) no_options one_member = Ok (ROne (SModel 1%nat)) w1
    ∧ pop no_options w1 = Ok (ROne (SModel 1%nat)) w2
    ∧ c_models (coll w2) = c_models (coll one_member)
    ∧ c_byId (coll w2) = c_byId (coll one_member).
Proof.
  destruct (push_then_pop (Attrs (Some 5) ∅) no_options no_options one_member
              one_member_wf eq_refl eq_refl eq_refl)
    as (w1 & w2 & Hpush & Hpop & Hms & _ & Hby).
  by exists w1, w2.
Defined.

(** ** [remove] by any target *)

Lemma remove_one_absent w o removed t :
  get w t = None → remove_one (w, o, removed) t = (w, o, removed).
Proof. intros Hget. unfold remove_one. by rewrite Hget. Qed.

(** X10: [remove] of targets none of which [get] finds (an unknown id, a
    model that is not a member) returns [undefined], or the empty array for
    an array argument, and leaves the collection, the store and the trace
    exactly as they were; no event is triggered. *)
Theorem remove_absent_is_noop (ts : targets) (o : options) (w : world) :
  (∀ t, t ∈ targets_of ts → get w t = None) →
  remove ts o w
  = Ok (match ts with OneT _ => ROne SUndefined | ManyT _ => RMany [] end) w.
Proof.
  intros Habs. unfold remove, _removeModels.
  assert (Hfold : foldl remove_one (w, o, []) (targets_of ts) = (w, o, [])).
  { induction (targets_of ts) as [|t l IH]; [done|].
    cbn [foldl]. rewrite remove_one_absent by (apply Habs; by left).
    apply IH. intros t' Ht'. apply Habs. by right. }
  rewrite Hfold. rewrite bool_decide_eq_true_2 by done.
  rewrite andb_false_r. by destruct ts.
Qed.

Lemma remove_absent_is_noop_witness :
  remove (ManyT [TKey (KId 9); TItem (IModel 4%nat)]) no_options one_member
  = Ok (RMany []) one_member.
Proof.
  apply (remove_absent_is_noop (ManyT [TKey (KId 9); TItem (IModel 4%nat)])).
  intros t Ht. cbn [targets_of] in Ht.
  apply elem_of_cons in Ht as [->|Ht]; [reflexivity|].
  apply list_elem_of_singleton in Ht as ->. reflexivity.
Defined.

Lemma removed_model_Some d m :
  removed_model d = Some m → ∃ idx, d_event d = EvRemove m idx.
Proof.
  unfold removed_model. destruct (d_event d); try discriminate.
  intros [= ->]. eauto.
Qed.

(** What [get] answers once [m] has left and its keys are deleted: what it
    answered before, unless that was [m]. *)
Lemma get_after_remove w w' m t x :
  registered w (c_models (coll w)) → m ∈ c_models (coll w) →
  heap w' = heap w → c_byId (coll w') = delete_keys w m (c_byId (coll w)) →
  get w' t = Some x ↔ get w t = Some x ∧ x ≠ m.
Proof.
  intros (Hcid & Hid & Hinv) Hm Hh Hby.
  assert (Hkey : ∀ k y, c_byId (coll w') !! k = Some y
                        ↔ c_byId (coll w) !! k = Some y ∧ y ≠ m).
  { intros k y. rewrite Hby. split.
    - intros Hk. pose proof (delete_keys_Some _ _ _ _ _ Hk) as Hk0.
      split; [done|]. intros ->.
      destruct (Hinv k m Hk0) as (_ & [->|(i & -> & Hi)]).
      + by rewrite delete_keys_cid in Hk.
      + by rewrite (delete_keys_id w m _ i Hi) in Hk.
    - intros [Hk Hne]. rewrite delete_keys_other; [done| |].
      + intros ->. rewrite (Hcid m Hm) in Hk. congruence.
      + intros i Hi ->. rewrite (Hid m i Hm Hi) in Hk. congruence. }
  assert (Hnone : ∀ k, c_byId (coll w) !! k = None → c_byId (coll w') !! k = None).
  { intros k Hk. destruct (c_byId (coll w') !! k) as [y|] eqn:E; [|done].
    apply Hkey in E as [E _]. congruence. }
  unfold get. destruct t as [[y|a]|k].
  - rewrite (attributes_heap w' w y Hh). unfold byId_id.
    destruct (modelId (attributes w y)) as [i|] eqn:Hi; cbn [mbind option_bind].
    + rewrite !orelse_Some. split.
      * intros [Hk|[Hk1 Hk2]].
        -- apply Hkey in Hk as [Hk Hne]. auto.
        -- apply Hkey in Hk2 as [Hk2 Hne]. split; [|done].
           destruct (Hinv _ _ Hk2) as (Hx & [[= ->]|(? & ? & _)]); [|done].
           left. by apply Hid.
      * intros [[Hk|[Hk1 Hk2]] Hne].
        -- left. by apply Hkey.
        -- right. split; [by apply Hnone | by apply Hkey].
    + cbn [orelse]. apply Hkey.
  - unfold byId_id. destruct (modelId a) as [i|]; cbn [mbind option_bind].
    + apply Hkey.
    + split; [done | by intros [? _]].
  - apply Hkey.
Qed.

(** The loop of [_removeModels] on a well-formed collection: the models
    removed are the members the targets designate, each once, and they are
    the members that leave. *)
Lemma _removeModels_members ts o w :
  wf w →
  wf (_removeModels ts o w).1.1
  ∧ heap (_removeModels ts o w).1.1 = heap w
  ∧ NoDup (_removeModels ts o w).2
  ∧ c_length (coll (_removeModels ts o w).1.1)
    = c_length (coll w) - Z.of_nat (length (_removeModels ts o w).2)
  ∧ (∀ x, x ∈ c_models (coll (_removeModels ts o w).1.1)
          ↔ x ∈ c_models (coll w) ∧ x ∉ (_removeModels ts o w).2)
  ∧ (∀ m, m ∈ (_removeModels ts o w).2 ↔ ∃ t, t ∈ ts ∧ get w t = Some m)
  ∧ (∀ t x, get (_removeModels ts o w).1.1 t = Some x
            ↔ get w t = Some x ∧ x ∉ (_removeModels ts o w).2).
Proof.
  intros Hwf. unfold _removeModels.
  induction ts as [|t ts IH] using rev_ind.
  { cbn [foldl fst snd length].
    split; [done|]. split; [done|]. split; [apply NoDup_nil_2|].
    split; [lia|]. split; [|split].
    - intros x. rewrite elem_of_nil. tauto.
    - intros m. rewrite elem_of_nil. split; [done|].
      by intros (t & ?%elem_of_nil & _).
    - intros t x. rewrite elem_of_nil. tauto. }
  rewrite foldl_snoc.
  destruct IH as (Hwf1 & Hh1 & Hnd1 & Hlen1 & Hmem1 & Hrem1 & Hget1).
  destruct (foldl remove_one (w, o, []) ts) as [[w1 o1] removed].
  cbn [fst snd] in *.
  destruct (remove_one_spec w1 o1 removed t)
    as [[Hnone ->]|(m & w2 & Hgetm & Hw2 & Hrem & _ & Hh & _ & _ & Hlen & Hby & _)].
  - cbn [fst snd]. split_and!; try done.
    intros m. rewrite Hrem1. split.
    + intros (t' & Ht' & Hg). exists t'. split; [|done]. apply elem_of_app. by left.
    + intros (t' & [Ht'| ->%list_elem_of_singleton]%elem_of_app & Hg); [eauto|].
      destruct (decide (m ∈ removed)) as [Hin|Hin]; [by apply Hrem1|].
      assert (get w1 t = Some m) by (by apply Hget1). congruence.
  - assert (Hm1 : m ∈ c_models (coll w1)).
    { eapply get_registered; [by apply wf_registered | exact Hgetm]. }
    destruct (remove_one_wf w1 o1 removed t [] m Hwf1 Hgetm Hm1)
      as (Hwf2 & Hmem2 & _ & _).
    rewrite delete_keys_idemp in Hby.
    rewrite Hw2 in Hwf2, Hmem2. rewrite Hw2, Hrem.
    apply Hget1 in Hgetm as Hgetw. destruct Hgetw as [Hgetw Hfresh].
    split_and!.
    + done.
    + congruence.
    + by apply NoDup_snoc.
    + rewrite Hlen, Hlen1, length_app. cbn [length]. lia.
    + intros x. rewrite Hmem2, Hmem1, elem_of_app, list_elem_of_singleton. tauto.
    + intros x. rewrite elem_of_app, list_elem_of_singleton, Hrem1. split.
      * intros [(t' & Ht' & Hg)| ->].
        -- exists t'. split; [|done]. apply elem_of_app. by left.
        -- exists t. split; [|done]. apply elem_of_app. right. by left.
      * intros (t' & [Ht'| ->%list_elem_of_singleton]%elem_of_app & Hg).
        -- left. eauto.
        -- right. congruence.
    + intros t' x.
      rewrite (get_after_remove w1 w2 m t' x (wf_registered w1 Hwf1) Hm1 Hh Hby).
      rewrite Hget1, elem_of_app, list_elem_of_singleton. tauto.
Qed.



(** ** Adding what is already there *)

Lemma set_steps_present o sortable sortAttr w l :
  truthy (o_merge o) = false →
  Forall (λ it, has w (TItem it) = true) l →
  ∀ a, ∃ a' out,
    foldl (set_step o sortable sortAttr) (w, a) l = (w, a')
    ∧ s_toAdd a' = s_toAdd a ∧ s_toMerge a' = s_toMerge a
    ∧ s_sort a' = s_sort a
    ∧ s_out a' = s_out a ++ out
    ∧ Forall2 (λ it s, ∃ m, get w (TItem it) = Some m ∧ s = SModel m) l out.
Proof.
  intros Hmerge Hall. induction Hall as [|it l Hit _ IH]; intros a.
  - exists a, []. cbn [foldl]. rewrite app_nil_r. repeat split; constructor.
  - unfold has in Hit. apply bool_decide_eq_true_1 in Hit as [m Hget].
    cbn [foldl]. unfold set_step at 2. rewrite Hget, Hmerge. cbn [andb].
    destruct (decide (m ∈ s_modelMap a));
      match goal with |- context [foldl _ (w, ?a1) l] =>
        destruct (IH a1) as (a' & out & -> & HtoAdd & HtoMerge & Hsort & Hout & Hall2)
      end; cbn [s_toAdd s_toMerge s_sort s_out] in *;
      exists a', (SModel m :: out);
      (split; [done|]); rewrite HtoAdd, HtoMerge, Hsort, Hout, <- (assoc_L (++));
      repeat split; constructor; eauto.
Qed.

(** X12: when every item handed to [add] is already found by [get] and
    [merge] is not asked for, [add] leaves the collection, the store and the
    trace exactly as they were, and returns the members found, one per item,
    in input order. *)
Theorem add_present_is_noop (models : input) (o : options) (w : world) :
  truthy (o_merge o) = false →
  Forall (λ it, has w (TItem it) = true) (items_of models) →
  ∃ out,
    add models o w = Ok (shape models out) w
    ∧ Forall2 (λ it s, ∃ m, get w (TItem it) = Some m ∧ s = SModel m)
              (items_of models) out.
Proof.
  intros Hmerge Hall.
  set (o' := extend_setOptions (extend_addOptions o)).
  assert (Hmerge' : truthy (o_merge o') = false).
  { subst o'. unfold truthy in *. simpl. by destruct (o_merge o) as [[]|]. }
  destruct (set_steps_present o' (sortable_of o' w) (sortAttr_of w) w
              (items_of models) Hmerge' Hall empty_acc)
    as (a' & out & Hloop & HtoAdd & HtoMerge & Hsort & Hout & Hall2).
  cbn [empty_acc s_toAdd s_toMerge s_sort s_out app] in *.
  exists out. split; [|done].
  assert (Hrem : truthy (o_remove o') = false) by reflexivity.
  assert (Hbody : set_body models o' w = Ok (shape models out) w).
  { unfold set_body, set_loop. rewrite Hloop.
    unfold set_remove. rewrite Hrem.
    unfold set_update. rewrite Hrem.
    rewrite !andb_false_r, HtoAdd. cbn [bool_decide negb].
    rewrite bool_decide_eq_true_2 by done. cbn [negb].
    rewrite Hsort, Hout.
    destruct (truthy (o_silent o')); [done|].
    unfold set_events. rewrite HtoAdd, HtoMerge. cbn [trigger_adds orb]. done. }
  unfold add, set, set_with. fold o'.
  destruct models as [|it|l]; [|done..].
  by inversion Hall2.
Qed.

Lemma add_present_is_noop_witness :
  ∃ out,
    add (One (hash 1)) no_options one_member = Ok (shape (One (hash 1)) out) one_member
    ∧ Forall2 (λ it s, ∃ m, get one_member (TItem it) = Some m ∧ s = SModel m)
              (items_of (One (hash 1))) out.
Proof.
  apply (add_present_is_noop (One (hash 1)) no_options one_member).
  - reflexivity.
  - repeat constructor.
Defined.

(** ** Removing by any designation *)

Lemma remove_one_by_get w o removed t t' :
  get w t = get w t' → remove_one (w, o, removed) t = remove_one (w, o, removed) t'.
Proof. intros Heq. unfold remove_one. by rewrite Heq. Qed.

(** Once the keys of [m] are deleted, whatever designated [m] designates
    nothing. *)
Lemma get_after_purge w w' t m :
  registered w (c_models (coll w)) → get w t = Some m →
  heap w' = heap w → c_byId (coll w') = delete_keys w m (c_byId (coll w)) →
  get w' t = None.
Proof.
  intros (Hcid & Hid & Hinv) Hget Hh Hby.
  assert (Hkey : ∀ k, c_byId (coll w) !! k = Some m → c_byId (coll w') !! k = None).
  { intros k Hk. rewrite Hby. destruct (Hinv k m Hk) as (_ & [->|(i & -> & Hi)]).
    - apply delete_keys_cid.
    - by apply delete_keys_id. }
  assert (Hany : ∀ k, c_byId (coll w) !! k = None → c_byId (coll w') !! k = None).
  { intros k Hk. rewrite Hby.
    destruct (delete_keys w m (c_byId (coll w)) !! k) eqn:E; [|done].
    apply delete_keys_Some in E. congruence. }
  unfold get in *. destruct t as [[x|a]|k].
  - rewrite (attributes_heap w' w x Hh). unfold byId_id in *.
    destruct (modelId (attributes w x)) as [i|] eqn:Hi; cbn [mbind option_bind] in *.
    + destruct (c_byId (coll w) !! KId i) as [y|] eqn:E1; cbn [orelse] in Hget.
      * injection Hget as ->. rewrite (Hkey _ E1). cbn [orelse].
        destruct (c_byId (coll w) !! KCid x) as [y|] eqn:E2; [|by apply Hany].
        destruct (Hinv _ _ E2) as (Hy & [[= ->]|(? & ? & _)]); [|done].
        pose proof (Hid _ _ Hy Hi) as E3. rewrite E1 in E3. injection E3 as ->.
        by apply Hkey.
      * rewrite (Hany _ E1). cbn [orelse]. by apply Hkey.
    + cbn [orelse] in *. by apply Hkey.
  - unfold byId_id in *. destruct (modelId a); cbn [mbind option_bind] in *; [|done].
    by apply Hkey.
  - by apply Hkey.
Qed.



(** ** Sorting by a key *)

Lemma key_leb_total x y : key_leb x y = true ∨ key_leb y x = true.
Proof. destruct x, y; cbn; auto. lia. Qed.

Lemma key_leb_trans x y z :
  key_leb x y = true → key_leb y z = true → key_leb x z = true.
Proof. destruct x, y, z; cbn; try done. lia. Qed.

Lemma sort_leb_total w cmp :
  key_comparator cmp → Total (λ x y, Is_true (sort_leb w cmp x y)).
Proof.
  intros Hk x y. destruct cmp as [name|f|f]; [| |done]; cbn.
  - destruct (key_leb_total (attr_get name (attributes w x))
                            (attr_get name (attributes w y))) as [->| ->]; auto.
  - rewrite !Is_true_true. lia.
Qed.

Lemma sort_leb_trans w cmp :
  key_comparator cmp → Transitive (λ x y, Is_true (sort_leb w cmp x y)).
Proof.
  intros Hk x y z. destruct cmp as [name|f|f]; [| |done]; cbn.
  - rewrite !Is_true_true. apply key_leb_trans.
  - rewrite !Is_true_true. lia.
Qed.

Lemma sort_models_sorted w cmp l :
  key_comparator cmp → sorted_by w cmp (sort_models w cmp l).
Proof.
  intros Hk. unfold sorted_by, sort_models.
  apply StronglySorted_merge_sort; [by apply sort_leb_trans | by apply sort_leb_total].
Qed.

Lemma sorted_by_heap w w' cmp l :
  heap w' = heap w → sorted_by w cmp l → sorted_by w' cmp l.
Proof.
  intros Hh. unfold sorted_by.
  assert (Heq : ∀ x y, sort_leb w' cmp x y = sort_leb w cmp x y).
  { intros x y. unfold sort_leb. by rewrite !(attributes_heap w' w _ Hh). }
  induction 1 as [|x l _ IH Hall]; constructor; [done|].
  eapply Forall_impl; [exact Hall|]. intros y. cbn. by rewrite Heq.
Qed.

(** X14: with a comparator that is a non-empty attribute name or a
    one-argument function, [sort] returns and leaves [models] in ascending
    order of the sort key, [undefined] last; the models are the same ones,
    and [length], the index and the store are untouched; one [sort] event is
    dispatched unless the call is silent. *)
Theorem sort_orders_by_key (silent : bool) (w : world) (cmp : comparator) :
  truthy_comparator (c_comparator (coll w)) = Some cmp → key_comparator cmp →
  ∃ w',
    sort silent w = Ok tt w'
    ∧ sorted_by w' cmp (c_models (coll w'))
    ∧ c_models (coll w') ≡ₚ c_models (coll w)
    ∧ c_length (coll w') = c_length (coll w)
    ∧ c_byId (coll w') = c_byId (coll w)
    ∧ heap w' = heap w
    ∧ events_since (length (log w)) w' = if silent then [] else [EvSort].
Proof.
  intros Hcmp Hk.
  destruct (sort_with_comparator silent w cmp Hcmp) as [w' Hsort].
  apply truthy_comparator_Some in Hcmp.
  destruct (sort_Ok_inv _ _ _ Hsort)
    as (cmp' & Hcmp' & Hh & _ & Hms & Hlen & Hby & _ & _ & _ & Hlog).
  assert (cmp' = cmp) as -> by congruence.
  exists w'. repeat split; try done.
  - rewrite Hms. apply (sorted_by_heap w); [done|]. by apply sort_models_sorted.
  - rewrite Hms. apply sort_models_perm.
  - unfold events_since. rewrite Hlog. destruct silent.
    + by rewrite drop_all.
    + by rewrite drop_app_length.
Qed.

Lemma sort_orders_by_key_witness :
  ∃ w',
    sort false unsorted_pair = Ok tt w'
    ∧ sorted_by w' by_id (c_models (coll w'))
    ∧ c_models (coll w') ≡ₚ c_models (coll unsorted_pair)
    ∧ c_length (coll w') = c_length (coll unsorted_pair)
    ∧ c_byId (coll w') = c_byId (coll unsorted_pair)
    ∧ heap w' = heap unsorted_pair
    ∧ events_since (length (log unsorted_pair)) w' = [EvSort].
Proof.
  apply (sort_orders_by_key false unsorted_pair by_id).
  - reflexivity.
  - exact I.
Defined.

(** ** Sorted insertion *)

(** X15: in a collection whose comparator is a non-empty attribute name
    or a one-argument function, a call of [add] without [at] and without
    [sort: false] that takes in at least one new model returns and leaves
    [models] in ascending order of the sort key. *)
Theorem add_keeps_sort_order
    (models : input) (o : options) (w : world) (cmp : comparator) :
  truthy_comparator (c_comparator (coll w)) = Some cmp → key_comparator cmp →
  o_at o = None → o_sort o ≠ Some false →
  added_by_set models (extend_addOptions o) w ≠ [] →
  ∃ r w', add models o w = Ok r w' ∧ sorted_by w' cmp (c_models (coll w')).
Proof.
  intros Hcmp Hk Hat Hsort Hadded.
  set (o' := extend_setOptions (extend_addOptions o)).
  assert (Hrem : truthy (o_remove o') = false) by reflexivity.
  assert (Hat' : resolve_at (o_at o') (c_length (coll w)) = None).
  { change (o_at o') with (o_at o). by rewrite Hat. }
  assert (Hsortable : sortable_of o' w = true).
  { unfold sortable_of. rewrite Hat', Hcmp.
    change (o_sort o') with (o_sort o).
    rewrite bool_decide_eq_true_2 by eauto.
    rewrite bool_decide_eq_true_2 by done.
    by rewrite bool_decide_eq_false_2. }
  apply truthy_comparator_Some in Hcmp.
  assert (Hitems : models ≠ Nothing).
  { intros ->. by apply Hadded. }
  assert (Hset : add models o w = set_body models o' w).
  { unfold add, set, set_with. fold o'. by destruct models. }
  destruct (set_body_without_remove models o' w Hrem) as (w' & Hbody & _).
  exists (shape models (s_out (set_loop models o' w).2)), w'.
  split; [by rewrite Hset|].
  destruct (set_body_inv _ _ _ _ _ Hbody)
    as (w2 & o2 & toRemove & w4 & Hremove & Hsorted & _ & Hw').
  unfold set_remove in Hremove. rewrite Hrem in Hremove.
  injection Hremove as <- <- <-.
  unfold added_by_set in Hadded. fold o' in Hadded.
  pose proof (set_loop_keeps_members models o' w) as (_ & _ & Hcmp1 & _).
  rewrite Hat', Hsortable in Hsorted, Hw'.
  unfold set_update in Hsorted. cbn [negb andb] in Hsorted.
  rewrite andb_false_r in Hsorted.
  rewrite (bool_decide_eq_false_2 _ Hadded) in Hsorted.
  cbn [negb orb fst snd] in Hsorted.
  apply sort_Ok_inv in Hsorted
    as (cmp' & Hcmp' & Hh & _ & Hms & _).
  cbn [coll with_coll set_models c_comparator] in Hcmp'.
  assert (cmp' = cmp) as -> by congruence.
  assert (Hstate : heap w' = heap w4 ∧ coll w' = coll w4).
  { rewrite Hw'. destruct (truthy (o_silent o')); [done|].
    by destruct (set_events_state None (set_loop models o' w).2 []
                   (set_update None true o' (set_loop models o' w).2
                      (set_loop models o' w).1).1.2
                   (set_update None true o' (set_loop models o' w).2
                      (set_loop models o' w).1).2
                   o' w4) as (? & _ & ?). }
  destruct Hstate as (Hh' & ->).
  rewrite Hms. eapply sorted_by_heap; [|by apply sort_models_sorted].
  by rewrite Hh'.
Qed.

Lemma add_keeps_sort_order_witness :
  ∃ r w',
    add (One (hash 0)) no_options unsorted_pair = Ok r w'
    ∧ sorted_by w' by_id (c_models (coll w')).
Proof.
  apply (add_keeps_sort_order (One (hash 0)) no_options unsorted_pair by_id).
  - reflexivity.
  - exact I.
  - reflexivity.
  - discriminate.
  - vm_compute. discriminate.
Defined.

(** ** No member twice, no id twice *)

Lemma wf_unique_ids w : wf w → unique_ids w.
Proof.
  intros Hwf m m' i Hm Hm' Hi Hi'.
  destruct (wf_registered w Hwf) as (_ & Hid & _).
  pose proof (Hid m i Hm Hi) as H1. pose proof (Hid m' i Hm' Hi') as H2.
  congruence.
Qed.

(** ** [reset] *)

Lemma removeReferences_spec l w :
  let w1 := foldl (λ w' m, _removeReference m w') w l in
  heap w1 = heap w ∧ next_cid w1 = next_cid w ∧ log w1 = log w
  ∧ c_comparator (coll w1) = c_comparator (coll w)
  ∧ c_validate (coll w1) = c_validate (coll w)
  ∧ ∀ m, m ∈ c_listening (coll w1) ↔ m ∈ c_listening (coll w) ∧ m ∉ l.
Proof.
  cbv zeta. revert w. induction l as [|x l IH]; intros w; cbn [foldl].
  - split_and!; try done. intros m. rewrite elem_of_nil. tauto.
  - destruct (IH (_removeReference x w)) as (-> & -> & -> & -> & -> & Hl).
    split_and!; try done. intros m. rewrite Hl, elem_of_cons.
    unfold _removeReference. cbn [coll with_coll set_listening c_listening].
    rewrite elem_of_difference, elem_of_singleton. tauto.
Qed.

(** X17: [reset] called without models returns [undefined] and leaves the
    collection empty: no models, [length] 0, an empty index under which
    [get] finds nothing, and no former member listened to any more.  The
    store is untouched, and the only event is [reset], unless the call is
    silent. *)
Theorem reset_without_models_empties (o : options) (w : world) :
  ∃ w',
    reset Nothing o w = Ok RUndefined w'
    ∧ c_models (coll w') = [] ∧ c_length (coll w') = 0
    ∧ c_byId (coll w') = ∅
    ∧ (∀ t, get w' t = None)
    ∧ (∀ m, m ∈ c_models (coll w) → m ∉ c_listening (coll w'))
    ∧ heap w' = heap w
    ∧ events_since (length (log w)) w'
      = if truthy (o_silent o) then [] else [EvReset].
Proof.
  unfold reset, add, set, set_with. cbv zeta.
  destruct (removeReferences_spec (c_models (coll w)) w)
    as (Hh & _ & Hlog & _ & _ & Hl).
  set (w1 := foldl (λ w' m, _removeReference m w') w (c_models (coll w))) in *.
  eexists. split; [reflexivity|].
  assert (Hget : ∀ w', c_byId (coll w') = ∅ → ∀ t, get w' t = None).
  { intros w' Hby t. unfold get, byId_id. rewrite Hby.
    destruct t as [[x|a]|k].
    - destruct (modelId (attributes w' x)); cbn; by rewrite !lookup_empty.
    - destruct (modelId a); cbn; by rewrite ?lookup_empty.
    - by rewrite lookup_empty. }
  destruct (truthy (o_silent o));
    cbn [coll with_coll trigger _reset c_models c_length c_byId c_listening heap log].
  - repeat split; try done.
    + by apply Hget.
    + intros m Hm Hin. apply Hl in Hin. tauto.
    + unfold events_since. cbn [log with_coll]. by rewrite Hlog, drop_all.
  - repeat split; try done.
    + by apply Hget.
    + intros m Hm Hin. apply Hl in Hin. tauto.
    + unfold events_since. cbn [log with_coll trigger].
      by rewrite Hlog, drop_app_length.
Qed.

(** A silent call of [set] dispatches nothing but the [invalid] events of
    the items it drops. *)
Lemma existing_set_silent m new o w :
  truthy (o_silent o) = true → log (existing_set m new o w) = log w.
Proof. intros Hs. unfold existing_set. by rewrite Hs, orb_true_r. Qed.

Lemma _prepareModel_invalid it w : grows_by invalid_event w (_prepareModel it w).1.
Proof.
  destruct it as [m|a]; simpl; [apply grows_by_refl|].
  destruct (failure (c_validate (coll w) a)); simpl; [|by apply grows_by_same].
  eexists [_]. split; [reflexivity | by repeat constructor].
Qed.

Lemma set_step_silent o sortable sortAttr st it :
  truthy (o_silent o) = true →
  grows_by invalid_event st.1 (set_step o sortable sortAttr st it).1.
Proof.
  intros Hs. destruct st as [w a]. cbn [fst].
  step_cases w a it o; auto using grows_by_refl.
  - by apply grows_by_same, existing_set_silent.
  - by apply grows_by_same, existing_set_silent.
  - pose proof (_prepareModel_invalid it w) as Hp. by rewrite Hprep in Hp.
  - pose proof (_prepareModel_invalid it w) as Hp. by rewrite Hprep in Hp.
Qed.

Lemma set_loop_silent models o w :
  truthy (o_silent o) = true →
  grows_by invalid_event w (set_loop models o w).1.
Proof.
  intros Hs. unfold set_loop.
  apply (foldl_invariant (λ s : world * acc, grows_by invalid_event w s.1)).
  - apply grows_by_refl.
  - intros s it Hp _. eapply grows_by_trans; [exact Hp | by apply set_step_silent].
Qed.

(** The models the loop of [set] takes in are Model instances of the input
    or models it has just built. *)
Lemma existing_set_next_cid m new o w :
  next_cid (existing_set m new o w) = next_cid w.
Proof.
  unfold existing_set.
  destruct (bool_decide _ || truthy _); [done|]. by destruct (decide _).
Qed.

Lemma set_loop_toAdd_origin models o w x :
  x ∈ s_toAdd (set_loop models o w).2 →
  IModel x ∈ items_of models ∨ (next_cid w ≤ x)%nat.
Proof.
  unfold set_loop. revert x.
  apply (foldl_invariant
           (λ s : world * acc,
              (next_cid w ≤ next_cid s.1)%nat
              ∧ ∀ x, x ∈ s_toAdd s.2 →
                     IModel x ∈ items_of models ∨ (next_cid w ≤ x)%nat)
           _ _ (w, empty_acc)).
  - split; [done|]. by intros x ?%elem_of_nil.
  - intros [w1 a] it (Hn & Hall) Hit. cbn [fst snd] in *.
    step_cases w1 a it (o); cbn [fst snd]; rewrite ?existing_set_next_cid;
      try (split; [lia | exact Hall]).
    + destruct it as [m'|raw]; cbn in Hprep.
      * injection Hprep as <- <-. split; [done|].
        intros x [Hx| ->%list_elem_of_singleton]%elem_of_app; auto.
      * destruct (failure (c_validate (coll w1) raw)); [done|].
        injection Hprep as <- <-. cbn [next_cid _addReference with_coll].
        split; [lia|].
        intros x [Hx| ->%list_elem_of_singleton]%elem_of_app; auto.
    + destruct it as [m'|raw]; cbn in Hprep; [done|].
      destruct (failure (c_validate (coll w1) raw)); [|done].
      injection Hprep as <-. cbn [next_cid trigger]. split; [lia | exact Hall].
Qed.

Lemma add_silent_spec models o w :
  truthy (o_silent o) = true →
  ∃ r w',
    add models o w = Ok r w'
    ∧ grows_by invalid_event w w'
    ∧ ∀ m, m ∈ c_models (coll w') →
        m ∈ c_models (coll w) ∨ IModel m ∈ items_of models ∨ (next_cid w ≤ m)%nat.
Proof.
  intros Hs.
  set (o' := extend_setOptions (extend_addOptions o)).
  assert (Hs' : truthy (o_silent o') = true) by exact Hs.
  assert (Hrem : truthy (o_remove o') = false) by reflexivity.
  unfold add, set. fold o'.
  assert (Hcases : models = Nothing ∨ set_with models o' w = set_body models o' w)
    by (destruct models; auto).
  destruct Hcases as [->|Hwith].
  { eexists _, _. split; [reflexivity|]. split; [apply grows_by_refl | auto]. }
  destruct (set_body_without_remove models o' w Hrem) as (w' & Hbody & Hperm & _).
  exists (shape models (s_out (set_loop models o' w).2)), w'.
  split; [by rewrite Hwith|].
  destruct (set_body_inv _ _ _ _ _ Hbody)
    as (w2 & o2 & toRemove & w4 & Hremove & Hsorted & _ & Hw').
  unfold set_remove in Hremove. rewrite Hrem in Hremove.
  injection Hremove as <- <- <-.
  rewrite Hs' in Hw'. subst w4.
  split.
  - eapply grows_by_trans; [by apply set_loop_silent|].
    apply grows_by_same.
    destruct (set_update_spec (resolve_at (o_at o') (c_length (coll w)))
                (sortable_of o' w) o' (set_loop models o' w).2
                (set_loop models o' w).1) as (_ & _ & Hlog & _).
    cbv zeta in Hlog.
    destruct (set_update _ _ _ _ _).1.2.
    + apply sort_Ok_inv in Hsorted as (_ & _ & _ & _ & _ & _ & _ & _ & _ & _ & ->).
      done.
    + injection Hsorted as <-. done.
  - intros m Hm. rewrite Hperm in Hm. apply elem_of_splice in Hm as [Hm|Hm]; [by left|].
    right. by eapply set_loop_toAdd_origin.
Qed.

(** X18: [reset] with models, called without [silent: false], returns;
    every member afterwards is a Model instance of the input or a model
    built during the call, so no former member stays unless it was handed
    in again; and the events of the call are the [invalid] events of the
    items dropped, followed by one [reset] event unless the call is
    silent: no [add], [remove], [sort] or [update] event. *)
Theorem reset_replaces_members (models : input) (o : options) (w : world) :
  o_silent o ≠ Some false →
  ∃ r w' pre,
    reset models o w = Ok r w'
    ∧ (∀ m, m ∈ c_models (coll w') →
         IModel m ∈ items_of models ∨ (next_cid w ≤ m)%nat)
    ∧ Forall invalid_event pre
    ∧ events_since (length (log w)) w'
      = pre ++ if truthy (o_silent o) then [] else [EvReset].
Proof.
  intros Hsilent. unfold reset.
  destruct (removeReferences_spec (c_models (coll w)) w)
    as (_ & Hn & Hlog & _).
  set (w1 := foldl (λ w' m, _removeReference m w') w (c_models (coll w))) in *.
  set (w2 := with_coll w1 (_reset (coll w1))).
  assert (Hs : truthy (o_silent (extend_silent o)) = true).
  { unfold truthy. cbn. by destruct (o_silent o) as [[]|]. }
  destruct (add_silent_spec models (extend_silent o) w2 Hs)
    as (r & w3 & -> & (new & Hlog3 & Hnew) & Hmem).
  exists r. eexists. exists (d_event <$> new).
  split; [reflexivity|].
  assert (Hlog2 : log w2 = log w) by exact Hlog.
  split; [|split].
  - intros m Hm.
    assert (Hm3 : m ∈ c_models (coll w3)) by (by destruct (truthy (o_silent o))).
    destruct (Hmem m Hm3) as [Hnil|[?|Hge]]; [by apply elem_of_nil in Hnil | by left |].
    right. change (next_cid w2) with (next_cid w1) in Hge. by rewrite <- Hn.
  - by apply Forall_fmap.
  - unfold events_since.
    destruct (truthy (o_silent o)); cbn [trigger log]; rewrite Hlog3, Hlog2.
    + by rewrite drop_app_length, app_nil_r.
    + by rewrite <- (assoc_L (++)), drop_app_length, fmap_app.
Qed.

Lemma reset_replaces_members_witness :
  ∃ r w' pre,
    reset (Many [hash 2; hash (-3)]) no_options
          (world_of (add (One (hash 1)) no_options (empty_world None rejects_negative_ids)))
      = Ok r w'
    ∧ (∀ m, m ∈ c_models (coll w') →
         IModel m ∈ items_of (Many [hash 2; hash (-3)])
         ∨ (next_cid (world_of (add (One (hash 1)) no_options
                                    (empty_world None rejects_negative_ids))) ≤ m)%nat)
    ∧ Forall invalid_event pre
    ∧ events_since
        (length (log (world_of (add (One (hash 1)) no_options
                                    (empty_world None rejects_negative_ids))))) w'
      = pre ++ if truthy (o_silent no_options) then [] else [EvReset].
Proof.
  apply (reset_replaces_members (Many [hash 2; hash (-3)]) no_options
           (world_of (add (One (hash 1)) no_options
                          (empty_world None rejects_negative_ids)))).
  discriminate.
Defined.

(** ** A member changes its id *)

Lemma model_changed_attributes m new w x :
  attributes (model_changed m new w) x
  = if decide (m = x) then new else attributes w x.
Proof. by apply attributes_insert. Qed.

(** The index after a [change] event: the entry under the new id wins, the
    entry under the previous id goes, the others stay. *)
Lemma model_changed_byId m new w k :
  c_byId (coll (model_changed m new w)) !! k
  = if decide (modelId (attributes w m) = modelId new) then c_byId (coll w) !! k
    else if decide (Some k = KId <$> modelId new) then Some m
    else if decide (Some k = KId <$> modelId (attributes w m)) then None
    else c_byId (coll w) !! k.
Proof.
  unfold model_changed, _onModelEvent_change.
  cbn [trigger coll with_coll set_byId c_byId].
  replace (modelId (attributes (with_heap w (<[m:=new]> (heap w))) m))
    with (modelId new).
  2:{ rewrite (attributes_insert _ (heap w) m new m) by done. by rewrite decide_True. }
  cbn [with_heap coll].
  destruct (decide (modelId (attributes w m) = modelId new)) as [Heq|Hne]; [done|].
  destruct (modelId new) as [i|], (modelId (attributes w m)) as [p|];
    cbn [fmap option_fmap option_map].
  - destruct (decide (Some k = Some (KId i))) as [[= ->]|Hk].
    { by rewrite lookup_insert_eq. }
    rewrite lookup_insert_ne by congruence.
    destruct (decide (Some k = Some (KId p))) as [[= ->]|Hk'].
    { by rewrite lookup_delete_eq. }
    rewrite lookup_delete_ne by congruence. done.
  - destruct (decide (Some k = Some (KId i))) as [[= ->]|Hk].
    { by rewrite lookup_insert_eq. }
    rewrite lookup_insert_ne by congruence.
    by rewrite decide_False.
  - rewrite decide_False by done.
    destruct (decide (Some k = Some (KId p))) as [[= ->]|Hk'].
    { by rewrite lookup_delete_eq. }
    rewrite lookup_delete_ne by congruence. done.
  - done.
Qed.

(** X19: when a member of a well-formed collection changes and the id it
    has now is its previous one or is not in use, the handling of its
    [change] event leaves the collection well-formed with the same members:
    the model is found under its new id, no longer under the previous one,
    and the event is passed on, once. *)
Theorem id_change_reindexes (m : cid) (new : attrs) (w : world) :
  wf w → m ∈ c_models (coll w) → id_available m new w →
  wf (model_changed m new w)
  ∧ c_models (coll (model_changed m new w)) = c_models (coll w)
  ∧ get (model_changed m new w) (TItem (IModel m)) = Some m
  ∧ (∀ i, modelId new = Some i →
       get (model_changed m new w) (TKey (KId i)) = Some m)
  ∧ (∀ p, modelId (attributes w m) = Some p → modelId new ≠ Some p →
       get (model_changed m new w) (TKey (KId p)) = None)
  ∧ events_since (length (log w)) (model_changed m new w) = [EvChange m].
Proof.
  intros Hwf Hm Hfree.
  pose proof Hwf as (Hlen & Hnd & Hlt & Hreg).
  rewrite app_nil_r in *. destruct Hreg as (Hcid & Hid & Hinv).
  assert (Hreg' : registered (model_changed m new w) (c_models (coll w))).
  { split; [|split].
    - intros x Hx. rewrite model_changed_byId.
      destruct (decide _); [by apply Hcid|].
      rewrite decide_False by (by destruct (modelId new)).
      rewrite decide_False by (by destruct (modelId (attributes w m))).
      by apply Hcid.
    - intros x i Hx. rewrite model_changed_attributes, model_changed_byId.
      destruct (decide (m = x)) as [<-|Hne].
      + intros Hi. destruct (decide _) as [Heq|Hneq].
        * apply Hid; [done|]. by rewrite Heq.
        * rewrite Hi. cbn. by rewrite decide_True.
      + intros Hi. pose proof (Hid x i Hx Hi) as Hlook.
        destruct (decide _) as [Heq|Hneq]; [done|].
        destruct (decide (Some (KId i) = KId <$> modelId new)) as [Hk|_].
        { destruct (modelId new) as [j|] eqn:Hj; [|done].
          injection Hk as ->. destruct (Hfree j Hj) as [Hp|Hnone]; congruence. }
        destruct (decide (Some (KId i) = KId <$> modelId (attributes w m))) as [Hk|_]; [|done].
        destruct (modelId (attributes w m)) as [p|] eqn:Hp; [|done].
        injection Hk as ->. pose proof (Hid m p Hm Hp). congruence.
    - intros k y. rewrite model_changed_byId, model_changed_attributes.
      destruct (decide (modelId (attributes w m) = modelId new)) as [Heq|Hneq].
      + intros Hk. destruct (Hinv k y Hk) as (Hy & [->|(i & -> & Hi)]); [by auto|].
        split; [done|]. right. exists i. split; [done|].
        destruct (decide (m = y)) as [<-|]; [congruence | done].
      + destruct (decide (Some k = KId <$> modelId new)) as [Hk|_].
        { intros [= <-]. split; [done|]. right.
          destruct (modelId new) as [j|] eqn:Hj; [|done].
          injection Hk as ->. exists j. rewrite decide_True by done. eauto. }
        destruct (decide (Some k = KId <$> modelId (attributes w m))) as [|Hprev]; [done|].
        intros Hk. destruct (Hinv k y Hk) as (Hy & [->|(i & -> & Hi)]); [by auto|].
        split; [done|]. right. exists i. split; [done|].
        destruct (decide (m = y)) as [<-|]; [|done].
        rewrite Hi in Hprev. by destruct Hprev. }
  assert (Hwf' : wf (model_changed m new w)).
  { unfold wf, wf_pending. rewrite app_nil_r. done. }
  split; [done|]. split; [done|]. split; [|split; [|split]].
  - eapply get_member; [exact Hreg' | done].
  - intros i Hi. unfold get. rewrite model_changed_byId.
    destruct (decide _) as [Heq|Hneq].
    + apply Hid; [done|]. by rewrite Heq.
    + rewrite Hi. cbn. by rewrite decide_True.
  - intros p Hp Hne. unfold get. rewrite model_changed_byId.
    rewrite decide_False by congruence.
    rewrite decide_False.
    2:{ destruct (modelId new); [|done]. cbn. congruence. }
    rewrite Hp. cbn. by rewrite decide_True.
  - unfold events_since, model_changed, _onModelEvent_change.
    cbn [trigger log with_coll with_heap]. by rewrite drop_app_length.
Qed.

Lemma id_change_reindexes_witness :
  wf (model_changed 0%nat (Attrs (Some 7) ∅) one_member)
  ∧ c_models (coll (model_changed 0%nat (Attrs (Some 7) ∅) one_member))
    = c_models (coll one_member)
  ∧ get (model_changed 0%nat (Attrs (Some 7) ∅) one_member) (TItem (IModel 0%nat))
    = Some 0%nat
  ∧ (∀ i, modelId (Attrs (Some 7) ∅) = Some i →
       get (model_changed 0%nat (Attrs (Some 7) ∅) one_member) (TKey (KId i))
       = Some 0%nat)
  ∧ (∀ p, modelId (attributes one_member 0%nat) = Some p →
       modelId (Attrs (Some 7) ∅) ≠ Some p →
       get (model_changed 0%nat (Attrs (Some 7) ∅) one_member) (TKey (KId p)) = None)
  ∧ events_since (length (log one_member))
                 (model_changed 0%nat (Attrs (Some 7) ∅) one_member)
    = [EvChange 0%nat].
Proof.
  apply (id_change_reindexes 0%nat (Attrs (Some 7) ∅) one_member).
  - apply one_member_wf.
  - vm_compute. by left.
  - intros i [= <-]. right. reflexivity.
Defined.

(** ** [set] with [add] disabled *)

Lemma existing_set_no_construction m new o w :
  grows_by (λ e, ¬ construction_event e) w (existing_set m new o w).
Proof.
  unfold existing_set.
  destruct (bool_decide _ || truthy _); [by apply grows_by_same|].
  destruct (decide _); [|by apply grows_by_same].
  unfold _onModelEvent_change.
  eexists [_]. split; [reflexivity | repeat constructor; by intros []].
Qed.

Lemma set_step_without_add o sortable sortAttr st it :
  truthy (o_add o) = false →
  s_toAdd (set_step o sortable sortAttr st it).2 = s_toAdd st.2
  ∧ next_cid (set_step o sortable sortAttr st it).1 = next_cid st.1
  ∧ grows_by (λ e, ¬ construction_event e) st.1 (set_step o sortable sortAttr st it).1.
Proof.
  intros Hadd'. destruct st as [w a]. cbn [fst snd].
  step_cases w a it o; try congruence;
    rewrite ?existing_set_next_cid;
    auto using existing_set_no_construction, grows_by_refl.
Qed.

Lemma set_loop_without_add models o w :
  truthy (o_add o) = false →
  s_toAdd (set_loop models o w).2 = []
  ∧ next_cid (set_loop models o w).1 = next_cid w
  ∧ grows_by (λ e, ¬ construction_event e) w (set_loop models o w).1.
Proof.
  intros Hadd. unfold set_loop.
  apply (foldl_invariant
           (λ s : world * acc,
              s_toAdd s.2 = [] ∧ next_cid s.1 = next_cid w
              ∧ grows_by (λ e, ¬ construction_event e) w s.1)).
  - split; [done|]. split; [done|]. apply grows_by_refl.
  - intros s it (H1 & H2 & H3) _.
    destruct (set_step_without_add o (sortable_of o w) (sortAttr_of w) s it Hadd)
      as (-> & -> & H3').
    split; [done|]. split; [done|]. by eapply grows_by_trans.
Qed.

Lemma _removeModels_no_construction ts o w :
  grows_by (λ e, ¬ construction_event e) w (_removeModels ts o w).1.1.
Proof.
  destruct (_removeModels_grows ts o w) as (new & Hlog & Hall).
  destruct (_removeModels_trace ts o w) as (new' & Hlog' & _ & Hev).
  assert (new' = new) as -> by (rewrite Hlog' in Hlog; by apply app_inv_head in Hlog).
  exists new. split; [done|].
  apply Forall_forall. intros d Hd.
  assert (Hr : is_Some (removed_model d)).
  { apply (list_elem_of_fmap_2 removed_model) in Hd. rewrite Hev in Hd.
    destruct (truthy (o_silent o)); [by apply elem_of_nil in Hd|].
    apply list_elem_of_fmap in Hd as (m & -> & _). eauto. }
  unfold removed_model in Hr.
  destruct (d_event d); cbn; first [tauto | by destruct Hr as [? [=]]].
Qed.

Lemma set_remove_no_construction o a w1 w2 o2 toRemove :
  set_remove o a w1 = Some (w2, o2, toRemove) →
  grows_by (λ e, ¬ construction_event e) w1 w2.
Proof.
  unfold set_remove. destruct (truthy (o_remove o)).
  - destruct (stale_models (coll w1) (s_modelMap a)) as [[|m l]|]; [| |done].
    + intros [= <- <- <-]. apply grows_by_refl.
    + pose proof (_removeModels_no_construction (TItem ∘ IModel <$> m :: l) o w1) as Hg.
      destruct (_removeModels _ o w1) as [[w2' o2'] rem].
      by intros [= <- <- <-].
  - intros [= <- <- <-]. apply grows_by_refl.
Qed.

(** X20: a call of [set] with [add: false] builds no model and takes none
    in, whether it returns or throws: the client-id counter stands where it
    stood, every member afterwards was a member before, [length] has not
    grown, and no [add] and no [invalid] event is dispatched. *)
Theorem set_without_add_takes_nothing_in
    (models : input) (o : options) (w : world) :
  o_add o = Some false →
  next_cid (world_of (set models o w)) = next_cid w
  ∧ c_models (coll (world_of (set models o w))) ⊆ c_models (coll w)
  ∧ c_length (coll (world_of (set models o w))) ≤ c_length (coll w)
  ∧ Forall (λ e, ¬ construction_event e)
           (events_since (length (log w)) (world_of (set models o w))).
Proof.
  intros Hadd.
  set (o' := extend_setOptions o).
  assert (Hadd' : truthy (o_add o') = false).
  { subst o'. unfold truthy. cbn. by rewrite Hadd. }
  assert (Hgoal : ∀ w',
    next_cid w' = next_cid w → c_models (coll w') ⊆ c_models (coll w) →
    c_length (coll w') ≤ c_length (coll w) →
    grows_by (λ e, ¬ construction_event e) w w' →
    next_cid w' = next_cid w
    ∧ c_models (coll w') ⊆ c_models (coll w)
    ∧ c_length (coll w') ≤ c_length (coll w)
    ∧ Forall (λ e, ¬ construction_event e) (events_since (length (log w)) w')).
  { intros w' Hn Hms Hlen (new & Hlog & Hall). split_and!; try done.
    unfold events_since. rewrite Hlog, drop_app_length. by apply Forall_fmap. }
  unfold set. fold o'.
  assert (Hbody : models = Nothing ∨ set_with models o' w = set_body models o' w)
    by (destruct models; auto).
  destruct Hbody as [->| ->].
  { apply Hgoal; try done. apply grows_by_refl. }
  destruct (set_loop_without_add models o' w Hadd') as (HtoAdd & Hn1 & Hg1).
  destruct (set_loop_keeps_members models o' w) as (Hms1 & Hlen1 & _).
  unfold set_body. cbv zeta.
  destruct (set_loop models o' w) as [w1 a]. cbn [fst snd] in *.
  destruct (set_remove o' a w1) as [[[w2 o2] toRemove]|] eqn:Hrem.
  2:{ apply Hgoal; cbn [world_of]; try done; [by rewrite Hms1 | lia]. }
  destruct (set_remove_spec _ _ _ _ _ _ Hrem)
    as ((_ & Hn2 & Hms2 & Hlen2 & _) & _).
  pose proof (set_remove_no_construction _ _ _ _ _ _ Hrem) as Hg2.
  unfold set_update. rewrite Hadd', andb_false_r, andb_false_l, andb_false_r, HtoAdd.
  cbn [bool_decide negb fst snd].
  rewrite bool_decide_eq_true_2 by done. cbn [negb fst snd].
  assert (Hsorted : ∃ w4,
    (if s_sort a then sort true w2 else Ok tt w2) = Ok tt w4 ∨
    ((if s_sort a then sort true w2 else Ok tt w2)
       = Throw "Cannot sort a set without a comparator" w4)).
  { destruct (s_sort a); [|eauto]. unfold sort.
    destruct (truthy_comparator (c_comparator (coll w2))); eauto. }
  destruct Hsorted as (w4 & [Hsort|Hsort]); rewrite Hsort.
  2:{ destruct (s_sort a); [|done]. unfold sort in Hsort.
      destruct (truthy_comparator (c_comparator (coll w2))); [done|].
      injection Hsort as <-.
      apply Hgoal; cbn [world_of]; [lia | | lia |].
      - etrans; [exact Hms2 | by rewrite Hms1].
      - by eapply grows_by_trans. }
  assert (H4 : next_cid w4 = next_cid w2 ∧ c_models (coll w4) ⊆ c_models (coll w2)
               ∧ c_length (coll w4) = c_length (coll w2) ∧ log w4 = log w2).
  { destruct (s_sort a).
    - apply sort_Ok_inv in Hsort
        as (cmp & _ & _ & Hn & Hms & Hlen & _ & _ & _ & _ & Hlog).
      split_and!; try done. rewrite Hms. intros x. by rewrite sort_models_perm.
    - by injection Hsort as <-. }
  destruct H4 as (Hn4 & Hms4 & Hlen4 & Hlog4).
  assert (Hg4 : grows_by (λ e, ¬ construction_event e) w w4).
  { eapply grows_by_trans; [exact Hg1|]. eapply grows_by_trans; [exact Hg2|].
    by apply grows_by_same. }
  cbn [world_of].
  destruct (truthy (o_silent o2)).
  { apply Hgoal; [lia | | lia | done].
    etrans; [exact Hms4|]. etrans; [exact Hms2 | by rewrite Hms1]. }
  destruct (set_events_state (resolve_at (o_at o') (c_length (coll w))) a toRemove
              (s_sort a) false o2 w4) as (_ & Hn5 & Hc5).
  apply Hgoal.
  - rewrite Hn5. lia.
  - rewrite Hc5. etrans; [exact Hms4|]. etrans; [exact Hms2 | by rewrite Hms1].
  - rewrite Hc5. lia.
  - destruct Hg4 as (new & Hlog & Hall).
    pose proof (set_events_events (resolve_at (o_at o') (c_length (coll w))) a toRemove
                  (s_sort a) false o2 w4) as Hev.
    rewrite HtoAdd in Hev. cbn [add_events app] in Hev.
    set (w5 := set_events _ _ _ _ _ _ _) in *.
    assert (Hpre : log w4 `prefix_of` log w5) by apply set_events_log.
    destruct Hpre as [tail Htail].
    exists (new ++ tail). split; [by rewrite Htail, Hlog, (assoc_L (++))|].
    apply Forall_app. split; [done|].
    rewrite Htail, fmap_app in Hev. apply app_inv_head in Hev.
    change (Forall ((λ e, ¬ construction_event e) ∘ d_event) tail).
    rewrite <- Forall_fmap, Hev.
    apply Forall_app. split.
    + destruct (s_sort a || false); repeat constructor. by intros [].
    + unfold update_event. destruct toRemove, (s_toMerge a);
        repeat constructor; by intros [].
Qed.

Lemma set_without_add_takes_nothing_in_witness :
  next_cid (world_of (set (Many [hash 2]) (Options (Some false) None None None None None None)
                          one_member))
  = next_cid one_member
  ∧ c_models (coll (world_of (set (Many [hash 2])
                                   (Options (Some false) None None None None None None)
                                   one_member)))
    ⊆ c_models (coll one_member)
  ∧ c_length (coll (world_of (set (Many [hash 2])
                                   (Options (Some false) None None None None None None)
                                   one_member)))
    ≤ c_length (coll one_member)
  ∧ Forall (λ e, ¬ construction_event e)
           (events_since (length (log one_member))
              (world_of (set (Many [hash 2])
                             (Options (Some false) None None None None None None)
                             one_member))).
Proof.
  apply (set_without_add_takes_nothing_in (Many [hash 2])
           (Options (Some false) None None None None None None) one_member).
  reflexivity.
Defined.

(** ** The constructor and [clone] *)

(** Two indexes that register the same members over the same store are
    the same index. *)
Lemma registered_unique w w' ms :
  heap w' = heap w →
  registered w ms → registered w' ms → c_byId (coll w') = c_byId (coll w).
Proof.
  intros Hh (Hcid & Hid & Hinv) (Hcid' & Hid' & Hinv').
  assert (Hle : ∀ b b' : gmap key cid,
            (∀ k m, b !! k = Some m → b' !! k = Some m) →
            (∀ k m, b' !! k = Some m → b !! k = Some m) → b = b').
  { intros b b' H1 H2. apply map_eq. intros k.
    destruct (b !! k) as [m|] eqn:E; [symmetry; by apply H1|].
    destruct (b' !! k) as [m|] eqn:E'; [|done].
    apply H2 in E'. congruence. }
  apply Hle.
  - intros k m Hk. destruct (Hinv' k m Hk) as (Hm & [->|(i & -> & Hi)]); [by apply Hcid|].
    apply Hid; [done|]. by rewrite <- (attributes_heap w' w m Hh).
  - intros k m Hk. destruct (Hinv k m Hk) as (Hm & [->|(i & -> & Hi)]); [by apply Hcid'|].
    apply Hid'; [done|]. by rewrite (attributes_heap w' w m Hh).
Qed.

(** The loop of [set] over Model instances none of which is known yet:
    each is adopted as it is, in input order. *)
Lemma set_steps_adopt o sortable sortAttr l :
  truthy (o_add o) = true →
  ∀ w0 a,
    c_models (coll w0) = [] →
    wf_pending w0 (s_toAdd a) →
    NoDup (s_toAdd a ++ l) →
    (∀ m m' i, m ∈ s_toAdd a ++ l → m' ∈ s_toAdd a ++ l →
       modelId (attributes w0 m) = Some i → modelId (attributes w0 m') = Some i →
       m = m') →
    (∀ m, m ∈ l → (m < next_cid w0)%nat) →
    ∃ w1 a1,
      foldl (set_step o sortable sortAttr) (w0, a) (IModel <$> l) = (w1, a1)
      ∧ s_toAdd a1 = s_toAdd a ++ l
      ∧ heap w1 = heap w0 ∧ next_cid w1 = next_cid w0 ∧ log w1 = log w0.
Proof.
  intros Hadd. induction l as [|m l IH]; intros w0 a Hempty Hwf Hnd Huniq Hlt.
  { exists w0, a. by rewrite app_nil_r. }
  cbn [fmap list_fmap foldl].
  pose proof Hwf as (_ & _ & _ & Hreg). rewrite Hempty in Hreg. cbn [app] in Hreg.
  assert (Hfresh : m ∉ s_toAdd a).
  { intros Hin. apply NoDup_app in Hnd as (_ & Hdis & _).
    apply (Hdis m Hin). by left. }
  assert (Hget : get w0 (TItem (IModel m)) = None).
  { destruct (get w0 (TItem (IModel m))) as [e|] eqn:Hget; [|done].
    pose proof (get_registered w0 _ _ e Hreg Hget) as He.
    destruct Hreg as (_ & _ & Hinv).
    unfold get in Hget. apply orelse_Some in Hget as [Hget|[_ Hget]].
    - unfold byId_id in Hget.
      destruct (modelId (attributes w0 m)) as [i|] eqn:Hi; [|done].
      cbn in Hget. destruct (Hinv _ _ Hget) as (_ & [[=]|(j & [= <-] & Hj)]).
      assert (e = m) as ->; [|done].
      apply (Huniq e m i); rewrite ?elem_of_app, ?elem_of_cons; auto.
    - destruct (Hinv _ _ Hget) as (_ & [[= ->]|(j & [=] & _)]). done. }
  unfold set_step at 2. rewrite Hget, Hadd. cbn [_prepareModel].
  match goal with |- context [foldl _ (?w', ?a') _] =>
    destruct (IH w' a') as (w1 & a1 & -> & HtoAdd & Hh & Hn & Hlog)
  end; cbn [s_toAdd].
  - done.
  - apply _addReference_wf; [done | apply Hlt; by left | by rewrite Hempty |].
    intros i Hi. by apply (get_None_unregistered w0 (IModel m) Hget).
  - by rewrite <- (assoc_L (++)).
  - intros x x' i. rewrite <- (assoc_L (++)). apply Huniq.
  - intros x Hx. apply Hlt. by right.
  - exists w1, a1. split; [done|]. cbn [s_toAdd] in HtoAdd.
    rewrite HtoAdd, <- (assoc_L (++)). done.
Qed.

Lemma reset_of_empty models o w0 :
  c_models (coll w0) = [] →
  reset models o w0
  = match add models (extend_silent o) (with_coll w0 (_reset (coll w0))) with
    | Throw msg w3 => Throw msg w3
    | Ok r w3 => Ok r (if truthy (o_silent o) then w3 else trigger EvReset w3)
    end.
Proof. intros Hempty. unfold reset. by rewrite Hempty. Qed.

(** X21: [clone] of a well-formed collection returns a well-formed
    collection over the same store, with the same comparator, the same
    models, [length] and index, and an empty trace: no model is built and
    nothing is dispatched.  The models are in the same order when there is
    no comparator. *)
Theorem clone_has_same_members (w : world) :
  wf w →
  ∃ w',
    clone w = Ok tt w'
    ∧ wf w'
    ∧ c_models (coll w') ≡ₚ c_models (coll w)
    ∧ (c_comparator (coll w) = None → c_models (coll w') = c_models (coll w))
    ∧ c_length (coll w') = c_length (coll w)
    ∧ c_byId (coll w') = c_byId (coll w)
    ∧ c_comparator (coll w') = c_comparator (coll w)
    ∧ heap w' = heap w ∧ next_cid w' = next_cid w ∧ log w' = [].
Proof.
  intros Hwf.
  pose proof Hwf as (Hlen & _ & Hlt & _). rewrite app_nil_r in Hlt.
  set (cmp := c_comparator (coll w)). set (validate := c_validate (coll w)).
  set (l := c_models (coll w)) in *.
  set (w2 := World (heap w) (next_cid w) (new_collection cmp validate) []).
  set (o' := extend_setOptions
               (extend_addOptions (extend_silent (extend_silent no_options)))).
  assert (Hrem : truthy (o_remove o') = false) by reflexivity.
  assert (Hwf2 : wf w2) by apply new_collection_wf.
  assert (Hok : Forall (item_ok (next_cid w2)) (items_of (Many (IModel <$> l)))).
  { cbn [items_of]. apply Forall_fmap, Forall_forall. intros m Hm. by apply Hlt. }
  destruct (set_body_wf (Many (IModel <$> l)) o' w2 Hwf2 Hok)
    as (r & w3 & Hbody & Hwf3 & _).
  destruct (set_body_without_remove (Many (IModel <$> l)) o' w2 Hrem)
    as (w3' & Hbody' & Hperm & Hsame).
  assert (w3' = w3) as -> by congruence.
  destruct (set_steps_adopt o' (sortable_of o' w2) (sortAttr_of w2) l eq_refl
              w2 empty_acc eq_refl Hwf2)
    as (w1 & a1 & Hloop & HtoAdd & Hh1 & Hn1 & Hlog1).
  { exact (wf_NoDup w Hwf). }
  { intros m m' i Hm Hm'. apply (wf_unique_ids w Hwf); done. }
  { exact Hlt. }
  cbn [empty_acc s_toAdd app] in HtoAdd.
  pose proof (set_loop_keeps_members (Many (IModel <$> l)) o' w2) as (_ & _ & Hcmp1 & _).
  destruct (set_body_inv _ _ _ _ _ Hbody)
    as (w2' & o2 & toRemove & w4 & Hremove & Hsorted & _ & Hw3).
  unfold set_remove in Hremove. rewrite Hrem in Hremove.
  injection Hremove as <- <- <-.
  change (truthy (o_silent o')) with true in Hw3. cbn match in Hw3. subst w4.
  unfold set_loop in Hperm, Hsame, Hsorted, Hcmp1. cbn [items_of] in *.
  rewrite Hloop in Hperm, Hsame, Hsorted, Hcmp1. cbn [fst snd] in *.
  rewrite HtoAdd in Hperm, Hsame.
  change (c_models (coll w2)) with (@nil cid) in Hperm, Hsame.
  rewrite splice_nil in Hperm, Hsame.
  destruct (set_update_spec (resolve_at (o_at o') (c_length (coll w2)))
              (sortable_of o' w2) o' a1 w1)
    as (Hh3 & Hn3 & Hlog3 & _ & Hcmp3 & _).
  cbv zeta in Hsorted.
  assert (H4 : heap w3 = heap w ∧ next_cid w3 = next_cid w ∧ log w3 = []
               ∧ c_comparator (coll w3) = cmp).
  { assert (H3 : heap w3 = heap w1 ∧ next_cid w3 = next_cid w1 ∧ log w3 = log w1
                 ∧ c_comparator (coll w3) = c_comparator (coll w1)).
    { destruct (set_update _ _ _ _ _).1.2.
      - apply sort_Ok_inv in Hsorted
          as (_ & _ & Hh & Hn & _ & _ & _ & Hc & _ & _ & Hlog).
        split_and!; (etrans; [eassumption|]); assumption.
      - injection Hsorted as <-. done. }
    destruct H3 as (-> & -> & -> & ->).
    by rewrite Hh1, Hn1, Hlog1, Hcmp1. }
  destruct H4 as (Hh4 & Hn4 & Hlog4 & Hcmp4).
  exists w3. split.
  { unfold clone, Collection_new. cbv zeta. fold l cmp validate.
    rewrite reset_of_empty by done.
    change (with_coll _ _) with w2.
    unfold add, set, set_with. fold o'. rewrite Hbody. reflexivity. }
  split; [done|]. split; [done|]. split.
  { intros Hnone. apply Hsame. unfold sortable_of.
    change (c_comparator (coll w2)) with cmp. subst cmp. by rewrite Hnone. }
  split.
  { destruct Hwf3 as (-> & _). by rewrite Hperm. }
  split; [|done].
  apply (registered_unique w w3 l Hh4); [by apply wf_registered|].
  eapply registered_ext; [reflexivity | | reflexivity | by apply wf_registered].
  intros x. by rewrite Hperm.
Qed.

Lemma clone_has_same_members_witness :
  ∃ w',
    clone one_member = Ok tt w'
    ∧ wf w'
    ∧ c_models (coll w') ≡ₚ c_models (coll one_member)
    ∧ (c_comparator (coll one_member) = None →
       c_models (coll w') = c_models (coll one_member))
    ∧ c_length (coll w') = c_length (coll one_member)
    ∧ c_byId (coll w') = c_byId (coll one_member)
    ∧ c_comparator (coll w') = c_comparator (coll one_member)
    ∧ heap w' = heap one_member ∧ next_cid w' = next_cid one_member ∧ log w' = [].
Proof. apply (clone_has_same_members one_member), one_member_wf. Defined.

(** ** What [set] returns is what the collection holds *)

Lemma set_step_slots o sortable sortAttr st it :
  truthy (o_add o) = true →
  (∀ x, x ∈ s_modelMap st.2 ↔ x ∈ s_set st.2) →
  (∀ x, x ∈ s_set st.2 ↔ SModel x ∈ s_out st.2) →
  (∀ x, x ∈ s_modelMap (set_step o sortable sortAttr st it).2
        ↔ x ∈ s_set (set_step o sortable sortAttr st it).2)
  ∧ (∀ x, x ∈ s_set (set_step o sortable sortAttr st it).2
          ↔ SModel x ∈ s_out (set_step o sortable sortAttr st it).2).
Proof.
  intros Hadd'. destruct st as [w a]. cbn [fst snd]. intros Hmap Hset.
  step_cases w a it o; try congruence;
    (split; intros x;
     rewrite ?elem_of_app, ?list_elem_of_singleton, ?elem_of_union,
       ?elem_of_singleton, ?Hmap, <- ?Hset; [tauto|]);
    (split; [intros H; try destruct H as [?| ->]; by auto|]);
    intros [?|Heq]; auto; try discriminate;
    injection Heq as ->; first [by right | by apply Hmap].
Qed.

Lemma set_loop_slots models o w :
  truthy (o_add o) = true →
  ∀ x, x ∈ s_set (set_loop models o w).2 ↔ SModel x ∈ s_out (set_loop models o w).2.
Proof.
  intros Hadd. unfold set_loop.
  apply (foldl_invariant
           (λ s : world * acc,
              (∀ x, x ∈ s_modelMap s.2 ↔ x ∈ s_set s.2)
              ∧ (∀ x, x ∈ s_set s.2 ↔ SModel x ∈ s_out s.2))).
  - cbn. split; intros x; rewrite ?elem_of_nil; [by rewrite elem_of_empty | done].
  - intros s it (Hmap & Hset) _. by apply set_step_slots.
Qed.

(** X22: on a well-formed collection, a call of [set] with models, with
    [add] and [remove] left enabled, returns one slot per item, and the
    members afterwards are exactly the models in these slots: the members
    the items matched and the models built from the others, and no former
    member that no item designates. *)
Theorem set_holds_what_it_returns (models : input) (o : options) (w : world) :
  wf w → Forall (item_ok (next_cid w)) (items_of models) →
  models ≠ Nothing → o_add o ≠ Some false → o_remove o ≠ Some false →
  ∃ out w',
    set models o w = Ok (shape models out) w'
    ∧ length out = length (items_of models)
    ∧ ∀ m, m ∈ c_models (coll w') ↔ SModel m ∈ out.
Proof.
  intros Hwf Hok Hsome Hadd Hremove.
  set (o' := extend_setOptions o).
  assert (Hadd' : truthy (o_add o') = true).
  { subst o'. unfold truthy. cbn. by destruct (o_add o) as [[]|]. }
  assert (Hrem' : truthy (o_remove o') = true).
  { subst o'. unfold truthy. cbn. by destruct (o_remove o) as [[]|]. }
  pose proof Hwf as (Hlen & _).
  destruct (set_body_phases models o' w)
    as (w2 & o2 & toRemove & w4 & Hrem & Hsort & Hrun); [lia|].
  pose proof (set_loop_inv models o' w Hwf Hok) as Hinv.
  pose proof (set_loop_slots models o' w Hadd') as Hslots.
  destruct (set_steps_out o' (sortable_of o' w) (sortAttr_of w) (w, empty_acc)
              (items_of models)) as (more & Hmore & Hlenout).
  fold (set_loop models o' w) in Hmore. cbn [snd empty_acc s_out app] in Hmore.
  destruct (set_loop models o' w) as [w1 a]. cbn [fst snd] in *.
  destruct (set_remove_wf _ o' w1 a Hinv) as (w2' & o2' & tr' & Hrem2 & _ & _ & Hmem2).
  rewrite Hrem in Hrem2. injection Hrem2 as <- <- <-.
  specialize (Hmem2 Hrem').
  destruct Hinv as (_ & _ & _ & Hsub & HtoAdd & _). cbn [fst snd] in *.
  exists (s_out a). eexists. split.
  { unfold set, set_with. fold o'. rewrite <- Hrun. by destruct models. }
  split; [by rewrite Hmore|].
  assert (Hmem3 : ∀ x,
            x ∈ c_models (coll (set_update (resolve_at (o_at o') (c_length (coll w)))
                                  (sortable_of o' w) o' a w2).1.1)
            ↔ x ∈ s_set a).
  { intros x.
    destruct (set_update_spec (resolve_at (o_at o') (c_length (coll w)))
                (sortable_of o' w) o' a w2)
      as (_ & _ & _ & _ & _ & _ & _ & _ & Hshape).
    destruct Hshape as [(_ & _ & _ & _ & -> & _)|[(_ & -> & _)|(Hnil & -> & _)]].
    - done.
    - rewrite elem_of_splice, Hmem2. split.
      + intros [[_ ?]|?]; auto.
      + intros Hx. pose proof (Hsub x Hx) as Hx'.
        apply elem_of_app in Hx' as [?|?]; auto.
    - rewrite Hmem2. split; [tauto|].
      intros Hx. pose proof (Hsub x Hx) as Hx'. rewrite Hnil, app_nil_r in Hx'. done. }
  cbv zeta in Hsort.
  assert (Hmem4 : ∀ x, x ∈ c_models (coll w4) ↔ x ∈ s_set a).
  { intros x. rewrite <- Hmem3.
    destruct (set_update _ _ _ _ _).1.2.
    - apply sort_Ok_inv in Hsort as (cmp & _ & _ & _ & -> & _).
      by rewrite sort_models_perm.
    - by injection Hsort as <-. }
  intros m. rewrite <- Hslots, <- Hmem4.
  destruct (truthy (o_silent o')); [done|].
  match goal with
  | |- context [set_events ?x1 ?x2 ?x3 ?x4 ?x5 ?x6 ?x7] =>
      destruct (set_events_state x1 x2 x3 x4 x5 x6 x7) as (_ & _ & ->)
  end.
  done.
Qed.

Lemma set_holds_what_it_returns_witness :
  ∃ out w',
    set (Many [hash 2; hash 3]) no_options one_member
      = Ok (shape (Many [hash 2; hash 3]) out) w'
    ∧ length out = length (items_of (Many [hash 2; hash 3]))
    ∧ ∀ m, m ∈ c_models (coll w') ↔ SModel m ∈ out.
Proof.
  apply (set_holds_what_it_returns (Many [hash 2; hash 3]) no_options one_member).
  - apply one_member_wf.
  - repeat constructor.
  - discriminate.
  - discriminate.
  - discriminate.
Defined.

(** * The events of [set], in order *)

(** ** Lists *)

Lemma filter_all {A} (P : A → Prop) `{!∀ x, Decision (P x)} (l : list A) :
  (∀ x, x ∈ l → P x) → filter P l = l.
Proof.
  induction l as [|x l IH]; intros Hall; [done|].
  rewrite filter_cons_True by (apply Hall; by left).
  f_equal. apply IH. intros y Hy. apply Hall. by right.
Qed.

Lemma filter_agree {A} (P Q : A → Prop)
    `{!∀ x, Decision (P x)} `{!∀ x, Decision (Q x)} (l : list A) :
  (∀ x, x ∈ l → P x ↔ Q x) → filter P l = filter Q l.
Proof.
  induction l as [|x l IH]; intros Hall; [done|].
  assert (Hl : filter P l = filter Q l).
  { apply IH. intros y Hy. apply Hall. by right. }
  rewrite !filter_cons, Hl.
  destruct (decide (P x)) as [HP|HP], (decide (Q x)) as [HQ|HQ]; try done.
  - destruct HQ. apply Hall; [by left | done].
  - destruct HP. apply Hall; [by left | done].
Qed.

(** Filtering a duplicate-free list by membership in one of its sublists
    gives that sublist. *)
Lemma sublist_filter_NoDup (l l2 : list cid) :
  NoDup l → l2 `sublist_of` l → filter (λ x, x ∈ l2) l = l2.
Proof.
  intros Hnd Hsub. induction Hsub as [|x l2 l Hsub IH|x l2 l Hsub IH].
  - done.
  - apply NoDup_cons in Hnd as [Hx Hnd].
    rewrite filter_cons_True by (by left). f_equal.
    etrans; [|exact (IH Hnd)]. apply filter_agree.
    intros y Hy. rewrite elem_of_cons. split; [|by right].
    intros [->|?]; done.
  - apply NoDup_cons in Hnd as [Hx Hnd].
    rewrite filter_cons_False; [by apply IH|].
    intros Hin. apply Hx. by apply (sublist_subseteq _ _ Hsub).
Qed.

(** No position of [models] differs from [set_], and they are as long:
    they are the same list. *)
Lemma some_differs_false models set_ :
  some_differs models set_ = false → length models = length set_ →
  models = set_.
Proof.
  intros Hsome Hlen. apply list_eq. intros i.
  destruct (models !! i) as [m|] eqn:Hi.
  - destruct (decide (set_ !! i = Some m)) as [->|Hne]; [done|].
    assert (some_differs models set_ = true); [|congruence].
    unfold some_differs. apply existsb_exists. exists (i, m). split.
    + apply list_elem_of_In, elem_of_lookup_imap. eauto.
    + cbn. by rewrite bool_decide_eq_false_2.
  - symmetry. apply lookup_ge_None. apply lookup_ge_None in Hi. lia.
Qed.

(** ** Removal keeps the order *)

Lemma remove_one_sublist w o removed t :
  c_models (coll (remove_one (w, o, removed) t).1.1) `sublist_of` c_models (coll w).
Proof.
  destruct (remove_one_spec w o removed t)
    as [[_ ->]|(m & w' & _ & Hw' & _ & _ & _ & _ & Hms & _)]; [done|].
  rewrite Hw', Hms. unfold splice_out. apply sublist_delete.
Qed.

Lemma _removeModels_sublist ts o w :
  c_models (coll (_removeModels ts o w).1.1) `sublist_of` c_models (coll w).
Proof.
  unfold _removeModels.
  apply (foldl_invariant
           (λ st : world * options * list cid,
              c_models (coll st.1.1) `sublist_of` c_models (coll w))).
  - done.
  - intros [[w1 o1] removed] t Hsub _. cbn [fst] in *.
    etrans; [apply remove_one_sublist | exact Hsub].
Qed.

Lemma set_remove_sublist o a w1 w2 o2 toRemove :
  set_remove o a w1 = Some (w2, o2, toRemove) →
  c_models (coll w2) `sublist_of` c_models (coll w1).
Proof.
  unfold set_remove. destruct (truthy (o_remove o)).
  - destruct (stale_models (coll w1) (s_modelMap a)) as [[|m l]|]; [| |done].
    + by intros [= <- <- <-].
    + pose proof (_removeModels_sublist (TItem ∘ IModel <$> m :: l) o w1) as Hsub.
      destruct (_removeModels _ o w1) as [[w2' o2'] rem].
      by intros [= <- <- <-].
  - by intros [= <- <- <-].
Qed.

(** The models [set] stages for removal. *)
Lemma set_remove_stale o a w1 w2 o2 toRemove :
  c_length (coll w1) = Z.of_nat (length (c_models (coll w1))) →
  set_remove o a w1 = Some (w2, o2, toRemove) →
  toRemove = if truthy (o_remove o)
             then filter (λ m, m ∉ s_modelMap a) (c_models (coll w1))
             else [].
Proof.
  intros Hl. unfold set_remove. destruct (truthy (o_remove o)).
  - unfold stale_models. rewrite decide_True by lia.
    rewrite Hl, Nat2Z.id, firstn_all.
    destruct (filter (λ m, m ∉ s_modelMap a) (c_models (coll w1))) as [|m l]; [|
      destruct (_removeModels _ o w1) as [[w2' o2'] rem] ];
      by intros [= <- <- <-].
  - by intros [= <- <- <-].
Qed.

(** ** A merge that leaves the sort key alone *)

Lemma hasChanged_trans s a b c :
  hasChanged s a b = false → hasChanged s b c = false → hasChanged s a c = false.
Proof.
  unfold hasChanged. destruct s as [name|];
    rewrite !negb_false_iff, !bool_decide_eq_true; congruence.
Qed.

Lemma attributes_fresh h n m a x c l :
  (m < n)%nat → attributes (World (<[n := a]> h) x c l) m = default empty_attrs (h !! m).
Proof. intros Hlt. unfold attributes. cbn [heap]. by rewrite lookup_insert_ne by lia. Qed.

Lemma set_step_keeps_sort_key o sortAttr (n0 : nat) st it :
  (n0 ≤ next_cid st.1)%nat →
  s_sort (set_step o true sortAttr st it).2 = false →
  s_sort st.2 = false
  ∧ (n0 ≤ next_cid (set_step o true sortAttr st it).1)%nat
  ∧ ∀ m, (m < n0)%nat →
         hasChanged sortAttr (attributes st.1 m)
                    (attributes (set_step o true sortAttr st it).1 m) = false.
Proof.
  destruct st as [w a]. cbn [fst snd]. intros Hn.
  step_cases w a it o; cbn [andb]; intros Hflag.
  1,2: destruct (s_sort a) eqn:Hs; cbn [negb] in Hflag; [done|];
       destruct (existing_set_heap existing (item_attrs w it) o w) as (Hh & Hnext);
       split; [done|]; split; [lia|]; intros m Hm;
       destruct (decide (m = existing)) as [->|Hne]; [done|];
       unfold attributes at 2; rewrite Hh, lookup_insert_ne by done;
       apply hasChanged_same.
  1,2: split; [done|]; split; [done|]; intros m _; apply hasChanged_same.
  - split; [done|]. destruct it as [m'|raw]; cbn in Hprep.
    + injection Hprep as <- <-. split; [done|]. intros m _. apply hasChanged_same.
    + destruct (failure (c_validate (coll w) raw)); [done|].
      injection Hprep as <- <-. cbn [next_cid _addReference with_coll].
      split; [lia|]. intros m Hm.
      change (attributes (_addReference (next_cid w) ?x) m) with (attributes x m).
      rewrite attributes_fresh by lia. apply hasChanged_same.
  - split; [done|]. destruct it as [m'|raw]; cbn in Hprep; [done|].
    destruct (failure (c_validate (coll w) raw)); [|done].
    injection Hprep as <-. cbn [next_cid trigger]. split; [lia|].
    intros m _. apply hasChanged_same.
  - split; [done|]. split; [done|]. intros m _. apply hasChanged_same.
Qed.

Lemma set_loop_keeps_sort_key models o w :
  sortable_of o w = true →
  s_sort (set_loop models o w).2 = false →
  ∀ m, (m < next_cid w)%nat →
       hasChanged (sortAttr_of w) (attributes w m)
                  (attributes (set_loop models o w).1 m) = false.
Proof.
  intros Hsortable. unfold set_loop. rewrite Hsortable.
  cut ((next_cid w ≤ next_cid
          (foldl (set_step o true (sortAttr_of w)) (w, empty_acc) (items_of models)).1)%nat
       ∧ (s_sort (foldl (set_step o true (sortAttr_of w)) (w, empty_acc)
                        (items_of models)).2 = false →
          ∀ m, (m < next_cid w)%nat →
               hasChanged (sortAttr_of w) (attributes w m)
                 (attributes (foldl (set_step o true (sortAttr_of w)) (w, empty_acc)
                                    (items_of models)).1 m) = false)).
  { intros [_ H]. exact H. }
  apply (foldl_invariant
           (λ st : world * acc,
              (next_cid w ≤ next_cid st.1)%nat
              ∧ (s_sort st.2 = false →
                 ∀ m, (m < next_cid w)%nat →
                      hasChanged (sortAttr_of w) (attributes w m) (attributes st.1 m)
                      = false))).
  - split; [done|]. intros _ m _. apply hasChanged_same.
  - intros st it (Hn & Hkeep) _.
    split.
    + destruct (s_sort (set_step o true (sortAttr_of w) st it).2) eqn:Hflag.
      * clear Hkeep. destruct st as [w1 a]. cbn [fst] in *.
        revert Hflag. step_cases w1 a it o; intros _;
          rewrite ?(proj2 (existing_set_heap _ _ _ _)); try lia.
        -- destruct it as [m'|raw]; cbn in Hprep.
           ++ injection Hprep as <- <-. done.
           ++ destruct (failure (c_validate (coll w1) raw)); [done|].
              injection Hprep as <- <-. cbn. lia.
        -- destruct it as [m'|raw]; cbn in Hprep; [done|].
           destruct (failure (c_validate (coll w1) raw)); [|done].
           injection Hprep as <-. cbn. lia.
      * by destruct (set_step_keeps_sort_key o (sortAttr_of w) (next_cid w) st it Hn Hflag)
          as (_ & ? & _).
    + intros Hflag m Hm.
      destruct (set_step_keeps_sort_key o (sortAttr_of w) (next_cid w) st it Hn Hflag)
        as (Hprev & _ & Hstep).
      eapply hasChanged_trans; [by apply Hkeep | by apply Hstep].
Qed.

(** ** The [add] events *)

Lemma add_events_Forall2 at_ i toAdd held :
  Forall2 (λ e m, ∃ idx, e = EvAdd m idx) (add_events at_ i toAdd held) toAdd.
Proof.
  revert i. induction toAdd as [|m rest IH]; intros i; cbn [add_events];
    constructor; eauto.
Qed.

Lemma add_events_index a i toAdd held m idx :
  EvAdd m idx ∈ add_events (Some a) i toAdd held →
  ∃ j : nat, toAdd !! j = Some m ∧ idx = Some (a + i + Z.of_nat j).
Proof.
  revert i. induction toAdd as [|x rest IH]; intros i; cbn [add_events].
  - by intros ?%elem_of_nil.
  - intros [[= -> ->]|Hin]%elem_of_cons.
    + exists 0%nat. split; [done|]. f_equal. lia.
    + destruct (IH _ Hin) as (j & Hj & ->). exists (S j). split; [done|].
      f_equal. lia.
Qed.

(** ** The order of the members that stay *)

Lemma retained_order_kept (l m2 X l' : list cid) (k : nat) :
  NoDup l → m2 `sublist_of` l → (∀ x, x ∈ X → x ∉ l) →
  l' = take k m2 ++ X ++ drop k m2 →
  filter (λ x, x ∈ l') l = filter (λ x, x ∈ l) l'.
Proof.
  intros Hnd Hsub Hfresh ->.
  pose proof (sublist_subseteq _ _ Hsub) as Hin.
  rewrite !filter_app.
  rewrite (filter_all _ (take k m2)).
  2:{ intros x Hx. apply Hin. by eapply subseteq_take. }
  rewrite (filter_all _ (drop k m2)).
  2:{ intros x Hx. apply Hin. by eapply subseteq_drop. }
  rewrite (filter_none _ X) by done.
  cbn [app]. rewrite take_drop.
  etrans; [|exact (sublist_filter_NoDup l m2 Hnd Hsub)].
  apply filter_agree. intros x Hx.
  rewrite !elem_of_app. rewrite <- (take_drop k m2) at 3. rewrite elem_of_app.
  split; [|tauto]. intros [?|[HX|?]]; auto. by destruct (Hfresh x HX).
Qed.

(** ** The claim *)

(** C4, as amended: on a well-formed collection a call of [set] with
    models that is not silent returns, and its events are, in this order:
    the [invalid], [change] and [remove] events of the reconciliation; one
    [add] event per newly added model, which carries the index at which the
    model sits after the call when an explicit [at] not below
    [-(length + 1)] was given and [remove] is disabled; one [sort] event if
    the collection was resorted or the order of the retained models
    changed; one [update] event with the added, removed and merged models
    if one of the three lists is not empty. *)
Theorem set_events_in_order (models : input) (o : options) (w : world) :
  models ≠ Nothing →
  truthy (o_silent o) = false →
  wf w → Forall (item_ok (next_cid w)) (items_of models) →
  ∃ r w', set models o w = Ok r w' ∧ set_trace_in_order models o w w'.
Proof.
  intros Hsome Hsil Hwf Hok.
  set (o' := extend_setOptions o).
  assert (Hsil' : truthy (o_silent o') = false) by exact Hsil.
  pose proof Hwf as (Hlen & Hnd & Hbound & _). rewrite app_nil_r in Hnd, Hbound.
  destruct (set_body_phases models o' w)
    as (w2 & o2 & toRemove & w4 & Hrem & Hsort & Hrun); [lia|].
  rewrite Hsil' in Hrun.
  pose proof (set_loop_inv models o' w Hwf Hok) as Hinv.
  pose proof (set_loop_keeps_members models o' w) as (Hms1 & Hlen1 & _).
  pose proof (grows_by_weaken _ _ _ _ loop_event_early (set_loop_grows models o' w))
    as (n1 & Hl1 & F1).
  pose proof (set_loop_sort_sortable models o' w) as Hflag.
  pose proof (set_loop_keeps_sort_key models o' w) as Hkey.
  unfold set_trace_in_order, resorted, added_by_set, merged_by_set. fold o'.
  destruct (set_loop models o' w) as [w1 a] eqn:Hloop. cbn [fst snd] in *.
  pose proof (set_remove_grows _ _ _ _ _ _ Hrem) as (n2 & Hl2 & F2).
  pose proof (set_remove_sublist _ _ _ _ _ _ Hrem) as Hsub2.
  destruct (set_remove_spec _ _ _ _ _ _ Hrem) as ((Hh2 & _) & _).
  destruct (set_remove_wf _ o' w1 a Hinv) as (w2' & o2' & tr' & Hrem2 & Hwf2 & _ & Hmem2).
  rewrite Hrem in Hrem2. injection Hrem2 as <- <- <-.
  destruct Hinv as (Hwf1 & Hndset & Hmap & Hsubset & HtoAdd & _). cbn [fst snd] in *.
  pose proof Hwf1 as (Hlen1' & Hnd1 & _).
  pose proof (set_remove_stale _ _ _ _ _ _ Hlen1' Hrem) as Hstale.
  (* the new models are none of the former members *)
  assert (Hfresh : ∀ x, x ∈ s_toAdd a → x ∉ c_models (coll w)).
  { intros x Hx Hin. rewrite <- Hms1 in Hin.
    apply NoDup_app in Hnd1 as (_ & Hdis & _). by apply (Hdis x). }
  (* the members after the removal *)
  assert (Hmem2' : ∀ x, x ∈ c_models (coll w2)
                        ↔ x ∈ c_models (coll w) ∧ x ∉ toRemove).
  { intros x. rewrite Hstale. destruct (truthy (o_remove o')) eqn:Hr.
    - rewrite (Hmem2 eq_refl), Hms1, list_elem_of_filter, Hmap.
      destruct (decide (x ∈ s_set a)); tauto.
    - unfold set_remove in Hrem. rewrite Hr in Hrem. injection Hrem as <- _ _.
      rewrite Hms1, elem_of_nil. tauto. }
  set (at_ := resolve_at (o_at o') (c_length (coll w))) in *.
  set (upd := set_update at_ (sortable_of o' w) o' a w2) in *.
  (* the structural update *)
  destruct (set_update_spec at_ (sortable_of o' w) o' a w2)
    as (Hh3 & _ & Hl3 & _ & _ & _ & _ & _ & Hshape).
  fold upd in Hh3, Hl3, Hshape.
  assert (Hmem3 : ∀ x, x ∈ c_models (coll upd.1.1)
                       ↔ x ∈ c_models (coll w2) ∨ x ∈ s_toAdd a).
  { intros x.
    destruct Hshape as [(_ & _ & _ & Hr & -> & _)|[(_ & -> & _)|(Hnil & -> & _)]].
    - rewrite (Hmem2 Hr). split.
      + intros Hx. pose proof (Hsubset x Hx) as Hx'.
        apply elem_of_app in Hx' as [?|?]; auto.
      + intros [[_ ?]|?]; auto.
    - by rewrite elem_of_splice.
    - rewrite Hnil, elem_of_nil. tauto. }
  assert (Hkept : upd.2 = false →
            ∃ (k : nat) X,
              c_models (coll upd.1.1)
              = take k (c_models (coll w2)) ++ X ++ drop k (c_models (coll w2))
              ∧ ∀ x, x ∈ X → x ∈ s_toAdd a).
  { subst upd. unfold set_update.
    destruct (negb (bool_decide (s_set a = []))
              && (negb (sortable_of o' w) && truthy (o_add o') && truthy (o_remove o')));
      cbn [fst snd coll with_coll set_models c_models].
    - intros Hoc. apply orb_false_iff in Hoc as [Hoc1 Hoc2].
      apply negb_false_iff, bool_decide_eq_true in Hoc1.
      destruct Hwf2 as (Hlen2 & _).
      rewrite splice_nil.
      rewrite <- (some_differs_false _ _ Hoc2) by lia.
      exists 0%nat, []. split; [done|]. by intros x ?%elem_of_nil.
    - destruct (negb (bool_decide (s_toAdd a = [])));
        cbn [fst snd coll with_coll set_models c_models]; intros _.
      + eexists _, (s_toAdd a). split; [reflexivity | done].
      + exists 0%nat, []. split; [done|]. by intros x ?%elem_of_nil. }
  assert (Hres : sortable_of o' w = true →
                 s_toAdd a ≠ [] ∨ s_sort a = true → upd.1.2 = true).
  { intros Hs Hor. subst upd. unfold set_update. rewrite Hs.
    cbn [negb andb]. rewrite andb_false_r.
    destruct (bool_decide (s_toAdd a = [])) eqn:Hnil; cbn [negb fst snd orb]; [|done].
    apply bool_decide_eq_true in Hnil. by destruct Hor. }
  (* sorting and the events *)
  assert (H4 : (∀ x, x ∈ c_models (coll w4) ↔ x ∈ c_models (coll upd.1.1))
               ∧ (upd.1.2 = false → coll w4 = coll upd.1.1)
               ∧ heap w4 = heap w1 ∧ log w4 = log w ++ n1 ++ n2).
  { destruct upd.1.2.
    - apply sort_Ok_inv in Hsort
        as (cmp & _ & Hh & _ & Hms & _ & _ & _ & _ & _ & Hlog).
      split; [|split; [done|split]].
      + intros x. by rewrite Hms, sort_models_perm.
      + congruence.
      + by rewrite Hlog, Hl3, Hl2, Hl1, <- (assoc_L (++)).
    - injection Hsort as <-. split; [done|]. split; [done|]. split; [congruence|].
      by rewrite Hl3, Hl2, Hl1, <- (assoc_L (++)). }
  destruct H4 as (Hmem4 & Hsame4 & Hh4 & Hl4).
  set (w' := set_events at_ a toRemove upd.1.2 upd.2 o2 w4) in *.
  destruct (set_events_state at_ a toRemove upd.1.2 upd.2 o2 w4) as (Hh5 & _ & Hc5).
  fold w' in Hh5, Hc5.
  assert (Hmem5 : ∀ x, x ∈ c_models (coll w')
                       ↔ x ∈ c_models (coll w) ∧ x ∉ toRemove ∨ x ∈ s_toAdd a).
  { intros x. by rewrite Hc5, Hmem4, Hmem3, Hmem2'. }
  assert (Hevents : events_since (length (log w)) w'
            = (d_event <$> (n1 ++ n2))
              ++ add_events at_ 0 (s_toAdd a) (o_index o2)
              ++ (if upd.1.2 || upd.2 then [EvSort] else [])
              ++ update_event (s_toAdd a) toRemove (s_toMerge a)).
  { unfold events_since, w'. rewrite fmap_drop, set_events_events, Hl4, fmap_app.
    rewrite <- (assoc_L (++)), drop_app_length'; [done|]. by rewrite length_fmap. }
  exists (shape models (s_out a)), w'. split.
  { unfold set, set_with. fold o'. rewrite <- Hrun. by destruct models. }
  exists (d_event <$> (n1 ++ n2)), (add_events at_ 0 (s_toAdd a) (o_index o2)),
         (if upd.1.2 || upd.2 then [EvSort] else []), toRemove.
  split; [exact Hevents|].
  split. { apply Forall_fmap, Forall_app. split; [exact F1 | exact F2]. }
  split; [apply add_events_Forall2|].
  split.
  { intros m. rewrite Hmem5. split.
    - intros Hm. split; [by right | by apply Hfresh].
    - intros [[[? _]|?] ?]; done. }
  split.
  { intros m. rewrite Hmem5. split.
    - intros Hm. assert (Hmw : m ∈ c_models (coll w)).
      { rewrite Hstale in Hm. destruct (truthy (o_remove o')).
        - apply list_elem_of_filter in Hm as [_ Hm]. by rewrite <- Hms1.
        - by apply elem_of_nil in Hm. }
      split; [done|]. intros [[_ ?]|Hadd]; [done|]. by apply (Hfresh m).
    - intros [Hm Hnot]. destruct (decide (m ∈ toRemove)); [done|].
      destruct Hnot. by left. }
  split.
  { (* the index of the add events *)
    intros (a0 & Hat & Hlow & Hremove).
    assert (Hrem' : truthy (o_remove o') = false).
    { subst o'. unfold truthy. cbn. by rewrite Hremove. }
    assert (Hns : sortable_of o' w = false).
    { unfold sortable_of. change (o_at o') with (o_at o). rewrite Hat.
      cbn. by rewrite andb_false_r. }
    destruct (set_body_without_remove models o' w Hrem') as (w'' & Hrun' & _ & Hsplice).
    rewrite Hloop in Hrun', Hsplice. cbn [fst snd] in Hrun', Hsplice.
    rewrite Hrun in Hrun'. injection Hrun' as Hw''.
    specialize (Hsplice Hns). rewrite <- Hw'' in Hsplice.
    assert (Hres_at : ∃ a', at_ = Some a' ∧ 0 ≤ a' ≤ c_length (coll w)).
    { subst at_. change (o_at o') with (o_at o). rewrite Hat. unfold resolve_at.
      eexists. split; [reflexivity|].
      destruct (Z.gtb_spec a0 (c_length (coll w)));
        repeat match goal with |- context [?x <? ?y] => destruct (Z.ltb_spec x y) end;
        lia. }
    destruct Hres_at as (a' & Hat_ & Hrange).
    intros m idx Hin. rewrite Hevents, Hat_ in Hin.
    rewrite !elem_of_app in Hin. destruct Hin as [Hin|[Hin|[Hin|Hin]]].
    - apply list_elem_of_fmap in Hin as (d & Hd & Hdin).
      assert (Hearly : early_event (d_event d)).
      { apply elem_of_app in Hdin as [Hdin|Hdin];
          [rewrite Forall_forall in F1; by apply F1
          |rewrite Forall_forall in F2; by apply F2]. }
      by rewrite <- Hd in Hearly.
    - apply add_events_index in Hin as (j & Hj & ->).
      exists (Z.to_nat a' + j)%nat. split; [f_equal; lia|].
      rewrite Hsplice. fold at_. rewrite Hat_. unfold splice. cbv zeta. cbn [default].
      unfold id.
      replace (Z.to_nat (Z.min (Z.max a' 0) (Z.of_nat (length (c_models (coll w))))))
        with (Z.to_nat a') by lia.
      rewrite lookup_app_r by (rewrite length_take; lia).
      rewrite length_take.
      replace (Z.to_nat a' + j - Z.to_nat a' `min` length (c_models (coll w)))%nat
        with j by lia.
      rewrite lookup_app_l; [done|]. by eapply lookup_lt_Some.
    - destruct (upd.1.2 || upd.2); [|by apply elem_of_nil in Hin].
      by apply list_elem_of_singleton in Hin.
    - unfold update_event in Hin.
      destruct (s_toAdd a), toRemove, (s_toMerge a);
        first [by apply elem_of_nil in Hin | by apply list_elem_of_singleton in Hin]. }
  split. { destruct (upd.1.2 || upd.2); auto. }
  split. { intros [Hs Hor]. by rewrite (Hres Hs Hor). }
  split.
  { intros Hs (m & Hm & Hch). rewrite (Hres Hs); [done|]. right.
    destruct (s_sort a) eqn:Hflag'; [done|].
    specialize (Hkey Hs eq_refl m (Hbound m Hm)).
    rewrite (attributes_heap w' w1 m) in Hch by congruence. congruence. }
  intros Hchg. destruct (upd.1.2 || upd.2) eqn:Hflags; [done|].
  apply orb_false_iff in Hflags as [Hf1 Hf2].
  destruct (Hkept Hf2) as (k & X & Hms3 & HX).
  destruct Hchg. rewrite Hc5, (Hsame4 Hf1).
  apply (retained_order_kept _ (c_models (coll w2)) X _ k).
  - exact Hnd.
  - by rewrite <- Hms1.
  - intros x Hx. by apply Hfresh, HX.
  - exact Hms3.
Qed.

Lemma set_events_in_order_witness :
  ∃ r w',
    set (Many [hash 2; hash 3]) (at_option 0) one_member = Ok r w'
    ∧ set_trace_in_order (Many [hash 2; hash 3]) (at_option 0) one_member w'.
Proof.
  apply (set_events_in_order (Many [hash 2; hash 3]) (at_option 0) one_member).
  - discriminate.
  - reflexivity.
  - apply one_member_wf.
  - repeat constructor.
Defined.

(** C4, as stated, fails in its index: without an [at] option the [add]
    event carries no index; with [at] and [remove] enabled the reconciled
    set replaces [models] and the index [at + i] is not where the model
    sits; and an [at] below [-(length + 1)] gives a negative index. *)
Lemma add_event_index_is_not_the_position :
  ¬ add_events_carry_insertion_index 0
      (world_of (set (One (hash 1)) no_options (empty_world None no_validation)))
  ∧ ¬ add_events_carry_insertion_index (length (log one_member))
        (world_of (set (Many [hash 1; hash 2]) (at_option 0) one_member))
  ∧ ¬ add_events_carry_insertion_index (length (log one_member))
        (world_of (set (One (hash 2))
                       (Options None (Some false) None None None (Some (-5)) None)
                       one_member)).
Proof.
  split; [|split].
  - intros H. destruct (H 0%nat None) as (i & Hi & _); [|discriminate].
    replace (events_since 0 _) with [EvAdd 0%nat None; EvSort; EvUpdate [0%nat] [] []]
      by (vm_compute; reflexivity).
    by left.
  - intros H. destruct (H 1%nat (Some 0)) as (i & Hi & Hpos).
    + replace (events_since _ _)
        with [EvAdd 1%nat (Some 0); EvSort; EvUpdate [1%nat] [] [0%nat]]
        by (vm_compute; reflexivity).
      by left.
    + injection Hi as Hi. assert (i = 0%nat) as -> by lia.
      vm_compute in Hpos. discriminate.
  - intros H. destruct (H 1%nat (Some (-3))) as (i & Hi & _).
    + replace (events_since _ _)
        with [EvAdd 1%nat (Some (-3)); EvUpdate [1%nat] [] []]
        by (vm_compute; reflexivity).
      by left.
    + injection Hi as Hi. lia.
Qed.

(** * Handlers that act, and inherited property names *)

(** With the idle handler, the calls are those of the collection whose
    handlers only observe. *)
Lemma run_call_l_idle c w : run_call_l idle c w = run_call c w.
Proof. by destruct c. Qed.

(** So they are with any handler that only observes. *)
Section observers.
  Variable react : event → world → world.
  Hypothesis Hobs : observing react.

Lemma trigger_l_observing e w : trigger_l react e w = trigger e w.
Proof. apply Hobs. Qed.

Lemma existing_set_l_observing m new o w :
  existing_set_l react m new o w = existing_set m new o w.
Proof.
  unfold existing_set_l, existing_set, _onModelEvent_change_l, _onModelEvent_change.
  by rewrite trigger_l_observing.
Qed.

Lemma _prepareModel_l_observing it w : _prepareModel_l react it w = _prepareModel it w.
Proof.
  unfold _prepareModel_l, _prepareModel. destruct it; [done|].
  destruct (failure _); [|done]. by rewrite trigger_l_observing.
Qed.

Lemma sort_l_observing silent w : sort_l react silent w = sort silent w.
Proof.
  unfold sort_l, sort. destruct (truthy_comparator _); [|done].
  by rewrite trigger_l_observing.
Qed.

Lemma foldl_agree {A B} (f g : A → B → A) (l : list B) (a : A) :
  (∀ a b, f a b = g a b) → foldl f a l = foldl g a l.
Proof.
  intros Hfg. revert a. induction l as [|b l IH]; intros a; cbn [foldl]; [done|].
  by rewrite Hfg, IH.
Qed.

Lemma remove_one_l_observing st t : remove_one_l react st t = remove_one st t.
Proof.
  destruct st as [[w o] removed]. unfold remove_one_l, remove_one.
  destruct (get w t); [|done]. by rewrite trigger_l_observing.
Qed.

Lemma _removeModels_l_observing ts o w :
  _removeModels_l react ts o w = _removeModels ts o w.
Proof. apply foldl_agree, remove_one_l_observing. Qed.

Lemma set_step_l_observing o sortable sortAttr st it :
  set_step_l react o sortable sortAttr st it = set_step o sortable sortAttr st it.
Proof.
  destruct st as [w a]. unfold set_step_l, set_step.
  destruct (get w (TItem it)) as [existing|].
  - by rewrite existing_set_l_observing.
  - by rewrite _prepareModel_l_observing.
Qed.

Lemma set_loop_l_observing models o w :
  set_loop_l react models o w = set_loop models o w.
Proof. apply foldl_agree, set_step_l_observing. Qed.

Lemma set_remove_l_observing o a w1 : set_remove_l react o a w1 = set_remove o a w1.
Proof.
  unfold set_remove_l, set_remove. destruct (truthy _); [|done].
  destruct (stale_models _ _) as [[|m l]|]; [done| |done].
  by rewrite _removeModels_l_observing.
Qed.

Lemma trigger_adds_l_observing at_ i toAdd o w :
  trigger_adds_l react at_ i toAdd o w = trigger_adds at_ i toAdd o w.
Proof.
  revert i o w. induction toAdd as [|m rest IH]; intros i o w; [done|].
  cbn [trigger_adds_l trigger_adds]. by rewrite trigger_l_observing, IH.
Qed.

Lemma set_events_l_observing at_ a toRemove s oc o w :
  set_events_l react at_ a toRemove s oc o w = set_events at_ a toRemove s oc o w.
Proof.
  unfold set_events_l, set_events. rewrite trigger_adds_l_observing.
  destruct (trigger_adds at_ 0 (s_toAdd a) o w) as [w1 o1].
  by rewrite !trigger_l_observing.
Qed.

Lemma set_l_observing models o w : set_l react models o w = set models o w.
Proof.
  unfold set_l, set, set_with_l, set_with. destruct models; [done| |];
    unfold set_body_l, set_body;
    rewrite set_loop_l_observing;
    destruct (set_loop _ _ w) as [w1 a];
    rewrite set_remove_l_observing;
    destruct (set_remove _ a w1) as [[[w2 o2] toRemove]|]; try done;
    destruct (set_update _ _ _ a w2) as [[w3 sort3] oc];
    rewrite sort_l_observing;
    destruct (if sort3 then sort true w3 else Ok tt w3); try done;
    by rewrite set_events_l_observing.
Qed.

Lemma run_call_l_observing c w : run_call_l react c w = run_call c w.
Proof.
  destruct c as [i o|t o|i o|i o]; cbn [run_call_l run_call].
  - apply set_l_observing.
  - unfold remove_l, remove. rewrite _removeModels_l_observing.
    destruct (_removeModels (targets_of t) o w) as [[w1 o1] removed].
    by rewrite trigger_l_observing.
  - apply set_l_observing.
  - unfold reset_l, reset, add_l, add. rewrite set_l_observing.
    destruct (set _ _ _); [|done]. by rewrite trigger_l_observing.
Qed.

Lemma states_after_l_observing cs w : states_after_l react cs w = states_after cs w.
Proof.
  revert w. induction cs as [|c cs IH]; intros w; cbn; [done|].
  by rewrite run_call_l_observing, IH.
Qed.

Lemma outcomes_l_observing cs w : outcomes_l react cs w = outcomes cs w.
Proof.
  revert w. induction cs as [|c cs IH]; intros w; cbn; [done|].
  by rewrite run_call_l_observing, IH.
Qed.

Lemma well_scoped_l_observing cs w : well_scoped_l react cs w ↔ well_scoped cs w.
Proof.
  revert w. induction cs as [|c cs IH]; intros w; cbn; [done|].
  by rewrite run_call_l_observing, IH.
Qed.

End observers.




(** * No member twice, no id twice *)


